(** * Consensus extraction pipeline of [process_pdfs_optimized.py]

    A shallow embedding of the OCR consensus pipeline: the bounding-box
    geometry, the two recognizer adapters, the ensemble voting, the outline
    builder and the per-document driver, followed by the properties proved
    about them.

    Conventions of the embedding.
    - Python numbers (the [int]s of Tesseract, the [float]s of EasyOCR and
      of the thresholds) are exact rationals [Q]; Python's [==], [<], [<=]
      on numbers are [Qeq_bool], [Qltb], [Qle_bool].  Rounding of binary
      floating point is not modelled.
    - Python [str] is [string], one [ascii] per character.
    - A Python object carries its identity [oid] (what [id()] returns and
      what [is] compares) next to its slots.
    - A Python [dict] is an insertion-ordered association list with unique
      keys ([pydict]); its view as a finite map is [dict_to_map].
    - Code that can raise returns in the error monad [result]. *)

From Stdlib Require Import Ascii String QArith Qminmax Lqa Lia.
From stdpp Require Import base option list sorting gmap strings.
From Equations Require Import Equations.

Open Scope Q_scope.

#[global] Set Warnings "-clear-no-such-hyp".

(** ** Python prelude *)

Module Py.

Inductive exn : Type :=
| ZeroDivisionError
| ValueError
| IndexError
| KeyError
| ExternalError (msg : string).

Inductive result (A : Type) : Type :=
| Ok (a : A)
| Raise (e : exn).
Global Arguments Ok {A} a.
Global Arguments Raise {A} e.

Global Instance result_ret : MRet result := fun A a => Ok a.
Global Instance result_bind : MBind result := fun A B f m =>
  match m with
  | Ok a => f a
  | Raise e => Raise e
  end.

(** [a < b] on numbers. *)
Definition Qltb (a b : Q) : bool := negb (Qle_bool b a).

(** [a / b]: true division, [ZeroDivisionError] on a zero divisor. *)
Definition truediv (a b : Q) : result Q :=
  if Qeq_bool b 0 then Raise ZeroDivisionError else Ok (a / b).

(** [max(a, b)] and [min(a, b)] on two numbers: the first argument is kept
    unless the second is strictly greater (resp. smaller). *)
Definition max2 (a b : Q) : Q := if Qltb a b then b else a.
Definition min2 (a b : Q) : Q := if Qltb b a then b else a.

(** [max(l, key=...)] without a default: scans left to right and replaces
    the running maximum only by a strictly greater key, so the first of
    several maxima wins; raises [ValueError] on an empty sequence. *)
Fixpoint max_from {A} (key : A -> Q) (best : A) (l : list A) : A :=
  match l with
  | [] => best
  | x :: l' => max_from key (if Qltb (key best) (key x) then x else best) l'
  end.

Definition max_by {A} (key : A -> Q) (l : list A) : result A :=
  match l with
  | [] => Raise ValueError
  | x :: l' => Ok (max_from key x l')
  end.

(** [sorted(l, key=...)]: the stable sort for the strict order [lt] on
    elements (Python sorts with [<] on the keys only).  Insertion from the
    right keeps equal keys in their original order, as Timsort does. *)
Fixpoint insert_sorted {A} (lt : A -> A -> bool) (x : A) (l : list A) : list A :=
  match l with
  | [] => [x]
  | y :: l' => if lt y x then y :: insert_sorted lt x l' else x :: y :: l'
  end.

Definition sorted {A} (lt : A -> A -> bool) (l : list A) : list A :=
  foldr (insert_sorted lt) [] l.

(** [l[i]] for a non-negative index. *)
Definition getitem {A} (l : list A) (i : nat) : result A :=
  match l !! i with
  | Some x => Ok x
  | None => Raise IndexError
  end.

(** [str.strip()]: drops leading and trailing white space.  Among the
    characters below 256 Python counts as white space: tab, line feed,
    vertical tab, form feed, carriage return, the separators 28 to 31,
    space, next line (133) and no-break space (160). *)
Definition is_space (c : ascii) : bool :=
  let n := nat_of_ascii c in
  ((9 <=? n)%nat && (n <=? 13)%nat) || ((28 <=? n)%nat && (n <=? 32)%nat)
  || (n =? 133)%nat || (n =? 160)%nat.

Fixpoint lstrip (s : string) : string :=
  match s with
  | String c s' => if is_space c then lstrip s' else s
  | EmptyString => EmptyString
  end.

Fixpoint rstrip (s : string) : string :=
  match s with
  | EmptyString => EmptyString
  | String c s' =>
      match rstrip s' with
      | EmptyString => if is_space c then EmptyString else String c EmptyString
      | r => String c r
      end
  end.

Definition strip (s : string) : string := rstrip (lstrip s).

(** [s.endswith(c)] for a one-character suffix. *)
Fixpoint endswith (s : string) (c : ascii) : bool :=
  match s with
  | EmptyString => false
  | String d EmptyString => Ascii.eqb d c
  | String _ s' => endswith s' c
  end.

(** [s.count(c)] for a one-character pattern. *)
Fixpoint count (s : string) (c : ascii) : nat :=
  match s with
  | EmptyString => 0%nat
  | String d s' => ((if Ascii.eqb d c then 1 else 0) + count s' c)%nat
  end.

(** Insertion-ordered dictionaries. *)
Abbreviation pydict K V := (list (K * V)) (only parsing).

Section Dict.
Context {K V : Type} `{EqDecision K}.

(** [d[k] = v]: overwrites in place when the key is present, appends
    otherwise. *)
Fixpoint setitem (d : pydict K V) (k : K) (v : V) : pydict K V :=
  match d with
  | [] => [(k, v)]
  | (k', v') :: d' =>
      if decide (k' = k) then (k, v) :: d' else (k', v') :: setitem d' k v
  end.

Fixpoint get (d : pydict K V) (k : K) : option V :=
  match d with
  | [] => None
  | (k', v') :: d' => if decide (k' = k) then Some v' else get d' k
  end.

Definition keys (d : pydict K V) : list K := d.*1.
Definition values (d : pydict K V) : list V := d.*2.
End Dict.

End Py.
Import Py.

(** ** Data structures and core helpers *)

(** [class BoundingBox]: the eight slots, preceded by the object identity. *)
Record BoundingBox : Type := mkBoundingBox {
  oid : nat;
  x1 : Q;
  y1 : Q;
  x2 : Q;
  y2 : Q;
  text : string;
  confidence : Q;
  font_size : Q;
  area : Q
}.

(** [BoundingBox.__init__], for the object allocated at identity [o]. *)
Definition BoundingBox_init (o : nat) (x1 y1 x2 y2 : Q) (text : string)
    (confidence font_size : Q) : BoundingBox :=
  {| oid := o; x1 := x1; y1 := y1; x2 := x2; y2 := y2;
     text := strip text;
     confidence := confidence;
     font_size := font_size;
     area := (x2 - x1) * (y2 - y1) |}.

(** [a is b]. *)
Definition py_is (a b : BoundingBox) : bool := Nat.eqb (oid a) (oid b).

Definition calculate_iou_fast (box1 box2 : BoundingBox) : result Q :=
  if Qle_bool (x2 box1) (x1 box2) || Qle_bool (x2 box2) (x1 box1)
     || Qle_bool (y2 box1) (y1 box2) || Qle_bool (y2 box2) (y1 box1)
  then Ok 0
  else
    let ix1 := max2 (x1 box1) (x1 box2) in
    let iy1 := max2 (y1 box1) (y1 box2) in
    let ix2 := min2 (x2 box1) (x2 box2) in
    let iy2 := min2 (y2 box1) (y2 box2) in
    let intersection := max2 0 (ix2 - ix1) * max2 0 (iy2 - iy1) in
    if Qeq_bool intersection 0 then Ok 0
    else
      let union := area box1 + area box2 - intersection in
      if Qltb 0 union then truediv intersection union else Ok 0.

(** Monadic [for] loop over a list, and [enumerate(l, start)]. *)
Fixpoint for_each {A S : Type} (body : S -> A -> result S) (s : S) (l : list A)
    : result S :=
  match l with
  | [] => Ok s
  | x :: l' => s' ← body s x; for_each body s' l'
  end.

Fixpoint enumerate {A : Type} (l : list A) (start : nat) : list (nat * A) :=
  match l with
  | [] => []
  | x :: l' => (start, x) :: enumerate l' (S start)
  end.

(** [min(l)] and [max(l)] on a list of numbers. *)
Fixpoint min_from (best : Q) (l : list Q) : Q :=
  match l with
  | [] => best
  | x :: l' => min_from (if Qltb x best then x else best) l'
  end.

Definition min_list (l : list Q) : result Q :=
  match l with
  | [] => Raise ValueError
  | x :: l' => Ok (min_from x l')
  end.

Definition max_list (l : list Q) : result Q := max_by (fun x => x) l.

(** ** OCR engine adapters *)

Definition bytes : Type := list Byte.byte.

(** The dictionary returned by [pytesseract.image_to_data]: one list per
    column.  The confidence column holds the values as read by [int(...)]. *)
Record TessData : Type := {
  tess_text : list string;
  tess_conf : list Z;
  tess_left : list Z;
  tess_top : list Z;
  tess_width : list Z;
  tess_height : list Z
}.

(** One pass of the loop of [run_tesseract]; the state is the list [boxes]
    and the identity of the next allocated object. *)
Definition tesseract_row (data : TessData) (st : list BoundingBox * nat) (i : nat)
    : result (list BoundingBox * nat) :=
  let '(boxes, next) := st in
  t ← getitem (tess_text data) i;
  c ← getitem (tess_conf data) i;
  let text := strip t in
  let conf := c in
  if (1 <? String.length text)%nat && (30 <? conf)%Z then
    x ← getitem (tess_left data) i;
    y ← getitem (tess_top data) i;
    w ← getitem (tess_width data) i;
    h ← getitem (tess_height data) i;
    cf ← truediv (inject_Z conf) 100;
    Ok (boxes ++ [BoundingBox_init next (inject_Z x) (inject_Z y)
                    (inject_Z (x + w)) (inject_Z (y + h)) text cf
                    (max2 8 (inject_Z h * (8 # 10)))],
        S next)
  else Ok (boxes, next).

Definition tesseract_boxes (alloc : nat) (data : TessData) : result (list BoundingBox) :=
  st ← for_each (tesseract_row data) ([], alloc) (seq 0 (length (tess_text data)));
  Ok st.1.

(** [run_tesseract]: image decoding and the engine are the external
    [image_to_data]; any exception yields the empty list. *)
Definition run_tesseract (image_to_data : bytes -> result TessData)
    (alloc : nat) (image_bytes : bytes) : list BoundingBox :=
  match data ← image_to_data image_bytes; tesseract_boxes alloc data with
  | Ok boxes => boxes
  | Raise _ => []
  end.

(** One result of [EASYOCR_READER.readtext]: the corner points, the text and
    the confidence. *)
Record EasyItem : Type := {
  easy_coords : list (Q * Q);
  easy_text : string;
  easy_conf : Q
}.

Definition easyocr_item (st : list BoundingBox * nat) (it : EasyItem)
    : result (list BoundingBox * nat) :=
  let '(boxes, next) := st in
  let '(coords, text, conf) := (easy_coords it, easy_text it, easy_conf it) in
  if Qltb (4 # 10) conf && (1 <? String.length (strip text))%nat then
    let x_coords := coords.*1 in
    let y_coords := coords.*2 in
    bx1 ← min_list x_coords;
    by1 ← min_list y_coords;
    bx2 ← max_list x_coords;
    by2 ← max_list y_coords;
    Ok (boxes ++ [BoundingBox_init next bx1 by1 bx2 by2 text conf
                    (max2 8 ((by2 - by1) * (8 # 10)))],
        S next)
  else Ok (boxes, next).

Definition easyocr_boxes (alloc : nat) (results : list EasyItem) : result (list BoundingBox) :=
  st ← for_each easyocr_item ([], alloc) results;
  Ok st.1.

(** [run_easyocr]; [reader] is the worker's global [EASYOCR_READER]
    ([None] until [initialize_worker] has run). *)
Definition run_easyocr (reader : option (bytes -> result (list EasyItem)))
    (alloc : nat) (image_bytes : bytes) : list BoundingBox :=
  match reader with
  | None => []
  | Some readtext =>
      match results ← readtext image_bytes; easyocr_boxes alloc results with
      | Ok boxes => boxes
      | Raise _ => []
      end
  end.

(** ** Ensemble voting *)

(** Body of the inner loop: [st] is [(cluster, used_indices)]. *)
Definition voting_inner (iou_threshold : Q) (box1 : BoundingBox)
    (st : list BoundingBox * gset nat) (jb : nat * BoundingBox)
    : result (list BoundingBox * gset nat) :=
  let '(cluster, used_indices) := st in
  let '(j, box2) := jb in
  if decide (j ∈ used_indices) then Ok st
  else
    r ← calculate_iou_fast box1 box2;
    if Qltb iou_threshold r
    then Ok (cluster ++ [box2], used_indices ∪ {[j]})
    else Ok st.

(** The cluster seeded at index [i], with the updated index set. *)
Definition voting_cluster (iou_threshold : Q) (all_boxes : list BoundingBox)
    (used_indices : gset nat) (i : nat) (box1 : BoundingBox)
    : result (list BoundingBox * gset nat) :=
  for_each (voting_inner iou_threshold box1)
           ([box1], used_indices ∪ {[i]})
           (enumerate (drop (S i) all_boxes) (S i)).

(** Body of the outer loop: [st] is [(final_boxes, used_indices)]. *)
Definition voting_outer (iou_threshold : Q) (all_boxes : list BoundingBox)
    (st : list BoundingBox * gset nat) (ib : nat * BoundingBox)
    : result (list BoundingBox * gset nat) :=
  let '(final_boxes, used_indices) := st in
  let '(i, box1) := ib in
  if decide (i ∈ used_indices) then Ok st
  else
    '(cluster, used_indices') ← voting_cluster iou_threshold all_boxes used_indices i box1;
    m ← max_by confidence cluster;
    Ok (final_boxes ++ [m], used_indices').

Definition fast_ensemble_voting (ocr_results : pydict string (list BoundingBox))
    (iou_threshold : Q) : result (list BoundingBox) :=
  let all_boxes := concat (values ocr_results) in
  match all_boxes with
  | [] => Ok []
  | _ =>
      st ← for_each (voting_outer iou_threshold all_boxes) ([], ∅) (enumerate all_boxes 0);
      Ok st.1
  end.

(** The default value of [iou_threshold]. *)
Definition default_iou_threshold : Q := 25 # 100.

(** ** Outline builder *)

Inductive Level : Type := H1 | H2.

(** One element of ["outline"]: the keys ["level"], ["text"], ["page"]. *)
Record OutlineEntry : Type := {
  level : Level;
  entry_text : string;
  page : nat
}.

(** The returned dictionary: the keys ["title"] and ["outline"]. *)
Record OutlineResult : Type := {
  title : string;
  outline : list OutlineEntry
}.

Definition first_page_boxes (all_boxes_with_page : list (nat * BoundingBox))
    : list BoundingBox :=
  (List.filter (fun pb => (pb.1 =? 0)%nat) all_boxes_with_page).*2.

(** [title_box]: [None] when the first page has no box. *)
Definition title_box (all_boxes_with_page : list (nat * BoundingBox))
    : result (option BoundingBox) :=
  match first_page_boxes all_boxes_with_page with
  | [] => Ok None
  | fpb => b ← max_by font_size fpb; Ok (Some b)
  end.

Definition document_title (tb : option BoundingBox) : string :=
  match tb with
  | Some b => text b
  | None => EmptyString
  end.

Definition all_font_sizes (all_boxes_with_page : list (nat * BoundingBox)) : list Q :=
  font_size <$>
    List.filter (fun b => (2 <? String.length (text b))%nat) all_boxes_with_page.*2.

(** [sorted_sizes[len(sorted_sizes) // 2]]. *)
Definition median_size (sizes : list Q) : result Q :=
  let sorted_sizes := sorted Qltb sizes in
  getitem sorted_sizes (length sorted_sizes / 2).

Definition h1_factor : Q := 16 # 10.
Definition h2_factor : Q := 13 # 10.

(** [<] on the sort keys [(page_idx, box.y1)], as Python compares tuples. *)
Definition key_lt (a b : nat * BoundingBox) : bool :=
  if negb (a.1 =? b.1)%nat then (a.1 <? b.1)%nat else Qltb (y1 a.2) (y1 b.2).

Definition sorted_boxes (all_boxes_with_page : list (nat * BoundingBox))
    : list (nat * BoundingBox) :=
  sorted key_lt all_boxes_with_page.

(** [box is title_box]. *)
Definition is_title (box : BoundingBox) (tb : option BoundingBox) : bool :=
  match tb with
  | Some t => py_is box t
  | None => false
  end.

(** Body of the classification loop; the state is the list [outline]. *)
Definition outline_step (tb : option BoundingBox) (h1_threshold h2_threshold : Q)
    (outline : list OutlineEntry) (pb : nat * BoundingBox) : list OutlineEntry :=
  let '(page_idx, box) := pb in
  if is_title box tb then outline
  else
    let text := text box in
    if (String.length text <? 3)%nat || (120 <? String.length text)%nat
       || endswith text "."%char || (10 <? count text " "%char)%nat
    then outline
    else
      let level :=
        if Qle_bool h1_threshold (font_size box) then Some H1
        else if Qle_bool h2_threshold (font_size box) then Some H2
        else None in
      match level with
      | Some lv => outline ++ [{| level := lv; entry_text := text; page := page_idx |}]
      | None => outline
      end.

Definition create_document_outline (all_boxes_with_page : list (nat * BoundingBox))
    : result OutlineResult :=
  match all_boxes_with_page with
  | [] => Ok {| title := EmptyString; outline := [] |}
  | _ =>
      tb ← title_box all_boxes_with_page;
      let document_title := document_title tb in
      match all_font_sizes all_boxes_with_page with
      | [] => Ok {| title := document_title; outline := [] |}
      | sizes =>
          median ← median_size sizes;
          let h1_threshold := median * h1_factor in
          let h2_threshold := median * h2_factor in
          Ok {| title := document_title;
                outline := foldl (outline_step tb h1_threshold h2_threshold) []
                                 (sorted_boxes all_boxes_with_page) |}
      end
  end.

(** ** Per-document driver *)

(** A path, by the components the code uses. *)
Record Path : Type := {
  parent : string;
  stem : string;
  suffix : string
}.

#[global] Instance Path_eq_dec : EqDecision Path.
Proof. solve_decision. Defined.

Inductive LogRecord : Type :=
| Info_processing (pdf_path : Path)
| Error_extract_failed (pdf_path : Path) (e : exn)
| Error_no_pages (pdf_path : Path)
| Info_extracted (pages : nat)
| Info_completed (pdf_path : Path) (headings : nat)
| Info_saved (output_file : Path)
| Error_failed (pdf_path : Path) (e : exn)
| Warning_no_pdfs
| Info_batch (pdfs cores : nat)
| Info_total.

(** What the process can observe and change: the files written under the
    output directory, the log, and the next free object identity. *)
Record World : Type := {
  files : pydict Path OutlineResult;
  log : list LogRecord;
  heap_next : nat
}.

(** The external collaborators: the page renderer, the two engines, the
    order in which the pool delivers the jobs, opening a file for writing,
    the number of processors and the listing of the input directory. *)
Record Env : Type := {
  fitz_pages : Path -> result (list bytes);
  image_to_data : bytes -> result TessData;
  easyocr_reader : option (bytes -> result (list EasyItem));
  as_completed : list (nat * string * bytes) -> list (nat * string * bytes);
  open_w : Path -> result unit;
  cpu_count : nat;
  glob_pdf : string -> list Path
}.

Inductive Outcome : Type :=
| Returned
| SystemExit (code : Z).

Definition logged (r : LogRecord) (w : World) : World :=
  {| files := files w; log := log w ++ [r]; heap_next := heap_next w |}.

Definition get_cpu_cores (env : Env) : nat := Nat.min (cpu_count env) 8.

Definition extract_pdf_pages_fast (env : Env) (pdf_path : Path) (w : World)
    : list bytes * World :=
  match fitz_pages env pdf_path with
  | Ok page_bytes => (page_bytes, w)
  | Raise e => ([], logged (Error_extract_failed pdf_path e) w)
  end.

(** The jobs of the dictionary [futures], in submission order, each with its
    tag [(page_idx, ocr_name)].  (The jobs of the earlier list [tasks] run
    too, but their results are never read.) *)
Definition submitted (page_bytes_list : list bytes) : list (nat * string * bytes) :=
  flat_map (fun ib : nat * bytes =>
              [(ib.1, "tesseract"%string, ib.2); (ib.1, "easyocr"%string, ib.2)])
           (enumerate page_bytes_list 0).

(** [future.result()] of one job; the boxes are allocated from [next]. *)
Definition job_result (env : Env) (next : nat) (job : nat * string * bytes)
    : list BoundingBox :=
  let '(_, ocr_name, image_bytes) := job in
  if String.eqb ocr_name "tesseract"
  then run_tesseract (image_to_data env) next image_bytes
  else run_easyocr (easyocr_reader env) next image_bytes.

(** The completions, in arrival order: tag and result. *)
Fixpoint completions (env : Env) (next : nat) (jobs : list (nat * string * bytes))
    : list (nat * string * list BoundingBox) :=
  match jobs with
  | [] => []
  | job :: jobs' =>
      let boxes := job_result env next job in
      (job.1.1, job.1.2, boxes) :: completions env (next + length boxes) jobs'
  end.

(** [results_by_page[page_idx][ocr_name] = boxes] on the
    [defaultdict(dict)]. *)
Definition collect_step {V : Type} (results_by_page : pydict nat (pydict string V))
    (c : nat * string * V) : pydict nat (pydict string V) :=
  let '(page_idx, ocr_name, boxes) := c in
  setitem results_by_page page_idx
          (setitem (default [] (get results_by_page page_idx)) ocr_name boxes).

Definition collect {V : Type} (cs : list (nat * string * V))
    : pydict nat (pydict string V) :=
  foldl collect_step [] cs.

(** The mapping a nested dictionary denotes. *)
Definition dict_to_map {V : Type} (d : pydict nat (pydict string V))
    : gmap nat (gmap string V) :=
  list_to_map <$> (list_to_map d : gmap nat (pydict string V)).

(** The loop over [sorted(results_by_page.keys())]. *)
Definition consensus_pages (results_by_page : pydict nat (pydict string (list BoundingBox)))
    : result (list (nat * BoundingBox)) :=
  for_each (fun acc page_idx =>
              consensus_boxes ←
                fast_ensemble_voting (default [] (get results_by_page page_idx))
                                     default_iou_threshold;
              Ok (acc ++ ((fun box => (page_idx, box)) <$> consensus_boxes)))
           [] (sorted Nat.ltb (keys results_by_page)).

Definition output_path (output_dir : string) (pdf_path : Path) : Path :=
  {| parent := output_dir; stem := stem pdf_path; suffix := ".json" |}.

Definition process_single_pdf_fast (env : Env) (pdf_path : Path) (output_dir : string)
    (w : World) : Outcome * World :=
  let w := logged (Info_processing pdf_path) w in
  let '(page_bytes_list, w) := extract_pdf_pages_fast env pdf_path w in
  match page_bytes_list with
  | [] => (Returned, logged (Error_no_pages pdf_path) w)
  | _ =>
      let w := logged (Info_extracted (length page_bytes_list)) w in
      let cs := completions env (heap_next w) (as_completed env (submitted page_bytes_list)) in
      let w := {| files := files w; log := log w;
                  heap_next := heap_next w + length (concat cs.*2) |} in
      let results_by_page := collect cs in
      let output_file := output_path output_dir pdf_path in
      match all ← consensus_pages results_by_page;
            output_data ← create_document_outline all;
            _ ← open_w env output_file;
            Ok output_data with
      | Ok output_data =>
          let w := {| files := setitem (files w) output_file output_data;
                      log := log w; heap_next := heap_next w |} in
          (Returned,
           logged (Info_saved output_file)
                  (logged (Info_completed pdf_path (length (outline output_data))) w))
      | Raise e => (SystemExit 1, logged (Error_failed pdf_path e) w)
      end
  end.

(** The loop of [main] over [pdf_files]; [SystemExit] leaves it. *)
Fixpoint process_all (env : Env) (pdf_files : list Path) (output_dir : string)
    (w : World) : Outcome * World :=
  match pdf_files with
  | [] => (Returned, w)
  | pdf_file :: rest =>
      match process_single_pdf_fast env pdf_file output_dir w with
      | (Returned, w') => process_all env rest output_dir w'
      | (SystemExit code, w') => (SystemExit code, w')
      end
  end.

(** [main], with the exit status of the process. *)
Definition main (env : Env) (w : World) : Z * World :=
  let input_dir := "/app/input"%string in
  let output_dir := "/app/output"%string in
  match glob_pdf env input_dir with
  | [] => (0%Z, logged Warning_no_pdfs w)
  | pdf_files =>
      let w := logged (Info_batch (length pdf_files) (get_cpu_cores env)) w in
      match process_all env pdf_files output_dir w with
      | (Returned, w') => (0%Z, logged Info_total w')
      | (SystemExit code, w') => (code, w')
      end
  end.

(** * Specification-level notions *)

(** ** Geometry *)

(** The cached area is the one [__init__] computes. *)
Definition constructed (b : BoundingBox) : Prop :=
  area b == (x2 b - x1 b) * (y2 b - y1 b).

(** The rectangles do not intersect: one lies entirely to one side of the
    other (touching edges count as not intersecting). *)
Definition rect_disjoint (a b : BoundingBox) : Prop :=
  x2 a <= x1 b \/ x2 b <= x1 a \/ y2 a <= y1 b \/ y2 b <= y1 a.

Definition intersection_area (a b : BoundingBox) : Q :=
  Qmax 0 (Qmin (x2 a) (x2 b) - Qmax (x1 a) (x1 b))
  * Qmax 0 (Qmin (y2 a) (y2 b) - Qmax (y1 a) (y1 b)).

Definition union_area (a b : BoundingBox) : Q :=
  area a + area b - intersection_area a b.

Definition same_rectangle (a b : BoundingBox) : Prop :=
  x1 a == x1 b /\ y1 a == y1 b /\ x2 a == x2 b /\ y2 a == y2 b.

Definition positive_area (a : BoundingBox) : Prop :=
  x1 a < x2 a /\ y1 a < y2 a.

(** The intersection area as the code computes it. *)
Definition code_intersection (box1 box2 : BoundingBox) : Q :=
  max2 0 (min2 (x2 box1) (x2 box2) - max2 (x1 box1) (x1 box2))
  * max2 0 (min2 (y2 box1) (y2 box2) - max2 (y1 box1) (y1 box2)).

(** The edge test that opens [calculate_iou_fast]. *)
Definition edges_apart (box1 box2 : BoundingBox) : bool :=
  Qle_bool (x2 box1) (x1 box2) || Qle_bool (x2 box2) (x1 box1)
  || Qle_bool (y2 box1) (y1 box2) || Qle_bool (y2 box2) (y1 box1).

(** The value [calculate_iou_fast] returns (it never raises, see
    [calculate_iou_fast_value]). *)
Definition iou_value (a b : BoundingBox) : Q :=
  match calculate_iou_fast a b with
  | Ok r => r
  | Raise _ => 0
  end.

(** ** Consensus clustering *)

(** The overlap ratio with the seed exceeds the threshold. *)
Definition overlaps (iou_threshold : Q) (seed b : BoundingBox) : bool :=
  Qltb iou_threshold (iou_value seed b).

(** Greedy single-pass clustering of the detections not yet marked: the
    first one seeds a cluster, every later one that [ov] relates to the seed
    joins it, and the scan resumes on the others.  A cluster is its seed
    with its other members in scan order. *)
Equations? greedy_clusters {A : Type} (ov : A -> A -> bool) (l : list A)
    : list (A * list A) by wf (length l) lt :=
  greedy_clusters ov [] := [];
  greedy_clusters ov (seed :: rest) :=
    (seed, List.filter (ov seed) rest)
      :: greedy_clusters ov (List.filter (fun x => negb (ov seed x)) rest).
Proof.
  simpl. clear greedy_clusters.
  induction rest as [|x rest IH]; simpl; [lia|].
  destruct (negb (ov seed x)); simpl; lia.
Qed.

Definition members {A : Type} (c : A * list A) : list A := c.1 :: c.2.

(** [r] sits in [l] at a position where [key] is maximal and before which
    [key] is strictly smaller: the first maximum. *)
Definition first_max {A : Type} (key : A -> Q) (l : list A) (r : A) : Prop :=
  exists k : nat,
    l !! k = Some r /\
    (forall j x, l !! j = Some x -> key x <= key r) /\
    (forall j x, (j < k)%nat -> l !! j = Some x -> key x < key r).

(** The index is not marked in [used]. *)
Definition unmarked (used : gset nat) (jb : nat * BoundingBox) : bool :=
  negb (bool_decide (jb.1 ∈ used)).

(** The test of the inner loop: unmarked and overlapping the seed. *)
Definition joins (iou_threshold : Q) (box1 : BoundingBox) (used : gset nat)
    (jb : nat * BoundingBox) : bool :=
  unmarked used jb && overlaps iou_threshold box1 jb.2.

(** [overlaps] on detections paired with their index. *)
Definition overlaps_at (iou_threshold : Q) (x y : nat * BoundingBox) : bool :=
  overlaps iou_threshold x.2 y.2.

(** The member the code keeps for a cluster. *)
Definition representative (c : BoundingBox * list BoundingBox) : BoundingBox :=
  max_from confidence c.1 c.2.

Definition unindexed (c : (nat * BoundingBox) * list (nat * BoundingBox))
    : BoundingBox * list BoundingBox :=
  (c.1.2, c.2.*2).

(** The clusters of a page, each member with its index in [all_boxes]. *)
Definition voting_clusters (iou_threshold : Q) (all_boxes : list BoundingBox)
    : list (list (nat * BoundingBox)) :=
  members <$>
    greedy_clusters (overlaps_at iou_threshold) (enumerate all_boxes 0).

(** ** Dispatcher *)

(** The tag [(page_idx, ocr_name)] of a completion. *)
Definition tag_of {V : Type} (c : nat * string * V) : nat * string := c.1.

(** [collect_step] on the mappings the dictionaries denote. *)
Definition route {V : Type} (m : gmap nat (gmap string V)) (c : nat * string * V)
    : gmap nat (gmap string V) :=
  <[c.1.1 := <[c.1.2 := c.2]> (default ∅ (m !! c.1.1))]> m.

(** The entry of a nested mapping under a tag. *)
Definition routed {V : Type} (m : gmap nat (gmap string V)) (t : nat * string)
    : option V :=
  m !! t.1 ≫= fun inner => inner !! t.2.

(** The completions of the submitted jobs, in submission order, when the
    job [j] returns [result j]. *)
Definition completed {V : Type} (result : nat * string * bytes -> V)
    (page_bytes_list : list bytes) : list (nat * string * V) :=
  (fun job => (job.1.1, job.1.2, result job)) <$> submitted page_bytes_list.

(** ** Outline *)

(** The text ends with a period. *)
Definition ends_with_period (t : string) : Prop :=
  exists s : string, t = (s ++ ".")%string.

(** The number of space characters of the text. *)
Definition spaces (t : string) : nat :=
  length (List.filter (fun c => Ascii.eqb c " "%char) (list_ascii_of_string t)).

(** A heading candidate: 3 to 120 characters, no final period, at most 10
    spaces. *)
Definition heading_candidate (b : BoundingBox) : Prop :=
  (3 <= String.length (text b) <= 120)%nat /\
  ~ ends_with_period (text b) /\
  (spaces (text b) <= 10)%nat.

Definition heading_candidateb (b : BoundingBox) : bool :=
  (3 <=? String.length (text b))%nat && (String.length (text b) <=? 120)%nat
  && negb (endswith (text b) "."%char) && (count (text b) " "%char <=? 10)%nat.

(** The two thresholds, when some detection has more than two characters. *)
Definition thresholds (all_boxes_with_page : list (nat * BoundingBox)) : option (Q * Q) :=
  match all_font_sizes all_boxes_with_page with
  | [] => None
  | sizes =>
      match median_size sizes with
      | Ok median => Some (median * h1_factor, median * h2_factor)
      | Raise _ => None
      end
  end.

(** The entry of a detection that is emitted: H1 from the H1 threshold on,
    H2 below it. *)
Definition entry_of (h1_threshold : Q) (pb : nat * BoundingBox) : OutlineEntry :=
  {| level := if Qle_bool h1_threshold (font_size pb.2) then H1 else H2;
     entry_text := text pb.2;
     page := pb.1 |}.

(** A detection that is emitted: not the title object, a heading candidate,
    and at least as large as the H2 threshold. *)
Definition emitted (tb : option BoundingBox) (h2_threshold : Q)
    (pb : nat * BoundingBox) : bool :=
  negb (is_title pb.2 tb) && heading_candidateb pb.2
  && Qle_bool h2_threshold (font_size pb.2).

(** ** Adapters *)

(** [b] is built from row [i] of the Tesseract table, which passes the
    admission filter. *)
Definition tesseract_detection (data : TessData) (b : BoundingBox) : Prop :=
  exists (i : nat) (c x y w h : Z),
    tess_conf data !! i = Some c /\ tess_left data !! i = Some x /\
    tess_top data !! i = Some y /\ tess_width data !! i = Some w /\
    tess_height data !! i = Some h /\
    (30 < c)%Z /\
    x1 b = inject_Z x /\ y1 b = inject_Z y /\
    x2 b = inject_Z (x + w) /\ y2 b = inject_Z (y + h) /\
    area b = (inject_Z (x + w) - inject_Z x) * (inject_Z (y + h) - inject_Z y) /\
    confidence b = inject_Z c / 100 /\
    font_size b = max2 8 (inject_Z h * (8 # 10)).

(** [b] is built from an EasyOCR result that passes the admission filter. *)
Definition easyocr_detection (results : list EasyItem) (b : BoundingBox) : Prop :=
  exists (it : EasyItem) (bx1 by1 bx2 by2 : Q),
    it ∈ results /\ 4 # 10 < easy_conf it /\
    min_list (easy_coords it).*1 = Ok bx1 /\ max_list (easy_coords it).*1 = Ok bx2 /\
    min_list (easy_coords it).*2 = Ok by1 /\ max_list (easy_coords it).*2 = Ok by2 /\
    x1 b = bx1 /\ y1 b = by1 /\ x2 b = bx2 /\ y2 b = by2 /\
    area b = (bx2 - bx1) * (by2 - by1) /\
    confidence b = easy_conf it /\
    font_size b = max2 8 ((by2 - by1) * (8 # 10)).

(** A Tesseract table with one word of width and height zero. *)
Definition tess_flat : TessData :=
  {| tess_text := ["ab"%string]; tess_conf := [90%Z]; tess_left := [5%Z];
     tess_top := [7%Z]; tess_width := [0%Z]; tess_height := [0%Z] |}.

(** An EasyOCR result whose four corners coincide. *)
Definition easy_flat : EasyItem :=
  {| easy_coords := [(3, 4); (3, 4); (3, 4); (3, 4)];
     easy_text := "ab"; easy_conf := 9 # 10 |}.

(** A Tesseract table with one word of positive width and height. *)
Definition tess_word : TessData :=
  {| tess_text := [" Intro "%string]; tess_conf := [90%Z]; tess_left := [5%Z];
     tess_top := [7%Z]; tess_width := [60%Z]; tess_height := [20%Z] |}.

Definition easy_word : EasyItem :=
  {| easy_coords := [(5, 7); (65, 7); (65, 27); (5, 27)];
     easy_text := "Intro"; easy_conf := 9 # 10 |}.

(** ** Driver *)

Definition broken_pdf : Path :=
  {| parent := "/app/input"; stem := "broken"; suffix := ".pdf" |}.

Definition empty_world : World := {| files := []; log := []; heap_next := 0 |}.

(** An environment whose renderer cannot open any document. *)
Definition env_unreadable : Env :=
  {| fitz_pages := fun _ => Raise (ExternalError "cannot open document");
     image_to_data := fun _ => Raise (ExternalError "no image");
     easyocr_reader := None;
     as_completed := fun jobs => jobs;
     open_w := fun _ => Ok tt;
     cpu_count := 4;
     glob_pdf := fun _ => [broken_pdf] |}.

(** An environment whose documents have one page without text and whose
    output directory cannot be written. *)
Definition env_read_only : Env :=
  {| fitz_pages := fun _ => Ok [[]];
     image_to_data := fun _ => Raise (ExternalError "no image");
     easyocr_reader := None;
     as_completed := fun jobs => jobs;
     open_w := fun _ => Raise (ExternalError "permission denied");
     cpu_count := 4;
     glob_pdf := fun _ => [broken_pdf] |}.

(** ** Concrete inputs *)

(** Three boxes: [box_B] is apart from [box_A], [box_C] is its upper half. *)
Definition box_A : BoundingBox := BoundingBox_init 1 0 0 10 10 "A" 1 10.
Definition box_B : BoundingBox := BoundingBox_init 2 20 20 30 30 "B" 1 10.
Definition box_C : BoundingBox := BoundingBox_init 3 0 0 10 5 "C" 1 10.

(** The three detections of the consensus scenario, spread over two
    engines. *)
Definition det_D1 : BoundingBox := BoundingBox_init 1 0 0 10 10 "Intro" (9 # 10) 12.
Definition det_D2 : BoundingBox := BoundingBox_init 2 0 0 10 5 "Intro" (95 # 100) 12.
Definition det_D3 : BoundingBox := BoundingBox_init 3 20 20 30 30 "Body" (3 # 10) 9.

Definition page_D : pydict string (list BoundingBox) :=
  [("tesseract"%string, [det_D1; det_D3]); ("easyocr"%string, [det_D2])].

(** A document: the title on page 0, headings, a sentence and body text on
    the next pages, and on page 2 a second object with the text and the font
    size of the title. *)
Definition doc_title : BoundingBox := BoundingBox_init 1 40 10 400 40 "Report Title" (9 # 10) 24.
Definition doc_chapter : BoundingBox := BoundingBox_init 2 40 10 300 33 "Chapter One" (9 # 10) 18.
Definition doc_section : BoundingBox := BoundingBox_init 3 40 50 300 68 "Section 1.1" (9 # 10) 14.
Definition doc_sentence : BoundingBox :=
  BoundingBox_init 4 40 80 500 105 "this is a long descriptive sentence." (9 # 10) 20.
Definition doc_body (o : nat) (y : Q) : BoundingBox :=
  BoundingBox_init o 40 y 500 (y + 12) "Lorem ipsum dolor" (8 # 10) 10.
Definition doc_title_copy : BoundingBox :=
  BoundingBox_init 10 40 10 400 40 "Report Title" (9 # 10) 24.

Definition doc_boxes : list (nat * BoundingBox) :=
  [(0%nat, doc_title);
   (1%nat, doc_section); (1%nat, doc_chapter); (1%nat, doc_sentence);
   (1%nat, doc_body 5 120); (1%nat, doc_body 6 140); (1%nat, doc_body 7 160);
   (2%nat, doc_title_copy); (2%nat, doc_body 8 60); (2%nat, doc_body 9 80);
   (2%nat, doc_body 11 100); (2%nat, doc_body 12 120)].

(** ** Text *)

(** Every character of the string is white space. *)
Fixpoint all_space (s : string) : bool :=
  match s with
  | EmptyString => true
  | String c s' => is_space c && all_space s'
  end.

(** The string starts, resp. ends, with a white-space character. *)
Definition starts_space (s : string) : bool :=
  match s with
  | EmptyString => false
  | String c _ => is_space c
  end.

Fixpoint ends_space (s : string) : bool :=
  match s with
  | EmptyString => false
  | String c EmptyString => is_space c
  | String _ s' => ends_space s'
  end.

(** ** Adapters, row by row *)

Definition from_Ok {A : Type} (d : A) (r : result A) : A :=
  match r with
  | Ok a => a
  | Raise _ => d
  end.

(** The boxes built from the admitted elements of [l], the first one
    allocated at [next]. *)
Fixpoint number_boxes {A : Type} (mk : nat -> A -> BoundingBox) (next : nat)
    (l : list A) : list BoundingBox :=
  match l with
  | [] => []
  | x :: l' => mk next x :: number_boxes mk (S next) l'
  end.

(** Row [i] of the Tesseract table passes the admission filter. *)
Definition tess_admitted (data : TessData) (i : nat) : bool :=
  match tess_text data !! i, tess_conf data !! i with
  | Some t, Some c => (1 <? String.length (strip t))%nat && (30 <? c)%Z
  | _, _ => false
  end.

(** The box the adapter builds from row [i]. *)
Definition tess_box (data : TessData) (next : nat) (i : nat) : BoundingBox :=
  let t := default EmptyString (tess_text data !! i) in
  let c := default 0%Z (tess_conf data !! i) in
  let x := default 0%Z (tess_left data !! i) in
  let y := default 0%Z (tess_top data !! i) in
  let w := default 0%Z (tess_width data !! i) in
  let h := default 0%Z (tess_height data !! i) in
  BoundingBox_init next (inject_Z x) (inject_Z y) (inject_Z (x + w))
                   (inject_Z (y + h)) (strip t) (inject_Z c / 100)
                   (max2 8 (inject_Z h * (8 # 10))).

(** Row [i] has every cell the loop reads: a confidence, and the four
    geometry cells when the row is admitted. *)
Definition tess_row_ok (data : TessData) (i : nat) : Prop :=
  is_Some (tess_conf data !! i) /\
  (tess_admitted data i = true ->
   is_Some (tess_left data !! i) /\ is_Some (tess_top data !! i) /\
   is_Some (tess_width data !! i) /\ is_Some (tess_height data !! i)).

Definition easy_admitted (it : EasyItem) : bool :=
  Qltb (4 # 10) (easy_conf it) && (1 <? String.length (strip (easy_text it)))%nat.

Definition easy_box (next : nat) (it : EasyItem) : BoundingBox :=
  let bx1 := from_Ok 0 (min_list (easy_coords it).*1) in
  let by1 := from_Ok 0 (min_list (easy_coords it).*2) in
  let bx2 := from_Ok 0 (max_list (easy_coords it).*1) in
  let by2 := from_Ok 0 (max_list (easy_coords it).*2) in
  BoundingBox_init next bx1 by1 bx2 by2 (easy_text it) (easy_conf it)
                   (max2 8 ((by2 - by1) * (8 # 10))).

(** A Tesseract table whose confidence column is one cell short. *)
Definition tess_ragged : TessData :=
  {| tess_text := ["Intro"%string; "Body"%string]; tess_conf := [90%Z];
     tess_left := [5%Z; 5%Z]; tess_top := [7%Z; 40%Z];
     tess_width := [60%Z; 80%Z]; tess_height := [20%Z; 12%Z] |}.

(** An admitted EasyOCR result without corner points. *)
Definition easy_no_corners : EasyItem :=
  {| easy_coords := []; easy_text := "Intro"; easy_conf := 9 # 10 |}.

(** The identities in the state of an adapter loop. *)
Definition numbered_from (alloc : nat) (st : list BoundingBox * nat) : Prop :=
  oid <$> st.1 = seq alloc (length st.1) /\ st.2 = (alloc + length st.1)%nat.

(** ** Outline, step by step *)

(** The decision of one pass of the classification loop. *)
Definition classify (tb : option BoundingBox) (h1_threshold h2_threshold : Q)
    (pb : nat * BoundingBox) : option OutlineEntry :=
  if is_title pb.2 tb then None
  else if negb (heading_candidateb pb.2) then None
  else if Qle_bool h1_threshold (font_size pb.2)
       then Some {| level := H1; entry_text := text pb.2; page := pb.1 |}
  else if Qle_bool h2_threshold (font_size pb.2)
       then Some {| level := H2; entry_text := text pb.2; page := pb.1 |}
  else None.

(** The order of the sort keys [(page_idx, box.y1)]. *)
Definition key_le (a b : nat * BoundingBox) : Prop :=
  (a.1 < b.1)%nat \/ (a.1 = b.1 /\ y1 a.2 <= y1 b.2).

(** ** Batch *)

(** Processing the document ends the process: it has pages and its output
    file cannot be opened. *)
Definition exits (env : Env) (output_dir : string) (pdf_path : Path) : Prop :=
  (exists pg pages, fitz_pages env pdf_path = Ok (pg :: pages)) /\
  (exists e, open_w env (output_path output_dir pdf_path) = Raise e).

(** An environment with a two-page document whose engines find nothing. *)
Definition env_blank : Env :=
  {| fitz_pages := fun _ => Ok [[]; []];
     image_to_data := fun _ => Raise (ExternalError "no image");
     easyocr_reader := None;
     as_completed := fun jobs => reverse jobs;
     open_w := fun _ => Ok tt;
     cpu_count := 4;
     glob_pdf := fun _ => [broken_pdf] |}.

(** Every list stored in the nested dictionary is empty. *)
Definition all_empty (d : pydict nat (pydict string (list BoundingBox))) : Prop :=
  Forall (fun pi => Forall (fun ev : string * list BoundingBox => ev.2 = []) pi.2) d.

(** ** Pipeline *)

(** The detections the consensus engine keeps for page [p]. *)
Definition page_consensus (d : pydict nat (pydict string (list BoundingBox)))
    (p : nat) : list BoundingBox :=
  representative <$>
    greedy_clusters (overlaps default_iou_threshold)
                    (concat (values (default [] (get d p)))).


(** The stored text is stripped and has more than one character. *)
Definition stripped_long (b : BoundingBox) : Prop :=
  strip (text b) = text b /\ (1 < String.length (text b))%nat.

(** The font sizes of the median example. *)
Definition sample_sizes : list Q := [8; 10; 10; 12; 30].

(** * Properties *)

(** ** Comparisons on numbers *)

Lemma Qle_bool_true a b : Qle_bool a b = true -> a <= b.
Proof. apply Qle_bool_iff. Qed.

Lemma Qle_bool_false a b : Qle_bool a b = false -> b < a.
Proof.
  intros H. apply Qnot_le_lt. intros Hle.
  apply Qle_bool_iff in Hle. congruence.
Qed.

Lemma Qltb_true a b : Qltb a b = true -> a < b.
Proof.
  unfold Qltb. intros H. apply negb_true_iff in H. by apply Qle_bool_false.
Qed.

Lemma Qltb_false a b : Qltb a b = false -> b <= a.
Proof.
  unfold Qltb. intros H. apply negb_false_iff in H. by apply Qle_bool_true.
Qed.

Lemma Qltb_lt a b : a < b -> Qltb a b = true.
Proof.
  intros H. destruct (Qltb a b) eqn:E; [done|].
  apply Qltb_false in E. lra.
Qed.

Lemma Qltb_ge a b : b <= a -> Qltb a b = false.
Proof.
  intros H. destruct (Qltb a b) eqn:E; [|done].
  apply Qltb_true in E. lra.
Qed.

Lemma Qeq_bool_true a b : Qeq_bool a b = true -> a == b.
Proof. apply Qeq_bool_iff. Qed.

Lemma Qeq_bool_false a b : Qeq_bool a b = false -> ~ a == b.
Proof. intros H Heq. apply Qeq_bool_iff in Heq. congruence. Qed.

(** Turns the boolean tests in the context into (in)equalities. *)
Ltac qprops :=
  repeat match goal with
  | H : Qle_bool _ _ = true |- _ => apply Qle_bool_true in H
  | H : Qle_bool _ _ = false |- _ => apply Qle_bool_false in H
  | H : Qltb _ _ = true |- _ => apply Qltb_true in H
  | H : Qltb _ _ = false |- _ => apply Qltb_false in H
  | H : Qeq_bool _ _ = true |- _ => apply Qeq_bool_true in H
  | H : Qeq_bool _ _ = false |- _ => apply Qeq_bool_false in H
  | H : _ || _ = false |- _ => apply orb_false_iff in H; destruct H
  end.

Lemma max2_spec a b : (a < b /\ max2 a b = b) \/ (b <= a /\ max2 a b = a).
Proof. unfold max2. destruct (Qltb a b) eqn:E; qprops; auto. Qed.

Lemma min2_spec a b : (b < a /\ min2 a b = b) \/ (a <= b /\ min2 a b = a).
Proof. unfold min2. destruct (Qltb b a) eqn:E; qprops; auto. Qed.

Lemma max2_Qmax a b : max2 a b == Qmax a b.
Proof.
  destruct (max2_spec a b) as [[H ->]|[H ->]];
    destruct (Q.max_spec a b) as [[H' ->]|[H' ->]]; lra.
Qed.

Lemma min2_Qmin a b : min2 a b == Qmin a b.
Proof.
  destruct (min2_spec a b) as [[H ->]|[H ->]];
    destruct (Q.min_spec a b) as [[H' ->]|[H' ->]]; lra.
Qed.

(** ** Overlap ratio *)

Lemma code_intersection_area a b : code_intersection a b == intersection_area a b.
Proof.
  unfold code_intersection, intersection_area.
  rewrite !max2_Qmax, !min2_Qmin. reflexivity.
Qed.

Lemma edges_apart_true a b : edges_apart a b = true -> rect_disjoint a b.
Proof.
  unfold edges_apart, rect_disjoint. intros H.
  repeat (apply orb_true_iff in H; destruct H as [H|H]);
    apply Qle_bool_true in H; auto.
Qed.

Lemma edges_apart_false a b : edges_apart a b = false -> ~ rect_disjoint a b.
Proof.
  unfold edges_apart, rect_disjoint. intros H. qprops. lra.
Qed.

(** The control flow of [calculate_iou_fast], with the division resolved:
    it is only reached with a positive divisor. *)
Lemma calculate_iou_fast_unfold a b :
  calculate_iou_fast a b =
    if edges_apart a b then Ok 0
    else if Qeq_bool (code_intersection a b) 0 then Ok 0
    else if Qltb 0 (area a + area b - code_intersection a b)
         then Ok (code_intersection a b / (area a + area b - code_intersection a b))
         else Ok 0.
Proof.
  unfold calculate_iou_fast. fold (edges_apart a b).
  destruct (edges_apart a b); [done|]. cbv zeta. fold (code_intersection a b).
  destruct (Qeq_bool (code_intersection a b) 0); [done|].
  destruct (Qltb 0 _) eqn:E; [|done].
  unfold truediv. destruct (Qeq_bool _ 0) eqn:E0; [|done].
  qprops. lra.
Qed.

Lemma calculate_iou_fast_value a b : calculate_iou_fast a b = Ok (iou_value a b).
Proof.
  unfold iou_value. rewrite calculate_iou_fast_unfold.
  repeat case_match; done.
Qed.

(** A positive intersection lies inside both rectangles. *)
Lemma code_intersection_bounds a b :
  constructed a -> constructed b ->
  0 <= code_intersection a b /\
  (~ code_intersection a b == 0 ->
     0 < code_intersection a b /\
     code_intersection a b <= area a /\ code_intersection a b <= area b).
Proof.
  unfold constructed, code_intersection. intros Ha Hb.
  destruct (max2_spec (x1 a) (x1 b)) as [[? ->]|[? ->]];
  destruct (min2_spec (x2 a) (x2 b)) as [[? ->]|[? ->]];
  destruct (max2_spec (y1 a) (y1 b)) as [[? ->]|[? ->]];
  destruct (min2_spec (y2 a) (y2 b)) as [[? ->]|[? ->]];
  match goal with |- context [max2 0 ?w * max2 0 ?h] =>
    destruct (max2_spec 0 w) as [[? ->]|[? ->]];
    destruct (max2_spec 0 h) as [[? ->]|[? ->]]
  end;
  (split; [nra|]); intros Hne; try (exfalso; apply Hne; ring);
  rewrite Ha, Hb; (split; [nra|]); split; nra.
Qed.

Lemma Qeq_bool_compat a b c : a == b -> Qeq_bool a c = Qeq_bool b c.
Proof.
  intros H. destruct (Qeq_bool a c) eqn:Ea, (Qeq_bool b c) eqn:Eb; qprops;
    try done; exfalso; [apply Eb | apply Ea]; lra.
Qed.

Lemma Qltb_compat a b c d : a == b -> c == d -> Qltb a c = Qltb b d.
Proof.
  intros H1 H2. destruct (Qltb a c) eqn:Ea, (Qltb b d) eqn:Eb; qprops;
    try done; lra.
Qed.

Lemma edges_apart_sym a b : edges_apart a b = edges_apart b a.
Proof. unfold edges_apart. repeat destruct (Qle_bool _ _); done. Qed.

Lemma code_intersection_sym a b : code_intersection a b == code_intersection b a.
Proof.
  rewrite !code_intersection_area. unfold intersection_area.
  rewrite (Q.max_comm (x1 a)), (Q.max_comm (y1 a)),
          (Q.min_comm (x2 a)), (Q.min_comm (y2 a)).
  reflexivity.
Qed.

Lemma iou_value_unfold a b :
  iou_value a b =
    if edges_apart a b then 0
    else if Qeq_bool (code_intersection a b) 0 then 0
    else if Qltb 0 (area a + area b - code_intersection a b)
         then code_intersection a b / (area a + area b - code_intersection a b)
         else 0.
Proof.
  unfold iou_value. rewrite calculate_iou_fast_unfold.
  destruct (edges_apart a b); [done|].
  destruct (Qeq_bool _ 0); [done|].
  destruct (Qltb 0 _); done.
Qed.

Lemma iou_value_sym a b : iou_value a b == iou_value b a.
Proof.
  rewrite !iou_value_unfold, (edges_apart_sym b a).
  destruct (edges_apart a b); [reflexivity|].
  pose proof (code_intersection_sym a b) as Hi.
  rewrite (Qeq_bool_compat _ _ 0 Hi).
  destruct (Qeq_bool (code_intersection b a) 0); [reflexivity|].
  assert (Hu : area a + area b - code_intersection a b
               == area b + area a - code_intersection b a) by lra.
  rewrite (Qltb_compat 0 0 _ _ (Qeq_refl 0) Hu).
  destruct (Qltb 0 _); [|reflexivity].
  rewrite Hu, Hi. reflexivity.
Qed.

(** The overlap ratio of two constructed boxes, against the intersection
    and union areas. *)
Lemma iou_value_constructed a b :
  constructed a -> constructed b ->
  0 <= iou_value a b <= 1 /\
  (rect_disjoint a b -> iou_value a b == 0) /\
  (~ rect_disjoint a b ->
     iou_value a b == intersection_area a b / union_area a b) /\
  (0 < intersection_area a b -> 0 < union_area a b).
Proof.
  intros Ha Hb.
  destruct (code_intersection_bounds a b Ha Hb) as [H0 Hpos].
  pose proof (code_intersection_area a b) as Hi.
  assert (Hgap : 0 < intersection_area a b -> 0 < union_area a b).
  { intros Hp. unfold union_area. destruct Hpos as (? & ? & ?); lra. }
  rewrite iou_value_unfold.
  destruct (edges_apart a b) eqn:Ee.
  { apply edges_apart_true in Ee. repeat split; try lra; done. }
  apply edges_apart_false in Ee.
  destruct (Qeq_bool (code_intersection a b) 0) eqn:Ez; qprops.
  { repeat split; try lra; try done.
    intros _. rewrite <- Hi, Ez. unfold Qdiv. ring. }
  destruct (Hpos Ez) as (Hp & Hia & Hib).
  rewrite Qltb_lt by lra.
  assert (Hu : 0 < area a + area b - code_intersection a b) by lra.
  repeat split; try done.
  - apply Qle_shift_div_l; lra.
  - apply Qle_shift_div_r; lra.
  - unfold union_area. rewrite Hi. reflexivity.
Qed.

Lemma intersection_area_same a b :
  same_rectangle a b -> positive_area a -> constructed a ->
  intersection_area a b == area a.
Proof.
  intros (Hx1 & Hy1 & Hx2 & Hy2) [Hx Hy] Ha. unfold intersection_area.
  rewrite (Q.min_l (x2 a)), (Q.max_l (x1 a)), (Q.min_l (y2 a)), (Q.max_l (y1 a))
    by lra.
  rewrite !Q.max_r by lra. symmetry. exact Ha.
Qed.

(** C3: on two boxes whose area slot is the one the constructor caches,
    [calculate_iou_fast] returns a number and never raises; that number lies
    in [0, 1], is 0 when the rectangles do not intersect, is the
    intersection area over the union area otherwise (the union being
    positive whenever the intersection is), is 1 for two copies of one
    rectangle of positive area, and is 0 when the union area is zero. *)
Theorem overlap_ratio_contract (a b : BoundingBox) :
  constructed a -> constructed b ->
  exists r : Q,
    calculate_iou_fast a b = Ok r /\
    0 <= r <= 1 /\
    (rect_disjoint a b -> r == 0) /\
    (~ rect_disjoint a b -> r == intersection_area a b / union_area a b) /\
    (0 < intersection_area a b -> 0 < union_area a b) /\
    (same_rectangle a b -> positive_area a -> r == 1) /\
    (union_area a b == 0 -> r == 0).
Proof.
  intros Ha Hb. exists (iou_value a b).
  destruct (iou_value_constructed a b Ha Hb) as (Hr & Hd & Hn & Hu).
  split; [apply calculate_iou_fast_value|].
  do 4 (split; [done|]). split.
  - intros Hs Hp.
    assert (~ rect_disjoint a b) as Hnd.
    { destruct Hs as (? & ? & ? & ?), Hp. unfold rect_disjoint. lra. }
    pose proof (intersection_area_same a b Hs Hp Ha) as Hi.
    assert (area b == area a) as Hab.
    { destruct Hs as (E1 & E2 & E3 & E4). unfold constructed in *.
      rewrite Ha, Hb, E1, E2, E3, E4. reflexivity. }
    assert (0 < area a) as Hpos.
    { destruct Hp. unfold constructed in Ha. rewrite Ha. nra. }
    rewrite (Hn Hnd). unfold union_area. rewrite Hi, Hab.
    field. lra.
  - intros Hz. destruct (edges_apart a b) eqn:Ee.
    + apply Hd. by apply edges_apart_true.
    + rewrite (Hn (edges_apart_false _ _ Ee)), Hz.
      unfold Qdiv. change (/ 0) with 0. ring.
Qed.

Lemma overlap_ratio_contract_witness :
  exists r : Q,
    calculate_iou_fast box_A box_C = Ok r /\
    0 <= r <= 1 /\
    (rect_disjoint box_A box_C -> r == 0) /\
    (~ rect_disjoint box_A box_C ->
       r == intersection_area box_A box_C / union_area box_A box_C) /\
    (0 < intersection_area box_A box_C -> 0 < union_area box_A box_C) /\
    (same_rectangle box_A box_C -> positive_area box_A -> r == 1) /\
    (union_area box_A box_C == 0 -> r == 0).
Proof. apply (overlap_ratio_contract box_A box_C); reflexivity. Defined.

Example overlap_ratio_disjoint_boxes : calculate_iou_fast box_A box_B = Ok 0.
Proof. reflexivity. Qed.

Example overlap_ratio_identical_boxes : iou_value box_A box_A == 1.
Proof. reflexivity. Qed.

Example overlap_ratio_half : iou_value box_A box_C == 1 # 2.
Proof. reflexivity. Qed.

(** The [union > 0] guard, on boxes whose area slot holds any value: a union
    that is not positive gives 0, not [ZeroDivisionError]. *)
Lemma overlap_ratio_union_guard a b :
  area a + area b - code_intersection a b <= 0 -> calculate_iou_fast a b = Ok 0.
Proof.
  intros H. rewrite calculate_iou_fast_unfold.
  destruct (edges_apart a b); [done|].
  destruct (Qeq_bool _ 0); [done|].
  by rewrite Qltb_ge.
Qed.

(** C4: [calculate_iou_fast] is symmetric: on any two boxes both orders
    return a number, and the two numbers are equal. *)
Theorem overlap_ratio_symmetric (a b : BoundingBox) :
  exists r r' : Q,
    calculate_iou_fast a b = Ok r /\ calculate_iou_fast b a = Ok r' /\ r == r'.
Proof.
  exists (iou_value a b), (iou_value b a).
  rewrite !calculate_iou_fast_value. auto using iou_value_sym.
Qed.

(** ** Ensemble voting *)

Lemma enumerate_fst {A} (l : list A) k : (enumerate l k).*1 = seq k (length l).
Proof. revert k. induction l as [|x l IH]; intros k; simpl; [done|]. by rewrite IH. Qed.

Lemma enumerate_snd {A} (l : list A) k : (enumerate l k).*2 = l.
Proof. revert k. induction l as [|x l IH]; intros k; simpl; [done|]. by rewrite IH. Qed.

Lemma enumerate_NoDup {A} (l : list A) k : NoDup (enumerate l k).*1.
Proof. rewrite enumerate_fst. apply NoDup_seq. Qed.

Lemma enumerate_index_ge {A} (l : list A) k j x :
  (j, x) ∈ enumerate l k -> (k <= j)%nat.
Proof.
  intros H. assert (j ∈ (enumerate l k).*1) as Hj.
  { apply list_elem_of_fmap. by exists (j, x). }
  rewrite enumerate_fst in Hj. apply elem_of_seq in Hj. lia.
Qed.

Lemma filter_filter_andb {A} (f g : A -> bool) (l : list A) :
  List.filter f (List.filter g l) = List.filter (fun x => g x && f x) l.
Proof.
  induction l as [|x l IH]; simpl; [done|].
  destruct (g x); simpl; [destruct (f x)|]; by rewrite IH.
Qed.

Lemma filter_ext_elem {A} (f g : A -> bool) (l : list A) :
  (forall x, x ∈ l -> f x = g x) -> List.filter f l = List.filter g l.
Proof.
  intros H. apply filter_ext_in. intros x Hx. apply H. by apply list_elem_of_In.
Qed.

Lemma elem_of_filter_bool {A} (f : A -> bool) (l : list A) x :
  x ∈ List.filter f l <-> x ∈ l /\ f x = true.
Proof. rewrite !list_elem_of_In. apply filter_In. Qed.

Lemma unmarked_true U jb : unmarked U jb = true <-> jb.1 ∉ U.
Proof.
  unfold unmarked. rewrite negb_true_iff, bool_decide_eq_false. done.
Qed.

Lemma for_each_cons {A S} (body : S -> A -> result S) s x l :
  for_each body s (x :: l) = body s x ≫= fun s' => for_each body s' l.
Proof. reflexivity. Qed.

Lemma bind_Ok {A B} (a : A) (f : A -> result B) : Ok a ≫= f = f a.
Proof. reflexivity. Qed.

Lemma filter_cons_bool {A} (f : A -> bool) x l :
  List.filter f (x :: l) = if f x then x :: List.filter f l else List.filter f l.
Proof. reflexivity. Qed.

Lemma voting_inner_step thr box1 C U j b :
  voting_inner thr box1 (C, U) (j, b)
  = Ok (if joins thr box1 U (j, b) then (C ++ [b], U ∪ {[j]}) else (C, U)).
Proof.
  unfold voting_inner, joins, unmarked. simpl.
  destruct (decide (j ∈ U)) as [Hin|Hout].
  - by rewrite (bool_decide_eq_true_2 _ Hin).
  - rewrite (bool_decide_eq_false_2 _ Hout), calculate_iou_fast_value. simpl.
    unfold overlaps. by destruct (Qltb thr (iou_value box1 b)).
Qed.

(** The inner loop: the cluster gains, in scan order, the unmarked
    detections that overlap the seed, and exactly their indices are marked. *)
Lemma voting_inner_loop thr box1 (jl : list (nat * BoundingBox)) :
  NoDup jl.*1 ->
  forall C U,
    for_each (voting_inner thr box1) (C, U) jl
    = Ok (C ++ (List.filter (joins thr box1 U) jl).*2,
          U ∪ list_to_set (List.filter (joins thr box1 U) jl).*1).
Proof.
  induction jl as [|[j b] jl IH]; intros Hnd C U.
  { simpl. by rewrite app_nil_r, (right_id_L ∅ (∪)). }
  rewrite fmap_cons in Hnd. apply NoDup_cons in Hnd as [Hj Hnd]. simpl in Hj.
  rewrite for_each_cons, voting_inner_step, bind_Ok, filter_cons_bool.
  destruct (joins thr box1 U (j, b)) eqn:E; [|by apply IH].
  rewrite IH by done.
  assert (List.filter (joins thr box1 (U ∪ {[j]})) jl
          = List.filter (joins thr box1 U) jl) as ->.
  { apply filter_ext_elem. intros [j' b'] Hin'. unfold joins, unmarked. simpl.
    assert (j' ≠ j).
    { intros ->. apply Hj. apply list_elem_of_fmap. by exists (j, b'). }
    f_equal. f_equal. apply bool_decide_ext.
    rewrite elem_of_union, elem_of_singleton. tauto. }
  rewrite !fmap_cons, list_to_set_cons. simpl. f_equal. f_equal.
  - by rewrite <- app_assoc.
  - by rewrite (assoc_L (∪)).
Qed.

Lemma elem_of_enumerate {A} (l : list A) k j x :
  (j, x) ∈ enumerate l k <-> (k <= j)%nat /\ l !! (j - k)%nat = Some x.
Proof.
  revert k. induction l as [|y l IH]; intros k; simpl.
  { rewrite elem_of_nil. naive_solver. }
  rewrite elem_of_cons, IH. split.
  - intros [[= -> ->]|[Hle Hl]].
    + by rewrite Nat.sub_diag.
    + split; [lia|]. by replace (j - k)%nat with (S (j - S k)) by lia.
  - intros [Hle Hl]. destruct (decide (j = k)) as [->|Hne].
    + rewrite Nat.sub_diag in Hl. left. naive_solver.
    + right. split; [lia|].
      by replace (j - k)%nat with (S (j - S k)) in Hl by lia.
Qed.

Lemma enumerate_functional {A} (l : list A) k j x y :
  (j, x) ∈ enumerate l k -> (j, y) ∈ enumerate l k -> x = y.
Proof. rewrite !elem_of_enumerate. naive_solver. Qed.

Lemma max_by_cons {A} (key : A -> Q) x l : max_by key (x :: l) = Ok (max_from key x l).
Proof. reflexivity. Qed.

(** One pass of the outer loop at index [length pre], where the tail of
    [all_boxes] is [suf]. *)
Lemma voting_outer_step thr pre b suf F U :
  let i := length pre in
  let X := List.filter (joins thr b (U ∪ {[i]})) (enumerate suf (S i)) in
  voting_outer thr (pre ++ b :: suf) (F, U) (i, b)
  = Ok (if unmarked U (i, b)
        then (F ++ [max_from confidence b X.*2], U ∪ {[i]} ∪ list_to_set X.*1)
        else (F, U)).
Proof.
  intros i X. unfold voting_outer, unmarked. simpl.
  destruct (decide (i ∈ U)) as [Hin|Hout].
  { by rewrite (bool_decide_eq_true_2 _ Hin). }
  rewrite (bool_decide_eq_false_2 _ Hout). simpl.
  unfold voting_cluster.
  replace (drop (S i) (pre ++ b :: suf)) with suf.
  2:{ unfold i. replace (S (length pre)) with (length pre + 1)%nat by lia.
      by rewrite <- drop_drop, drop_app_length. }
  rewrite voting_inner_loop by apply enumerate_NoDup.
  rewrite bind_Ok. fold X. simpl. done.
Qed.

(** At the seed [(i, b)] the inner test is the overlap test on the
    detections still unmarked. *)
Lemma joins_seed thr b U i (E : list (nat * BoundingBox)) :
  (forall j x, (j, x) ∈ E -> j ≠ i) ->
  List.filter (joins thr b (U ∪ {[i]})) E
  = List.filter (overlaps_at thr (i, b)) (List.filter (unmarked U) E).
Proof.
  intros Hfresh. rewrite filter_filter_andb. apply filter_ext_elem.
  intros [j x] Hin. unfold joins, unmarked, overlaps_at. simpl.
  f_equal. f_equal. apply bool_decide_ext.
  rewrite elem_of_union, elem_of_singleton. specialize (Hfresh j x Hin). tauto.
Qed.

(** After the cluster is closed, the unmarked detections of the tail are
    those that were unmarked and do not overlap the seed. *)
Lemma unmarked_after_cluster thr b U i suf :
  let E := enumerate suf (S i) in
  let X := List.filter (joins thr b (U ∪ {[i]})) E in
  List.filter (unmarked (U ∪ {[i]} ∪ list_to_set X.*1)) E
  = List.filter (fun x => negb (overlaps_at thr (i, b) x)) (List.filter (unmarked U) E).
Proof.
  intros E X. rewrite filter_filter_andb. apply filter_ext_elem.
  intros [j x] Hin.
  assert (j ≠ i) as Hne by (apply enumerate_index_ge in Hin; lia).
  assert (j ∈ (list_to_set X.*1 : gset nat) <-> joins thr b (U ∪ {[i]}) (j, x) = true)
    as HX.
  { rewrite elem_of_list_to_set, list_elem_of_fmap. split.
    - intros ([j' x'] & -> & Hx'). apply elem_of_filter_bool in Hx' as [Hx' Hj].
      simpl in *. by rewrite (enumerate_functional _ _ _ _ _ Hin Hx').
    - intros Hj. exists (j, x). split; [done|]. by apply elem_of_filter_bool. }
  unfold joins, unmarked, overlaps_at in *. simpl in *.
  destruct (overlaps thr b x); simpl in *.
  - rewrite andb_false_r. apply negb_false_iff, bool_decide_eq_true.
    destruct (decide (j ∈ U)) as [?|Hout].
    + rewrite !elem_of_union. auto.
    + apply elem_of_union_r, HX. rewrite andb_true_r.
      apply negb_true_iff, bool_decide_eq_false.
      rewrite elem_of_union, elem_of_singleton. tauto.
  - rewrite andb_true_r. f_equal. apply bool_decide_ext.
    rewrite andb_false_r in HX.
    rewrite !elem_of_union, elem_of_singleton, HX. intuition congruence.
Qed.

(** The outer loop from index [length pre] on: one representative per
    greedy cluster of the detections still unmarked, in the order the
    clusters are closed. *)
Lemma voting_outer_loop thr all_boxes suf :
  forall pre F U,
    all_boxes = pre ++ suf ->
    exists U',
      for_each (voting_outer thr all_boxes) (F, U) (enumerate suf (length pre))
      = Ok (F ++ ((fun c => representative (unindexed c)) <$>
                    greedy_clusters (overlaps_at thr)
                      (List.filter (unmarked U) (enumerate suf (length pre)))),
            U').
Proof.
  induction suf as [|b suf IH]; intros pre F U ->.
  { exists U. simpl. simp greedy_clusters. by rewrite app_nil_r. }
  cbn [enumerate]. rewrite for_each_cons, voting_outer_step, bind_Ok.
  rewrite filter_cons_bool.
  specialize (IH (pre ++ [b])). rewrite length_app in IH. simpl in IH.
  rewrite Nat.add_1_r in IH.
  destruct (unmarked U (length pre, b)) eqn:Eu.
  - edestruct IH as [U' ->]; [by rewrite <- app_assoc|]. exists U'.
    simp greedy_clusters. rewrite fmap_cons.
    rewrite unmarked_after_cluster, joins_seed.
    2:{ intros j x Hin. apply enumerate_index_ge in Hin. lia. }
    unfold representative at 2, unindexed at 2. simpl.
    by rewrite <- app_assoc.
  - edestruct IH as [U' ->]; [by rewrite <- app_assoc|]. by exists U'.
Qed.

Lemma filter_unmarked_empty (E : list (nat * BoundingBox)) :
  List.filter (unmarked ∅) E = E.
Proof.
  induction E as [|x E IH]; simpl; [done|].
  unfold unmarked at 1. rewrite bool_decide_eq_false_2 by apply not_elem_of_empty.
  simpl. by rewrite IH.
Qed.

(** [fast_ensemble_voting] never raises, and keeps one detection per greedy
    cluster of the flattened input. *)
Lemma fast_ensemble_voting_indexed ocr_results thr :
  fast_ensemble_voting ocr_results thr
  = Ok ((fun c => representative (unindexed c)) <$>
          greedy_clusters (overlaps_at thr) (enumerate (concat (values ocr_results)) 0)).
Proof.
  unfold fast_ensemble_voting.
  destruct (concat (values ocr_results)) as [|b l] eqn:E.
  { simpl. by simp greedy_clusters. }
  destruct (voting_outer_loop thr (b :: l) (b :: l) [] [] ∅ eq_refl) as [U' H].
  simpl length in H. rewrite H, bind_Ok, filter_unmarked_empty. done.
Qed.

Lemma fmap_filter_bool {A B} (f : A -> B) (g : B -> bool) (l : list A) :
  f <$> List.filter (fun x => g (f x)) l = List.filter g (f <$> l).
Proof.
  induction l as [|x l IH]; [done|].
  rewrite fmap_cons, !filter_cons_bool.
  destruct (g (f x)); [rewrite fmap_cons|]; by rewrite IH.
Qed.

Lemma filter_length_le {A} (f : A -> bool) (l : list A) :
  (length (List.filter f l) <= length l)%nat.
Proof. induction l as [|x l IH]; simpl; [lia|]. destruct (f x); simpl; lia. Qed.

(** Clustering commutes with a map that preserves the overlap test. *)
Lemma greedy_clusters_fmap {A B} (f : A -> B) (ov : B -> B -> bool)
    (ov' : A -> A -> bool) :
  (forall x y, ov' x y = ov (f x) (f y)) ->
  forall l : list A,
    greedy_clusters ov (f <$> l)
    = (fun c : A * list A => (f c.1, f <$> c.2)) <$> greedy_clusters ov' l.
Proof.
  intros Hov l. remember (length l) as n eqn:Hn.
  revert l Hn. induction n as [n IH] using lt_wf_ind. intros l Hn.
  destruct l as [|x l]; simpl; simp greedy_clusters; [done|].
  rewrite fmap_cons. simpl. f_equal.
  - f_equal. rewrite <- fmap_filter_bool. f_equal.
    apply filter_ext_elem. intros y _. symmetry. apply Hov.
  - rewrite <- (fmap_filter_bool f (fun y => negb (ov (f x) y))).
    rewrite (IH (length (List.filter (fun y => negb (ov (f x) (f y))) l))); [|simpl in Hn|done].
    + f_equal. f_equal. apply filter_ext_elem. intros y _. by rewrite Hov.
    + pose proof (filter_length_le (fun y => negb (ov (f x) (f y))) l). lia.
Qed.

Lemma greedy_clusters_unindexed thr l k :
  unindexed <$> greedy_clusters (overlaps_at thr) (enumerate l k)
  = greedy_clusters (overlaps thr) l.
Proof.
  rewrite <- (enumerate_snd l k) at 2.
  by rewrite (greedy_clusters_fmap snd (overlaps thr) (overlaps_at thr)).
Qed.

Lemma fast_ensemble_voting_greedy ocr_results thr :
  fast_ensemble_voting ocr_results thr
  = Ok (representative <$> greedy_clusters (overlaps thr) (concat (values ocr_results))).
Proof.
  rewrite fast_ensemble_voting_indexed, <- (greedy_clusters_unindexed thr _ 0).
  by rewrite <- list_fmap_compose.
Qed.

(** [max(..., key=...)] returns the first maximum. *)
Lemma max_from_first_max {A} (key : A -> Q) l :
  forall best, first_max key (best :: l) (max_from key best l).
Proof.
  induction l as [|y l IH]; intros best; simpl.
  { exists 0%nat. split; [done|]. split.
    - intros [|j] x; simpl; [intros [= ->]; lra | by rewrite lookup_nil].
    - intros j x Hj. lia. }
  destruct (Qltb (key best) (key y)) eqn:E; qprops.
  - destruct (IH y) as (k & Hk & Hall & Hbefore).
    assert (key y <= key (max_from key y l)) as Hy by (by apply (Hall 0%nat)).
    exists (S k). split; [done|]. split.
    + intros [|j] x; simpl; [intros [= ->]; lra | apply Hall].
    + intros [|j] x Hj; simpl; [intros [= ->]; lra|].
      apply Hbefore. lia.
  - destruct (IH best) as (k & Hk & Hall & Hbefore).
    assert (key best <= key (max_from key best l)) as Hb by (by apply (Hall 0%nat)).
    destruct k as [|k].
    + injection Hk as Hk. exists 0%nat. rewrite <- Hk in *. split; [done|]. split.
      * intros [|[|j]] x; simpl; [intros [= ->]; lra | intros [= ->]; lra |].
        intros Hx. by apply (Hall (S j)).
      * intros j x Hj. lia.
    + assert (key best < key (max_from key best l)) as Hlt
        by (apply (Hbefore 0%nat); [lia|done]).
      exists (S (S k)). split; [done|]. split.
      * intros [|[|j]] x; simpl; [intros [= ->]; lra | intros [= ->]; lra |].
        intros Hx. by apply (Hall (S j)).
      * intros [|[|j]] x Hj; simpl; [intros [= ->]; lra | intros [= ->]; lra |].
        intros Hx. apply (Hbefore (S j)); [lia|done].
Qed.

Lemma rect_disjoint_edges_apart a b : rect_disjoint a b -> edges_apart a b = true.
Proof.
  intros H. destruct (edges_apart a b) eqn:E; [done|].
  by apply edges_apart_false in E.
Qed.

Lemma rect_disjoint_sym a b : rect_disjoint a b -> rect_disjoint b a.
Proof. unfold rect_disjoint. tauto. Qed.

Lemma overlaps_disjoint thr a b : 0 <= thr -> rect_disjoint a b -> overlaps thr a b = false.
Proof.
  intros Hthr H. unfold overlaps. rewrite iou_value_unfold, rect_disjoint_edges_apart by done.
  by apply Qltb_ge.
Qed.

Lemma overlaps_sym thr a b : overlaps thr a b = overlaps thr b a.
Proof. unfold overlaps. apply Qltb_compat; [reflexivity | apply iou_value_sym]. Qed.

Lemma overlaps_spec thr a b :
  overlaps thr a b = true <-> exists r, calculate_iou_fast a b = Ok r /\ thr < r.
Proof.
  unfold overlaps. rewrite calculate_iou_fast_value. split.
  - intros H. apply Qltb_true in H. eauto.
  - intros (r & [= <-] & H). by apply Qltb_lt.
Qed.

Lemma Permutation_three {A} (a b c : A) l :
  l ≡ₚ [a; b; c] ->
  l = [a; b; c] \/ l = [a; c; b] \/ l = [b; a; c] \/ l = [b; c; a]
  \/ l = [c; a; b] \/ l = [c; b; a].
Proof.
  intros H. pose proof (Permutation_length H) as Hlen.
  destruct l as [|x [|y [|z [|]]]]; try done. clear Hlen.
  assert (x ∈ [a; b; c]) as Hx by (rewrite <- H; apply list_elem_of_here).
  assert (forall u v, [y; z] ≡ₚ [u; v] -> (y = u /\ z = v) \/ (y = v /\ z = u)) as H2.
  { intros u v Hp. apply Permutation_length_2_inv in Hp as [Hp|Hp];
      injection Hp as -> ->; auto. }
  rewrite !elem_of_cons, elem_of_nil in Hx. destruct Hx as [->|[->|[->|[]]]].
  - apply Permutation_cons_inv in H. destruct (H2 _ _ H) as [[-> ->]|[-> ->]]; auto.
  - apply (Permutation_cons_app_inv [a] [c]) in H.
    destruct (H2 _ _ H) as [[-> ->]|[-> ->]]; auto 10.
  - apply (Permutation_cons_app_inv [a; b] []) in H.
    destruct (H2 _ _ H) as [[-> ->]|[-> ->]]; auto 10.
Qed.

Lemma greedy_clusters_cons {A} (ov : A -> A -> bool) seed rest :
  greedy_clusters ov (seed :: rest)
  = (seed, List.filter (ov seed) rest)
      :: greedy_clusters ov (List.filter (fun x => negb (ov seed x)) rest).
Proof. by simp greedy_clusters. Qed.

Lemma greedy_clusters_nil {A} (ov : A -> A -> bool) : greedy_clusters ov [] = [].
Proof. by simp greedy_clusters. Qed.

(** The three-detection scenario, in any scan order. *)
Lemma consensus_three thr d1 d2 d3 l :
  0 <= thr ->
  confidence d1 < confidence d2 ->
  overlaps thr d1 d2 = true ->
  rect_disjoint d1 d3 -> rect_disjoint d2 d3 ->
  l ≡ₚ [d1; d2; d3] ->
  representative <$> greedy_clusters (overlaps thr) l ≡ₚ [d2; d3].
Proof.
  intros Hthr Hc H12 H13 H23 Hl.
  assert (overlaps thr d2 d1 = true) as H21 by (by rewrite overlaps_sym).
  pose proof (overlaps_disjoint thr _ _ Hthr H13) as O13.
  pose proof (overlaps_disjoint thr _ _ Hthr H23) as O23.
  pose proof (overlaps_disjoint thr _ _ Hthr (rect_disjoint_sym _ _ H13)) as O31.
  pose proof (overlaps_disjoint thr _ _ Hthr (rect_disjoint_sym _ _ H23)) as O32.
  assert (Qltb (confidence d1) (confidence d2) = true) as L12 by (by apply Qltb_lt).
  assert (Qltb (confidence d2) (confidence d1) = false) as L21 by (apply Qltb_ge; lra).
  destruct (Permutation_three _ _ _ _ Hl) as [->|[->|[->|[->|[->| ->]]]]];
    repeat (rewrite ?greedy_clusters_cons, ?greedy_clusters_nil;
            cbn [List.filter negb];
            rewrite ?H12, ?H21, ?O13, ?O23, ?O31, ?O32; cbn [negb]);
    cbn [fmap list_fmap representative fst snd max_from];
    rewrite ?L12, ?L21; try done; apply Permutation_swap.
Qed.

(** C1: the consensus engine flattens the per-engine lists in dictionary
    order and returns, without raising, one detection per greedy cluster of
    that list, in the order the clusters are closed: a cluster is seeded by
    the first detection not yet used and takes every later unused detection
    whose overlap ratio with the seed is strictly above 0.25; the detection
    returned for a cluster is its first member of maximal confidence.  For
    D1 (confidence 0.9), D2 (confidence 0.95, overlap ratio 0.5 with D1) and
    D3 (disjoint from both, confidence 0.3), whatever their order in the
    input, the output consists of D2 and D3. *)
Theorem consensus_engine_greedy (ocr_results : pydict string (list BoundingBox)) :
  (exists reps : list BoundingBox,
     fast_ensemble_voting ocr_results default_iou_threshold = Ok reps /\
     Forall2 (fun c r => first_max confidence (members c) r)
             (greedy_clusters (overlaps default_iou_threshold)
                              (concat (values ocr_results)))
             reps) /\
  (forall seed b : BoundingBox,
     overlaps default_iou_threshold seed b = true
     <-> exists r, calculate_iou_fast seed b = Ok r /\ 25 # 100 < r) /\
  (forall (d1 d2 d3 : BoundingBox) (r12 : Q),
     confidence d1 == 9 # 10 -> confidence d2 == 95 # 100 ->
     confidence d3 == 3 # 10 ->
     calculate_iou_fast d1 d2 = Ok r12 -> r12 == 1 # 2 ->
     rect_disjoint d1 d3 -> rect_disjoint d2 d3 ->
     concat (values ocr_results) ≡ₚ [d1; d2; d3] ->
     exists reps : list BoundingBox,
       fast_ensemble_voting ocr_results default_iou_threshold = Ok reps /\
       reps ≡ₚ [d2; d3]).
Proof.
  rewrite fast_ensemble_voting_greedy. split; [|split].
  - eexists. split; [done|].
    apply Forall2_fmap_r, Forall_Forall2_diag, Forall_forall.
    intros [seed others] _. apply max_from_first_max.
  - intros seed b. apply overlaps_spec.
  - intros d1 d2 d3 r12 H1 H2 H3 Hr Hr12 H13 H23 Hl.
    eexists. split; [done|].
    apply consensus_three with (d1 := d1); try done.
    + rewrite H1, H2. done.
    + apply overlaps_spec. exists r12. split; [done|].
      rewrite Hr12. done.
Qed.

Lemma consensus_engine_greedy_witness :
  exists reps : list BoundingBox,
    fast_ensemble_voting page_D default_iou_threshold = Ok reps /\
    reps ≡ₚ [det_D2; det_D3].
Proof.
  apply (proj2 (proj2 (consensus_engine_greedy page_D)) det_D1 det_D2 det_D3 (50 # 100));
    try reflexivity.
  - left. vm_compute. discriminate.
  - left. vm_compute. discriminate.
  - apply perm_skip, perm_swap.
Defined.

Example consensus_three_detections :
  fast_ensemble_voting page_D default_iou_threshold = Ok [det_D2; det_D3].
Proof. reflexivity. Qed.

Lemma filter_partition_perm {A} (f : A -> bool) (l : list A) :
  List.filter f l ++ List.filter (fun x => negb (f x)) l ≡ₚ l.
Proof.
  induction l as [|x l IH]; [done|].
  rewrite !filter_cons_bool. destruct (f x); simpl.
  - by rewrite IH.
  - by rewrite <- Permutation_middle, IH.
Qed.

(** The clusters partition the scanned list. *)
Lemma greedy_clusters_partition {A} (ov : A -> A -> bool) (l : list A) :
  concat (members <$> greedy_clusters ov l) ≡ₚ l.
Proof.
  remember (length l) as n eqn:Hn. revert l Hn.
  induction n as [n IH] using lt_wf_ind. intros l Hn.
  destruct l as [|x l]; [by rewrite greedy_clusters_nil|].
  rewrite greedy_clusters_cons, fmap_cons. simpl. apply perm_skip.
  rewrite (IH (length (List.filter (fun y => negb (ov x y)) l))); [| |done].
  - apply filter_partition_perm.
  - pose proof (filter_length_le (fun y => negb (ov x y)) l). simpl in Hn. lia.
Qed.

Lemma greedy_clusters_length {A} (ov : A -> A -> bool) (l : list A) :
  (length (greedy_clusters ov l) <= length l)%nat.
Proof.
  rewrite <- (greedy_clusters_partition ov l) at 2.
  induction (greedy_clusters ov l) as [|c cs IH]; [simpl; lia|].
  rewrite fmap_cons. cbn [concat length]. rewrite length_app.
  unfold members at 1. cbn [length]. lia.
Qed.

Lemma elem_of_concat {A} (x : A) (ls : list (list A)) :
  x ∈ concat ls <-> exists l, l ∈ ls /\ x ∈ l.
Proof.
  rewrite list_elem_of_In, in_concat. split; intros (l & H1 & H2); exists l;
    by rewrite ?list_elem_of_In in *.
Qed.

Lemma representative_member (c : (nat * BoundingBox) * list (nat * BoundingBox)) :
  exists i, (i, representative (unindexed c)) ∈ members c.
Proof.
  destruct (max_from_first_max confidence (unindexed c).2 (unindexed c).1)
    as (k & Hk & _).
  fold (representative (unindexed c)) in Hk.
  change ((unindexed c).1 :: (unindexed c).2) with (members c).*2 in Hk.
  apply list_lookup_fmap_Some in Hk as ([i b] & -> & Hk).
  exists i. by eapply list_elem_of_lookup_2.
Qed.

(** C10: every detection the consensus engine returns is the detection at
    some index of the flattened input, namely a member of its cluster; the
    clusters hold every input index exactly once, so no detection is
    assigned to two clusters; the output is no longer than the input and an
    empty input gives an empty output.  The function never raises. *)
Theorem consensus_output_from_input
    (ocr_results : pydict string (list BoundingBox)) (iou_threshold : Q) :
  let all_boxes := concat (values ocr_results) in
  let clusters := voting_clusters iou_threshold all_boxes in
  exists reps : list BoundingBox,
    fast_ensemble_voting ocr_results iou_threshold = Ok reps /\
    Forall2 (fun c r => exists i, (i, r) ∈ c /\ all_boxes !! i = Some r) clusters reps /\
    concat clusters ≡ₚ enumerate all_boxes 0 /\
    NoDup (concat clusters).*1 /\
    (forall r, r ∈ reps -> r ∈ all_boxes) /\
    (length reps <= length all_boxes)%nat /\
    (all_boxes = [] -> reps = []).
Proof.
  intros all_boxes clusters. rewrite fast_ensemble_voting_indexed.
  fold all_boxes. eexists. split; [done|].
  assert (concat clusters ≡ₚ enumerate all_boxes 0) as Hperm
    by apply greedy_clusters_partition.
  assert (forall c i r, c ∈ clusters -> (i, r) ∈ c -> all_boxes !! i = Some r) as Hidx.
  { intros c i r Hc Hr.
    assert ((i, r) ∈ enumerate all_boxes 0) as Hin.
    { rewrite <- Hperm. apply elem_of_concat. eauto. }
    apply elem_of_enumerate in Hin as [_ Hin]. by rewrite Nat.sub_0_r in Hin. }
  assert (Forall2 (fun c r => exists i, (i, r) ∈ c /\ all_boxes !! i = Some r) clusters
            ((fun c => representative (unindexed c)) <$>
               greedy_clusters (overlaps_at iou_threshold) (enumerate all_boxes 0)))
    as Hreps.
  { unfold clusters, voting_clusters in *.
    apply Forall2_fmap, Forall_Forall2_diag, Forall_forall. intros c Hc.
    destruct (representative_member c) as [i Hi]. exists i. split; [done|].
    apply (Hidx (members c)); [|done]. apply list_elem_of_fmap. eauto. }
  split; [done|]. split; [done|]. split; [|split; [|split]].
  - rewrite Hperm. apply enumerate_NoDup.
  - intros r Hr. apply list_elem_of_fmap in Hr as (c & -> & Hc).
    destruct (representative_member c) as [i Hi].
    eapply list_elem_of_lookup_2, (Hidx (members c)); [|done].
    apply list_elem_of_fmap. eauto.
  - rewrite length_fmap. etrans; [apply greedy_clusters_length|].
    assert (length (enumerate all_boxes 0).*2 = length all_boxes) as <-
      by (by rewrite enumerate_snd).
    by rewrite length_fmap.
  - intros ->. simpl. by rewrite greedy_clusters_nil.
Qed.

(** ** Dispatcher reassembly *)

Section Dict_facts.
Context {K V : Type} `{Countable K}.

Lemma list_to_map_setitem (d : pydict K V) k v :
  (list_to_map (setitem d k v) : gmap K V) = <[k := v]> (list_to_map d).
Proof.
  induction d as [|[k' v'] d IH]; simpl; [done|].
  destruct (decide (k' = k)) as [->|Hne]; simpl.
  - by rewrite insert_insert_eq.
  - by rewrite IH, insert_insert_ne.
Qed.

Lemma list_to_map_get (d : pydict K V) k :
  (list_to_map d : gmap K V) !! k = get d k.
Proof.
  induction d as [|[k' v'] d IH]; simpl; [done|].
  destruct (decide (k' = k)) as [->|Hne].
  - by rewrite lookup_insert_eq.
  - by rewrite lookup_insert_ne.
Qed.
End Dict_facts.

Lemma dict_to_map_collect_step {V} (d : pydict nat (pydict string V)) c :
  dict_to_map (collect_step d c) = route (dict_to_map d) c.
Proof.
  destruct c as [[p e] v]. unfold collect_step, route, dict_to_map. simpl.
  rewrite list_to_map_setitem, fmap_insert, list_to_map_setitem.
  rewrite lookup_fmap, list_to_map_get. destruct (get d p); reflexivity.
Qed.

Lemma dict_to_map_collect {V} (cs : list (nat * string * V)) :
  dict_to_map (collect cs) = foldl route ∅ cs.
Proof.
  unfold collect.
  assert (forall d, dict_to_map (foldl collect_step d cs)
                    = foldl route (dict_to_map d) cs) as Hgen.
  { induction cs as [|c cs IH]; intros d; simpl; [done|].
    by rewrite IH, dict_to_map_collect_step. }
  rewrite Hgen. done.
Qed.

(** Completions with different tags can be routed in either order. *)
Lemma route_commute {V} (m : gmap nat (gmap string V)) c1 c2 :
  tag_of c1 ≠ tag_of c2 -> route (route m c1) c2 = route (route m c2) c1.
Proof.
  destruct c1 as [[p1 e1] v1], c2 as [[p2 e2] v2]. unfold tag_of, route. simpl.
  intros Hne. destruct (decide (p1 = p2)) as [->|Hp].
  - rewrite !lookup_insert_eq, !insert_insert_eq. simpl.
    f_equal. apply insert_insert_ne. congruence.
  - rewrite !lookup_insert_ne by done. by apply insert_insert_ne.
Qed.

Lemma foldl_route_perm {V} (cs cs' : list (nat * string * V)) :
  cs ≡ₚ cs' -> NoDup (tag_of <$> cs) ->
  forall m, foldl route m cs = foldl route m cs'.
Proof.
  induction 1 as [|c l l' Hp IH|c1 c2 l|l l' l'' Hp1 IH1 Hp2 IH2]; intros Hnd m.
  - done.
  - simpl. apply IH. rewrite fmap_cons in Hnd. by apply NoDup_cons in Hnd as [_ ?].
  - simpl. f_equal. apply route_commute.
    rewrite !fmap_cons in Hnd. apply NoDup_cons in Hnd as [Hnd _].
    rewrite not_elem_of_cons in Hnd. by destruct Hnd.
  - rewrite IH1 by done. apply IH2. by rewrite <- Hp1.
Qed.

(** One job per (page index, engine) pair: the tags of the submitted jobs
    are pairwise distinct. *)
Lemma submitted_tags_from (pages : list bytes) k :
  NoDup (flat_map (fun ib : nat * bytes =>
                     [(ib.1, "tesseract"%string); (ib.1, "easyocr"%string)])
                  (enumerate pages k))
  /\ forall p e, (p, e) ∈ flat_map (fun ib : nat * bytes =>
                     [(ib.1, "tesseract"%string); (ib.1, "easyocr"%string)])
                  (enumerate pages k) -> (k <= p)%nat.
Proof.
  revert k. induction pages as [|pg pages IH]; intros k; simpl.
  { split; [constructor|]. intros p e Hin. by apply elem_of_nil in Hin. }
  destruct (IH (S k)) as [Hnd Hge]. split.
  - apply NoDup_cons. split.
    { rewrite elem_of_cons. intros [[=]|Hin]. apply Hge in Hin. lia. }
    apply NoDup_cons. split; [|done].
    intros Hin. apply Hge in Hin. lia.
  - intros p e. rewrite !elem_of_cons. intros [[= -> _]|[[= -> _]|Hin]]; [lia..|].
    apply Hge in Hin. lia.
Qed.

Lemma completed_tags {V} (result : nat * string * bytes -> V) pages :
  NoDup (tag_of <$> completed result pages).
Proof.
  destruct (submitted_tags_from pages 0) as [Hnd _].
  replace (tag_of <$> completed result pages)
    with (flat_map (fun ib : nat * bytes =>
                      [(ib.1, "tesseract"%string); (ib.1, "easyocr"%string)])
                   (enumerate pages 0)); [done|].
  unfold completed, submitted. generalize (enumerate pages 0). intros l.
  induction l as [|[i pg] l IH]; [done|].
  cbn [flat_map]. rewrite !fmap_app, <- IH. reflexivity.
Qed.

(** The entry under a tag after one more completion. *)
Lemma routed_route {V} (m : gmap nat (gmap string V)) c t :
  routed (route m c) t = if decide (tag_of c = t) then Some c.2 else routed m t.
Proof.
  destruct c as [[p e] v], t as [p' e']. unfold routed, route, tag_of. simpl.
  destruct (decide (p = p')) as [->|Hp].
  - rewrite lookup_insert_eq. simpl. destruct (decide (e = e')) as [->|He].
    + rewrite lookup_insert_eq. by rewrite decide_True.
    + rewrite lookup_insert_ne by done. rewrite decide_False by congruence.
      destruct (m !! p'); simpl; [done|]. apply lookup_empty.
  - rewrite lookup_insert_ne by done. by rewrite decide_False by congruence.
Qed.

(** With distinct tags, the mapping holds exactly the completions, each
    under its own tag. *)
Lemma routed_collect {V} (cs : list (nat * string * V)) :
  NoDup (tag_of <$> cs) ->
  forall t v, routed (foldl route ∅ cs) t = Some v <-> (t, v) ∈ cs.
Proof.
  induction cs as [|c cs IH] using rev_ind; intros Hnd t v.
  { simpl. unfold routed. rewrite lookup_empty. simpl. rewrite elem_of_nil.
    naive_solver. }
  rewrite fmap_app in Hnd. apply NoDup_app in Hnd as (Hnd & Hfresh & _).
  rewrite foldl_app. simpl. rewrite routed_route, elem_of_app, list_elem_of_singleton.
  destruct c as [tc vc]. unfold tag_of at 1. simpl.
  destruct (decide (tc = t)) as [->|Hne].
  - split; [intros [= ->]; auto|]. intros [Hin|[= ->]]; [|done].
    exfalso. apply (Hfresh t).
    + apply list_elem_of_fmap. by exists (t, v).
    + simpl. apply list_elem_of_here.
  - rewrite IH by done. naive_solver.
Qed.

(** C2: the jobs are submitted one per (page index, engine) pair, and the
    mapping built from their tagged completions does not depend on the
    order of arrival: any arrival order, and in particular the reverse of
    the submission order, gives the mapping of the submission order, which
    holds under each tag the result of the job submitted with that tag. *)
Theorem dispatcher_order_independent {V : Type}
    (result : nat * string * bytes -> V) (page_bytes_list : list bytes) :
  let cs := completed result page_bytes_list in
  dict_to_map (collect (reverse cs)) = dict_to_map (collect cs) /\
  (forall arrivals, arrivals ≡ₚ cs ->
     dict_to_map (collect arrivals) = dict_to_map (collect cs)) /\
  (forall t v, routed (dict_to_map (collect cs)) t = Some v <-> (t, v) ∈ cs).
Proof.
  intros cs. pose proof (completed_tags result page_bytes_list) as Hnd. fold cs in Hnd.
  assert (forall arrivals, arrivals ≡ₚ cs ->
            dict_to_map (collect arrivals) = dict_to_map (collect cs)) as Hperm.
  { intros arrivals Hp. rewrite !dict_to_map_collect.
    symmetry. by apply foldl_route_perm. }
  split; [|split; [done|]].
  - apply Hperm, reverse_Permutation.
  - intros t v. rewrite dict_to_map_collect. by apply routed_collect.
Qed.

(** The dictionaries themselves keep the arrival order of their keys; only
    the mapping they denote is the same. *)
Example reverse_arrival_insertion_order :
  collect (completed (fun _ => tt) [[]])
  = [(0%nat, [("tesseract"%string, tt); ("easyocr"%string, tt)])]
  /\ collect (reverse (completed (fun _ => tt) [[]]))
     = [(0%nat, [("easyocr"%string, tt); ("tesseract"%string, tt)])].
Proof. split; reflexivity. Qed.

(** ** Sorting *)

Lemma insert_sorted_perm {A} (lt : A -> A -> bool) x l :
  insert_sorted lt x l ≡ₚ x :: l.
Proof.
  induction l as [|y l IH]; simpl; [done|].
  destruct (lt y x); [|done]. rewrite IH. apply perm_swap.
Qed.

Lemma sorted_perm {A} (lt : A -> A -> bool) l : sorted lt l ≡ₚ l.
Proof.
  induction l as [|x l IH]; simpl; [done|].
  by rewrite insert_sorted_perm, IH.
Qed.

Lemma sorted_length {A} (lt : A -> A -> bool) (l : list A) :
  length (sorted lt l) = length l.
Proof. by rewrite sorted_perm. Qed.

Lemma insert_sorted_Qle x l :
  StronglySorted Qle l -> StronglySorted Qle (insert_sorted Qltb x l).
Proof.
  induction 1 as [|y l Hs IH Hy]; simpl.
  { repeat constructor. }
  destruct (Qltb y x) eqn:E; qprops.
  - constructor; [done|]. rewrite insert_sorted_perm.
    constructor; [lra|done].
  - constructor; [by constructor|]. constructor; [done|].
    eapply Forall_impl; [exact Hy|]. intros z Hz. simpl in Hz. lra.
Qed.

Lemma sorted_Qle l : StronglySorted Qle (sorted Qltb l).
Proof.
  induction l as [|x l IH]; simpl; [constructor|]. by apply insert_sorted_Qle.
Qed.

(** ** Outline builder *)

Lemma title_box_total l :
  exists tb, title_box l = Ok tb /\
    (first_page_boxes l = [] -> tb = None) /\
    (first_page_boxes l ≠ [] ->
       exists t, tb = Some t /\ first_max font_size (first_page_boxes l) t).
Proof.
  unfold title_box. destruct (first_page_boxes l) as [|b fpb].
  - exists None. repeat split; done.
  - exists (Some (max_from font_size b fpb)). split; [done|]. split; [done|].
    intros _. eexists. split; [done|]. apply max_from_first_max.
Qed.

Lemma median_size_total sizes :
  sizes ≠ [] ->
  exists m, median_size sizes = Ok m /\
    sorted Qltb sizes !! (length sizes / 2)%nat = Some m.
Proof.
  intros Hne. unfold median_size, getitem. rewrite sorted_length.
  destruct (sorted Qltb sizes !! (length sizes / 2)%nat) as [m|] eqn:E; [eauto|].
  apply lookup_ge_None in E. rewrite sorted_length in E.
  destruct sizes as [|q sizes]; [done|]. simpl length in E.
  pose proof (Nat.div_lt (S (length sizes)) 2). lia.
Qed.

Lemma thresholds_median l :
  match thresholds l with
  | None => all_font_sizes l = []
  | Some (h1, h2) =>
      exists m, median_size (all_font_sizes l) = Ok m /\
        h1 = m * h1_factor /\ h2 = m * h2_factor
  end.
Proof.
  unfold thresholds. destruct (all_font_sizes l) as [|q sizes] eqn:E; [done|].
  destruct (median_size_total (q :: sizes)) as (m & -> & _); [done|]. eauto.
Qed.

(** [create_document_outline] never raises; its result in closed form. *)
Lemma create_document_outline_eq l :
  exists tb, title_box l = Ok tb /\
    create_document_outline l
    = Ok {| title := document_title tb;
            outline := match thresholds l with
                       | None => []
                       | Some (h1, h2) =>
                           foldl (outline_step tb h1 h2) [] (sorted_boxes l)
                       end |}.
Proof.
  destruct (title_box_total l) as (tb & Htb & _). exists tb. split; [done|].
  unfold create_document_outline, thresholds.
  destruct l as [|pb l]; [by injection Htb as <-|].
  rewrite Htb, bind_Ok.
  destruct (all_font_sizes (pb :: l)) as [|q sizes] eqn:E; [done|].
  destruct (median_size_total (q :: sizes)) as (m & -> & _); done.
Qed.

Lemma append_cons (d : ascii) (s t : string) :
  (String d s ++ t)%string = String d (s ++ t)%string.
Proof. reflexivity. Qed.

Lemma append_empty (t : string) : (EmptyString ++ t)%string = t.
Proof. reflexivity. Qed.

Lemma endswith_spec (t : string) (c : ascii) :
  endswith t c = true <-> exists s : string, t = (s ++ String c EmptyString)%string.
Proof.
  induction t as [|d t IH].
  { simpl. split; [done|]. intros [[|? ?] Hs]; discriminate. }
  destruct t as [|d' t'].
  - simpl. rewrite Ascii.eqb_eq. split.
    + intros ->. by exists EmptyString.
    + intros [[|e s] Hs].
      * rewrite append_empty in Hs. congruence.
      * rewrite append_cons in Hs. injection Hs as _ Hs.
        destruct s; discriminate.
  - change (endswith (String d (String d' t')) c) with (endswith (String d' t') c).
    rewrite IH. split.
    + intros [s ->]. by exists (String d s).
    + intros [[|e s] Hs].
      * rewrite append_empty in Hs. discriminate.
      * rewrite append_cons in Hs. injection Hs as -> Hs. by exists s.
Qed.

Lemma count_spaces (t : string) : count t " "%char = spaces t.
Proof.
  unfold spaces. induction t as [|d t IH]; simpl; [done|].
  rewrite IH. by destruct (Ascii.eqb d " ").
Qed.

Lemma heading_candidateb_spec b :
  heading_candidateb b = true <-> heading_candidate b.
Proof.
  unfold heading_candidateb, heading_candidate, ends_with_period.
  rewrite !andb_true_iff, negb_true_iff, !Nat.leb_le, count_spaces.
  rewrite <- (endswith_spec (text b) "."%char).
  rewrite not_true_iff_false. tauto.
Qed.

(** The tests of the loop body, as the code writes them. *)
Lemma outline_step_candidate b :
  (String.length (text b) <? 3)%nat || (120 <? String.length (text b))%nat
  || endswith (text b) "."%char || (10 <? count (text b) " "%char)%nat
  = negb (heading_candidateb b).
Proof.
  unfold heading_candidateb.
  rewrite !negb_andb, negb_involutive, <- !Nat.ltb_antisym. done.
Qed.

(** One pass of the classification loop, when the H2 threshold is not above
    the H1 threshold. *)
Lemma outline_step_emitted tb h1 h2 acc pb :
  h2 <= h1 ->
  outline_step tb h1 h2 acc pb
  = if emitted tb h2 pb then acc ++ [entry_of h1 pb] else acc.
Proof.
  intros Hle. destruct pb as [p b]. unfold outline_step, emitted, entry_of. simpl.
  destruct (is_title b tb); [done|]. simpl.
  rewrite outline_step_candidate.
  destruct (heading_candidateb b); [|done]. simpl.
  destruct (Qle_bool h1 (font_size b)) eqn:E1, (Qle_bool h2 (font_size b)) eqn:E2;
    try done.
  qprops. lra.
Qed.

Lemma outline_loop_emitted tb h1 h2 l :
  h2 <= h1 ->
  forall acc,
    foldl (outline_step tb h1 h2) acc l
    = acc ++ (entry_of h1 <$> List.filter (emitted tb h2) l).
Proof.
  intros Hle. induction l as [|pb l IH]; intros acc.
  { by rewrite app_nil_r. }
  cbn [foldl]. rewrite IH, outline_step_emitted, filter_cons_bool by done.
  destruct (emitted tb h2 pb); [|done].
  by rewrite fmap_cons, <- app_assoc.
Qed.

(** The title object is skipped by identity: the loop with a title box runs
    as the loop without one on the list deprived of that object. *)
Lemma outline_loop_title tb h1 h2 l :
  forall acc,
    foldl (outline_step tb h1 h2) acc l
    = foldl (outline_step None h1 h2) acc
            (List.filter (fun pb => negb (is_title pb.2 tb)) l).
Proof.
  induction l as [|[p b] l IH]; intros acc; [done|].
  cbn [foldl]. rewrite filter_cons_bool. cbn [snd].
  destruct (is_title b tb) eqn:E; cbn [negb].
  - rewrite <- IH. f_equal. unfold outline_step. by rewrite E.
  - cbn [foldl]. rewrite <- IH. f_equal. unfold outline_step. by rewrite E.
Qed.

(** A detection that is not the title object and passes the tests is
    emitted, whatever else the list holds. *)
Lemma outline_loop_emits tb h1 h2 l p b :
  (p, b) ∈ l -> is_title b tb = false -> heading_candidateb b = true ->
  h1 <= font_size b \/ h2 <= font_size b ->
  forall acc, exists lv,
    {| level := lv; entry_text := text b; page := p |}
    ∈ foldl (outline_step tb h1 h2) acc l.
Proof.
  intros Hin Ht Hc Hf.
  assert (forall acc (e : OutlineEntry) l',
            e ∈ acc -> e ∈ foldl (outline_step tb h1 h2) acc l') as Hkeep.
  { intros acc e l'. revert acc. induction l' as [|[p' b'] l' IH]; intros acc He; [done|].
    cbn [foldl]. apply IH. unfold outline_step.
    repeat case_match; try done; apply elem_of_app; auto. }
  induction l as [|pb l IH]; intros acc; [by apply elem_of_nil in Hin|].
  apply elem_of_cons in Hin as [<-|Hin]; [|by apply IH].
  cbn [foldl]. unfold outline_step at 2. rewrite Ht, outline_step_candidate, Hc.
  cbn [negb].
  destruct (Qle_bool h1 (font_size b)) eqn:E1.
  { exists H1. apply Hkeep, elem_of_app. right. apply list_elem_of_here. }
  destruct (Qle_bool h2 (font_size b)) eqn:E2.
  { exists H2. apply Hkeep, elem_of_app. right. apply list_elem_of_here. }
  qprops. lra.
Qed.

Lemma elem_of_all_font_sizes l q :
  q ∈ all_font_sizes l <->
  exists p b, (p, b) ∈ l /\ (2 < String.length (text b))%nat /\ q = font_size b.
Proof.
  unfold all_font_sizes. rewrite list_elem_of_fmap. split.
  - intros (b & -> & Hb). apply elem_of_filter_bool in Hb as [Hb Hlen].
    apply list_elem_of_fmap in Hb as ([p b'] & -> & Hin).
    exists p, b'. by apply Nat.ltb_lt in Hlen.
  - intros (p & b & Hin & Hlen & ->). exists b. split; [done|].
    apply elem_of_filter_bool. split; [|by apply Nat.ltb_lt].
    apply list_elem_of_fmap. by exists (p, b).
Qed.

Lemma median_size_elem sizes m : median_size sizes = Ok m -> m ∈ sizes.
Proof.
  unfold median_size, getitem.
  destruct (sorted Qltb sizes !! _) as [x|] eqn:E; [|done]. intros [= <-].
  rewrite <- (sorted_perm Qltb sizes). by eapply list_elem_of_lookup_2.
Qed.

(** C6: the heading thresholds come from the positional median: the font
    sizes of the detections, on any page, whose text has more than two
    characters are sorted in ascending order and the element at index
    [len // 2] is the median; the H1 threshold is the median times 1.6 and the
    H2 threshold the median times 1.3, and the outline is the classification
    loop run with them.  With no such detection the result is the title with
    an empty outline.  For the sizes 8, 10, 10, 12, 30 the median is 10,
    which is not their mean. *)
Theorem heading_thresholds_median (l : list (nat * BoundingBox)) :
  exists (res : OutlineResult) (tb : option BoundingBox),
    create_document_outline l = Ok res /\ title_box l = Ok tb /\
    title res = document_title tb /\
    (forall q, q ∈ all_font_sizes l <->
       exists p b, (p, b) ∈ l /\ (2 < String.length (text b))%nat /\ q = font_size b) /\
    (all_font_sizes l = [] -> outline res = []) /\
    (all_font_sizes l ≠ [] ->
       exists (s : list Q) (m : Q),
         s ≡ₚ all_font_sizes l /\ StronglySorted Qle s /\
         s !! (length s / 2)%nat = Some m /\
         median_size (all_font_sizes l) = Ok m /\
         thresholds l = Some (m * (16 # 10), m * (13 # 10)) /\
         outline res
         = foldl (outline_step tb (m * (16 # 10)) (m * (13 # 10))) []
                 (sorted_boxes l)) /\
    median_size [8; 10; 10; 12; 30] = Ok 10 /\
    ~ (8 + 10 + 10 + 12 + 30) / 5 == 10.
Proof.
  destruct (create_document_outline_eq l) as (tb & Htb & Hres).
  eexists _, tb. split; [exact Hres|]. split; [done|]. split; [done|].
  split; [apply elem_of_all_font_sizes|]. simpl. split; [|split; [|split]].
  - unfold thresholds. by intros ->.
  - intros Hne. destruct (median_size_total _ Hne) as (m & Hm & Hlook).
    exists (sorted Qltb (all_font_sizes l)), m.
    split; [apply sorted_perm|]. split; [apply sorted_Qle|].
    rewrite sorted_length. split; [done|]. split; [done|].
    unfold thresholds. destruct (all_font_sizes l); [done|]. by rewrite Hm.
  - reflexivity.
  - intros H. vm_compute in H. discriminate.
Qed.

Lemma no_sizes_no_candidate l p b :
  all_font_sizes l = [] -> (p, b) ∈ l -> ~ heading_candidate b.
Proof.
  intros Hnil Hin [[Hlen _] _].
  assert (font_size b ∈ all_font_sizes l) as Hq.
  { apply elem_of_all_font_sizes. exists p, b. split; [done|]. split; [lia|done]. }
  rewrite Hnil in Hq. by apply elem_of_nil in Hq.
Qed.

(** C7: when no font size is negative, the outline holds an entry for a
    detection exactly when the detection is not the title object, its text
    has 3 to 120 characters, does not end with a period and holds at most 10
    spaces, and its font size reaches the H2 threshold; the entry is H1 from
    the H1 threshold on and H2 below it.  The entries come in the order of
    the sorted detections. *)
Theorem outline_entries_iff (l : list (nat * BoundingBox)) :
  (forall p b, (p, b) ∈ l -> 0 <= font_size b) ->
  exists (res : OutlineResult) (tb : option BoundingBox),
    create_document_outline l = Ok res /\ title_box l = Ok tb /\
    match thresholds l with
    | None =>
        outline res = [] /\ forall p b, (p, b) ∈ l -> ~ heading_candidate b
    | Some (h1, h2) =>
        (exists m, median_size (all_font_sizes l) = Ok m /\
                   h1 = m * (16 # 10) /\ h2 = m * (13 # 10)) /\
        outline res = entry_of h1 <$> List.filter (emitted tb h2) (sorted_boxes l) /\
        (forall pb, emitted tb h2 pb = true <->
           is_title pb.2 tb = false /\ heading_candidate pb.2 /\ h2 <= font_size pb.2) /\
        (forall e : OutlineEntry, e ∈ outline res <->
           exists p b, (p, b) ∈ l /\ is_title b tb = false /\
             heading_candidate b /\ h2 <= font_size b /\
             entry_text e = text b /\ page e = p /\
             (h1 <= font_size b -> level e = H1) /\
             (font_size b < h1 -> level e = H2))
    end.
Proof.
  intros Hpos. destruct (create_document_outline_eq l) as (tb & Htb & Hres).
  eexists _, tb. split; [exact Hres|]. split; [done|]. simpl.
  pose proof (thresholds_median l) as Hthr.
  destruct (thresholds l) as [[h1 h2]|].
  2:{ split; [done|]. intros p b. by apply no_sizes_no_candidate. }
  destruct Hthr as (m & Hm & -> & ->).
  assert (0 <= m) as Hm0.
  { apply median_size_elem, elem_of_all_font_sizes in Hm as (p & b & Hin & _ & ->).
    by apply (Hpos p). }
  assert (m * h2_factor <= m * h1_factor) as Hle by (unfold h1_factor, h2_factor; nra).
  assert (forall pb, emitted tb (m * h2_factor) pb = true <->
            is_title pb.2 tb = false /\ heading_candidate pb.2
            /\ m * h2_factor <= font_size pb.2) as Hem.
  { intros pb. unfold emitted.
    rewrite !andb_true_iff, negb_true_iff, heading_candidateb_spec, Qle_bool_iff. tauto. }
  split; [by exists m|]. rewrite outline_loop_emitted by done. simpl.
  split; [done|]. split; [done|]. intros e.
  rewrite list_elem_of_fmap. split.
  - intros ([p b] & -> & Hin). apply elem_of_filter_bool in Hin as [Hin He].
    apply Hem in He as (Ht & Hc & Hf). simpl in *.
    exists p, b. rewrite <- (sorted_perm key_lt l). split; [done|].
    do 5 (split; [done|]). unfold entry_of. simpl.
    destruct (Qle_bool (m * h1_factor) (font_size b)) eqn:E; qprops; split; try done;
      intros; lra.
  - intros (p & b & Hin & Ht & Hc & Hf & Htext & Hpage & Hl1 & Hl2).
    exists (p, b). split.
    + destruct e as [lv t pg]. unfold entry_of. simpl in *. subst.
      destruct (Qle_bool (m * h1_factor) (font_size b)) eqn:E; qprops; f_equal; auto.
    + apply elem_of_filter_bool. split.
      * unfold sorted_boxes. by rewrite sorted_perm.
      * by apply Hem.
Qed.

Lemma elem_of_first_page_boxes l b : b ∈ first_page_boxes l <-> (0%nat, b) ∈ l.
Proof.
  unfold first_page_boxes. rewrite list_elem_of_fmap. split.
  - intros ([p b'] & -> & Hin). apply elem_of_filter_bool in Hin as [Hin Hp].
    simpl in *. apply Nat.eqb_eq in Hp. by subst.
  - intros Hin. exists (0%nat, b). split; [done|]. by apply elem_of_filter_bool.
Qed.

(** C5: the title is the text of the first detection of maximal font size
    among those of page index 0, taken in input order, and the empty string
    when page 0 has none.  The classification loop skips the detections that
    are that very object (same identity) and no other: the outline is the
    loop without a title box run on the sorted detections deprived of that
    object, so a detection with another identity that passes the tests gets
    its entry, whatever its text and font size. *)
Theorem title_detection (l : list (nat * BoundingBox)) :
  exists (res : OutlineResult) (tb : option BoundingBox),
    create_document_outline l = Ok res /\ title_box l = Ok tb /\
    (forall b, b ∈ first_page_boxes l <-> (0%nat, b) ∈ l) /\
    (first_page_boxes l = [] -> tb = None /\ title res = EmptyString) /\
    (first_page_boxes l ≠ [] ->
       exists t, tb = Some t /\ first_max font_size (first_page_boxes l) t /\
                 title res = text t) /\
    (forall b t, tb = Some t -> (is_title b tb = true <-> oid b = oid t)) /\
    outline res
    = match thresholds l with
      | None => []
      | Some (h1, h2) =>
          foldl (outline_step None h1 h2) []
                (List.filter (fun pb => negb (is_title pb.2 tb)) (sorted_boxes l))
      end /\
    (forall p b h1 h2,
       (p, b) ∈ l -> is_title b tb = false -> thresholds l = Some (h1, h2) ->
       heading_candidate b -> h1 <= font_size b \/ h2 <= font_size b ->
       exists lv, {| level := lv; entry_text := text b; page := p |} ∈ outline res).
Proof.
  destruct (create_document_outline_eq l) as (tb & Htb & Hres).
  destruct (title_box_total l) as (tb' & Htb' & Hnone & Hsome).
  assert (tb' = tb) as -> by congruence.
  eexists _, tb. split; [exact Hres|]. split; [done|]. simpl.
  split; [apply elem_of_first_page_boxes|]. split; [|split; [|split; [|split]]].
  - intros Hnil. by rewrite (Hnone Hnil).
  - intros Hne. destruct (Hsome Hne) as (t & -> & Hmax). by exists t.
  - intros b t ->. unfold is_title, py_is. apply Nat.eqb_eq.
  - destruct (thresholds l) as [[h1 h2]|]; [|done]. apply outline_loop_title.
  - intros p b h1 h2 Hin Ht -> Hc Hf.
    apply outline_loop_emits; try done.
    + unfold sorted_boxes. by rewrite sorted_perm.
    + by apply heading_candidateb_spec.
Qed.

Example doc_outline :
  create_document_outline doc_boxes
  = Ok {| title := "Report Title";
          outline := [ {| level := H1; entry_text := "Chapter One"; page := 1 |};
                       {| level := H2; entry_text := "Section 1.1"; page := 1 |};
                       {| level := H1; entry_text := "Report Title"; page := 2 |} ] |}.
Proof. reflexivity. Qed.

Example doc_thresholds : thresholds doc_boxes = Some (10 * (16 # 10), 10 * (13 # 10)).
Proof. reflexivity. Qed.

Lemma outline_entries_iff_witness :
  exists (res : OutlineResult) (tb : option BoundingBox),
    create_document_outline doc_boxes = Ok res /\ title_box doc_boxes = Ok tb /\
    match thresholds doc_boxes with
    | None =>
        outline res = [] /\ forall p b, (p, b) ∈ doc_boxes -> ~ heading_candidate b
    | Some (h1, h2) =>
        (exists m, median_size (all_font_sizes doc_boxes) = Ok m /\
                   h1 = m * (16 # 10) /\ h2 = m * (13 # 10)) /\
        outline res
        = entry_of h1 <$> List.filter (emitted tb h2) (sorted_boxes doc_boxes) /\
        (forall pb, emitted tb h2 pb = true <->
           is_title pb.2 tb = false /\ heading_candidate pb.2 /\ h2 <= font_size pb.2) /\
        (forall e : OutlineEntry, e ∈ outline res <->
           exists p b, (p, b) ∈ doc_boxes /\ is_title b tb = false /\
             heading_candidate b /\ h2 <= font_size b /\
             entry_text e = text b /\ page e = p /\
             (h1 <= font_size b -> level e = H1) /\
             (font_size b < h1 -> level e = H2))
    end.
Proof.
  apply (outline_entries_iff doc_boxes).
  intros p b Hin. unfold doc_boxes in Hin.
  repeat (apply elem_of_cons in Hin as [Hin|Hin];
          [injection Hin as -> ->; vm_compute; discriminate|]).
  by apply elem_of_nil in Hin.
Defined.

(** ** Recognizer adapters *)

Lemma for_each_invariant {A S} (I : S -> Prop) (body : S -> A -> result S) l :
  (forall s x s', I s -> body s x = Ok s' -> I s') ->
  forall s s', I s -> for_each body s l = Ok s' -> I s'.
Proof.
  intros Hbody. induction l as [|x l IH]; intros s s' Hs; simpl.
  { by intros [= <-]. }
  destruct (body s x) as [s1|e] eqn:E; [|done].
  rewrite bind_Ok. apply IH. by eapply Hbody.
Qed.

Lemma getitem_Ok {A} (l : list A) i x : getitem l i = Ok x -> l !! i = Some x.
Proof. unfold getitem. destruct (l !! i); [|done]. by intros [= ->]. Qed.

Lemma tesseract_row_detection data boxes next i st' :
  Forall (tesseract_detection data) boxes ->
  tesseract_row data (boxes, next) i = Ok st' ->
  Forall (tesseract_detection data) st'.1.
Proof.
  intros Hall. unfold tesseract_row.
  destruct (getitem (tess_text data) i) as [t|] eqn:Et; [|done]. rewrite bind_Ok.
  destruct (getitem (tess_conf data) i) as [c|] eqn:Ec; [|done]. rewrite bind_Ok.
  destruct ((1 <? String.length (strip t))%nat && (30 <? c)%Z) eqn:Eadm.
  2:{ by intros [= <-]. }
  apply andb_true_iff in Eadm as [_ Hc]. apply Z.ltb_lt in Hc.
  destruct (getitem (tess_left data) i) as [x|] eqn:Ex; [|done]. rewrite bind_Ok.
  destruct (getitem (tess_top data) i) as [y|] eqn:Ey; [|done]. rewrite bind_Ok.
  destruct (getitem (tess_width data) i) as [w|] eqn:Ew; [|done]. rewrite bind_Ok.
  destruct (getitem (tess_height data) i) as [h|] eqn:Eh; [|done]. rewrite bind_Ok.
  change (truediv (inject_Z c) 100) with (Ok (inject_Z c / 100)). rewrite bind_Ok.
  intros [= <-]. simpl. apply Forall_app. split; [done|].
  apply Forall_singleton. exists i, c, x, y, w, h.
  repeat split; auto using getitem_Ok.
Qed.

Lemma tesseract_boxes_detection alloc data boxes :
  tesseract_boxes alloc data = Ok boxes -> Forall (tesseract_detection data) boxes.
Proof.
  unfold tesseract_boxes.
  destruct (for_each _ _ _) as [st|] eqn:E; [|done]. rewrite bind_Ok. intros [= <-].
  revert E.
  apply (for_each_invariant (fun st => Forall (tesseract_detection data) st.1)
           (tesseract_row data)); [|by constructor].
  intros [bs nx] i s'. apply tesseract_row_detection.
Qed.

Lemma run_tesseract_detection image_to_data alloc image b :
  b ∈ run_tesseract image_to_data alloc image ->
  exists data, image_to_data image = Ok data /\ tesseract_detection data b.
Proof.
  unfold run_tesseract. destruct (image_to_data image) as [data|e]; simpl.
  2:{ intros H. by apply elem_of_nil in H. }
  destruct (tesseract_boxes alloc data) as [boxes|] eqn:E.
  2:{ intros H. by apply elem_of_nil in H. }
  intros Hb. exists data. split; [done|].
  apply tesseract_boxes_detection in E. by eapply Forall_forall in E.
Qed.

Lemma easyocr_item_detection results boxes next it st' :
  it ∈ results ->
  Forall (easyocr_detection results) boxes ->
  easyocr_item (boxes, next) it = Ok st' ->
  Forall (easyocr_detection results) st'.1.
Proof.
  intros Hit Hall. unfold easyocr_item.
  destruct (Qltb (4 # 10) (easy_conf it)
            && (1 <? String.length (strip (easy_text it)))%nat) eqn:Eadm.
  2:{ by intros [= <-]. }
  apply andb_true_iff in Eadm as [Hc _]. apply Qltb_true in Hc.
  destruct (min_list (easy_coords it).*1) as [bx1|] eqn:E1; [|done]. rewrite bind_Ok.
  destruct (min_list (easy_coords it).*2) as [by1|] eqn:E2; [|done]. rewrite bind_Ok.
  destruct (max_list (easy_coords it).*1) as [bx2|] eqn:E3; [|done]. rewrite bind_Ok.
  destruct (max_list (easy_coords it).*2) as [by2|] eqn:E4; [|done]. rewrite bind_Ok.
  intros [= <-]. simpl. apply Forall_app. split; [done|].
  apply Forall_singleton. exists it, bx1, by1, bx2, by2. repeat split; auto.
Qed.

Lemma easyocr_boxes_detection alloc results boxes :
  easyocr_boxes alloc results = Ok boxes -> Forall (easyocr_detection results) boxes.
Proof.
  unfold easyocr_boxes.
  destruct (for_each _ _ _) as [st|] eqn:E; [|done]. rewrite bind_Ok. intros [= <-].
  assert (forall its, its ⊆ results ->
            forall s s', Forall (easyocr_detection results) s.1 ->
              for_each easyocr_item s its = Ok s' ->
              Forall (easyocr_detection results) s'.1) as Hgen.
  { induction its as [|it its IH]; intros Hsub s s' Hs; simpl.
    { by intros [= <-]. }
    destruct (easyocr_item s it) as [s1|] eqn:E1; [|done]. rewrite bind_Ok.
    apply IH.
    - intros x Hx. apply Hsub. by apply elem_of_cons; right.
    - destruct s as [bs nx]. eapply easyocr_item_detection; [|done..].
      apply Hsub, list_elem_of_here. }
  by apply (Hgen results (reflexivity _) ([], alloc)).
Qed.

Lemma run_easyocr_detection reader alloc image (b : BoundingBox) :
  b ∈ run_easyocr reader alloc image ->
  exists (readtext : bytes -> result (list EasyItem)) (results : list EasyItem),
    reader = Some readtext /\ readtext image = Ok results /\
    easyocr_detection results b.
Proof.
  unfold run_easyocr. destruct reader as [readtext|].
  2:{ intros H. by apply elem_of_nil in H. }
  destruct (readtext image) as [results|e] eqn:Er; simpl.
  2:{ intros H. by apply elem_of_nil in H. }
  destruct (easyocr_boxes alloc results) as [boxes|] eqn:E.
  2:{ intros H. by apply elem_of_nil in H. }
  intros Hb. exists readtext, results. split; [done|]. split; [done|].
  apply easyocr_boxes_detection in E. by eapply Forall_forall in E.
Qed.

Lemma min_from_le best l : min_from best l <= best.
Proof.
  revert best. induction l as [|x l IH]; intros best; simpl; [lra|].
  destruct (Qltb x best) eqn:E; qprops; [|done].
  specialize (IH x). lra.
Qed.

Lemma max_from_ge best l : best <= max_from (fun x => x) best l.
Proof.
  revert best. induction l as [|x l IH]; intros best; simpl; [lra|].
  destruct (Qltb best x) eqn:E; qprops; [|done].
  specialize (IH x). lra.
Qed.

Lemma min_list_le_max_list l lo hi :
  min_list l = Ok lo -> max_list l = Ok hi -> lo <= hi.
Proof.
  destruct l as [|x l]; [done|]. unfold max_list. simpl.
  intros [= <-] [= <-].
  pose proof (min_from_le x l). pose proof (max_from_ge x l). lra.
Qed.

Lemma max2_ge_l a b : a <= max2 a b.
Proof. destruct (max2_spec a b) as [[? ->]|[? ->]]; lra. Qed.

(** C9, as the code has it: a detection produced by an adapter caches the
    area of its rectangle, has a font size of at least 8 and passed the
    confidence filter of its engine.  The sides of a Tesseract detection are
    the width and height the engine reports for the word, so the rectangle
    has positive sides exactly when the engine reports positive ones; an
    EasyOCR detection spans the minimum to the maximum of the reported
    corner coordinates, so [x2 >= x1], [y2 >= y1] and its area is not
    negative.  Nothing is required of, or filtered on, the area. *)
Theorem adapter_detections
    (image_to_data : bytes -> result TessData)
    (reader : option (bytes -> result (list EasyItem)))
    (alloc : nat) (image_bytes : bytes) (b : BoundingBox) :
  (b ∈ run_tesseract image_to_data alloc image_bytes ->
     constructed b /\ 8 <= font_size b /\ 30 # 100 < confidence b /\
     exists (data : TessData) (i : nat) (w h : Z),
       image_to_data image_bytes = Ok data /\
       tess_width data !! i = Some w /\ tess_height data !! i = Some h /\
       x2 b - x1 b == inject_Z w /\ y2 b - y1 b == inject_Z h /\
       (x1 b < x2 b <-> (0 < w)%Z) /\ (y1 b < y2 b <-> (0 < h)%Z)) /\
  (b ∈ run_easyocr reader alloc image_bytes ->
     constructed b /\ 8 <= font_size b /\ 4 # 10 < confidence b /\
     x1 b <= x2 b /\ y1 b <= y2 b /\ 0 <= area b).
Proof.
  split.
  - intros Hb. apply run_tesseract_detection in Hb as (data & Hdata & Hdet).
    destruct Hdet as (i & c & x & y & w & h & Hc & Hx & Hy & Hw & Hh & Hadm
                      & Ex1 & Ey1 & Ex2 & Ey2 & Earea & Econf & Efont).
    unfold constructed. rewrite Earea, Ex1, Ey1, Ex2, Ey2, Econf, Efont.
    rewrite !inject_Z_plus.
    split; [reflexivity|]. split; [apply max2_ge_l|]. split.
    { apply Qlt_shift_div_l; [done|].
      assert (inject_Z 30 < inject_Z c) as Hlt by (by rewrite <- Zlt_Qlt).
      change (inject_Z 30) with 30 in Hlt. lra. }
    exists data, i, w, h. do 3 (split; [done|]).
    split; [ring|]. split; [ring|].
    rewrite (Zlt_Qlt 0 w), (Zlt_Qlt 0 h). change (inject_Z 0) with 0.
    split; split; intros; lra.
  - intros Hb.
    apply run_easyocr_detection in Hb as (readtext & results & _ & _ & Hdet).
    destruct Hdet as (it & bx1 & by1 & bx2 & by2 & Hit & Hadm & Hx1 & Hx2 & Hy1 & Hy2
                      & Ex1 & Ey1 & Ex2 & Ey2 & Earea & Econf & Efont).
    pose proof (min_list_le_max_list _ _ _ Hx1 Hx2) as Hx.
    pose proof (min_list_le_max_list _ _ _ Hy1 Hy2) as Hy.
    unfold constructed. rewrite Earea, Ex1, Ey1, Ex2, Ey2, Econf, Efont.
    split; [reflexivity|]. split; [apply max2_ge_l|]. split; [done|].
    split; [done|]. split; [done|]. nra.
Qed.

Lemma adapter_detections_witness :
  let b := BoundingBox_init 0 5 7 65 27 "Intro" (inject_Z 90 / 100)
                            (max2 8 (inject_Z 20 * (8 # 10))) in
  constructed b /\ 8 <= font_size b /\ 30 # 100 < confidence b /\
  exists (data : TessData) (i : nat) (w h : Z),
    Ok tess_word = Ok data /\
    tess_width data !! i = Some w /\ tess_height data !! i = Some h /\
    x2 b - x1 b == inject_Z w /\ y2 b - y1 b == inject_Z h /\
    (x1 b < x2 b <-> (0 < w)%Z) /\ (y1 b < y2 b <-> (0 < h)%Z).
Proof.
  intros b.
  apply (proj1 (adapter_detections (fun _ => Ok tess_word) None 0 [] b)).
  vm_compute. apply list_elem_of_here.
Defined.

(** Both adapters admit a detection whose rectangle has no area. *)
Lemma adapter_zero_area_detection :
  (exists b, b ∈ run_tesseract (fun _ => Ok tess_flat) 0 []
             /\ ~ (x1 b < x2 b /\ y1 b < y2 b) /\ area b == 0) /\
  (exists b, b ∈ run_easyocr (Some (fun _ => Ok [easy_flat])) 0 []
             /\ ~ (x1 b < x2 b /\ y1 b < y2 b) /\ area b == 0).
Proof.
  split.
  - eexists. split; [vm_compute; apply list_elem_of_here|]. simpl. split; [|done].
    intros [H _]. vm_compute in H. discriminate.
  - eexists. split; [vm_compute; apply list_elem_of_here|]. simpl. split; [|done].
    intros [H _]. vm_compute in H. discriminate.
Qed.

(** ** Driver *)

Lemma extract_no_pages env pdf_path w :
  fitz_pages env pdf_path = Ok [] \/ (exists e, fitz_pages env pdf_path = Raise e) ->
  exists w', extract_pdf_pages_fast env pdf_path w = ([], w') /\ files w' = files w.
Proof.
  unfold extract_pdf_pages_fast. intros [->|[e ->]]; eauto.
Qed.

(** C8, on the code: when the renderer yields no page the document is
    abandoned and nothing is written, but [process_single_pdf_fast] returns
    as it does after a success: it only logs.  A batch made of that one
    document ends with exit status 0. *)
Theorem no_pages_returns_normally (env : Env) (pdf_path : Path)
    (output_dir : string) (w : World) :
  fitz_pages env pdf_path = Ok [] \/ (exists e, fitz_pages env pdf_path = Raise e) ->
  exists w',
    process_single_pdf_fast env pdf_path output_dir w = (Returned, w') /\
    files w' = files w /\
    last (log w') = Some (Error_no_pages pdf_path) /\
    (glob_pdf env "/app/input" = [pdf_path] ->
       exists w'', main env w = (0%Z, w'') /\ files w'' = files w).
Proof.
  intros Hno.
  assert (forall out w0, exists w',
            process_single_pdf_fast env pdf_path out w0 = (Returned, w') /\
            files w' = files w0 /\ last (log w') = Some (Error_no_pages pdf_path))
    as Hone.
  { intros out w0. unfold process_single_pdf_fast.
    destruct (extract_no_pages env pdf_path (logged (Info_processing pdf_path) w0) Hno)
      as (w1 & -> & Hfiles).
    eexists. split; [done|]. split; [done|]. simpl. apply last_snoc. }
  destruct (Hone output_dir w) as (w' & Hrun & Hfiles & Hlog).
  exists w'. do 3 (split; [done|]).
  intros Hglob. unfold main. rewrite Hglob. simpl.
  destruct (Hone "/app/output"%string
              (logged (Info_batch 1 (get_cpu_cores env)) w)) as (w1 & -> & Hf1 & _).
  eexists. split; [done|]. done.
Qed.

Lemma no_pages_returns_normally_witness :
  exists w',
    process_single_pdf_fast env_unreadable broken_pdf "/app/output" empty_world
    = (Returned, w') /\
    files w' = files empty_world /\
    last (log w') = Some (Error_no_pages broken_pdf) /\
    (glob_pdf env_unreadable "/app/input" = [broken_pdf] ->
       exists w'', main env_unreadable empty_world = (0%Z, w'')
                   /\ files w'' = files empty_world).
Proof.
  apply (no_pages_returns_normally env_unreadable broken_pdf "/app/output" empty_world).
  right. by eexists.
Defined.

Example unreadable_batch_exit_status : (main env_unreadable empty_world).1 = 0%Z.
Proof. reflexivity. Qed.

(** The other failure path: an exception raised while the document is
    processed ends the process with exit status 1. *)
Example read_only_batch_exit_status : (main env_read_only empty_world).1 = 1%Z.
Proof. reflexivity. Qed.

Lemma consensus_pages_total results_by_page :
  exists all, consensus_pages results_by_page = Ok all.
Proof.
  unfold consensus_pages. generalize (sorted Nat.ltb (keys results_by_page)).
  generalize ([] : list (nat * BoundingBox)). intros acc l. revert acc.
  induction l as [|p l IH]; intros acc; simpl; [eauto|].
  rewrite fast_ensemble_voting_greedy, !bind_Ok. apply IH.
Qed.

(** With at least one page, the only exception comes from opening the output
    file, and it ends the process with exit status 1 and no file written. *)
Lemma open_failure_exits env pdf_path output_dir w pg pages e :
  fitz_pages env pdf_path = Ok (pg :: pages) ->
  open_w env (output_path output_dir pdf_path) = Raise e ->
  exists w', process_single_pdf_fast env pdf_path output_dir w = (SystemExit 1, w')
             /\ files w' = files w.
Proof.
  intros Hpages Hopen. unfold process_single_pdf_fast, extract_pdf_pages_fast.
  rewrite Hpages. cbv zeta.
  destruct (consensus_pages _) as [all|] eqn:Ec.
  2:{ destruct (consensus_pages_total
                  (collect (completions env
                     (heap_next (logged (Info_extracted (length (pg :: pages)))
                                        (logged (Info_processing pdf_path) w)))
                     (as_completed env (submitted (pg :: pages)))))) as [all Hall].
      congruence. }
  rewrite bind_Ok.
  destruct (create_document_outline_eq all) as (tb & _ & ->).
  rewrite bind_Ok, Hopen. simpl. eauto.
Qed.

(** ** Stripped text and the constructor *)

Lemma lstrip_split s :
  exists pre, s = (pre ++ lstrip s)%string /\ all_space pre = true.
Proof.
  induction s as [|c s IH]; simpl.
  { by exists EmptyString. }
  destruct (is_space c) eqn:E.
  - destruct IH as (pre & Hs & Hpre). exists (String c pre). split.
    + rewrite append_cons. by rewrite <- Hs.
    + simpl. by rewrite E.
  - by exists EmptyString.
Qed.

Lemma rstrip_split s :
  exists post, s = (rstrip s ++ post)%string /\ all_space post = true.
Proof.
  induction s as [|c s IH]; simpl.
  { by exists EmptyString. }
  destruct IH as (post & Hs & Hpost).
  destruct (rstrip s) as [|d r] eqn:Er.
  - rewrite append_empty in Hs. subst post. destruct (is_space c) eqn:E.
    + exists (String c s). split; [done|]. simpl. by rewrite E.
    + exists s. by split.
  - exists post. split; [|done]. rewrite append_cons. by rewrite <- Hs.
Qed.

Lemma lstrip_starts s : starts_space (lstrip s) = false.
Proof.
  induction s as [|c s IH]; simpl; [done|].
  destruct (is_space c) eqn:E; [done|]. simpl. done.
Qed.

Lemma rstrip_ends s : ends_space (rstrip s) = false.
Proof.
  induction s as [|c s IH]; simpl; [done|].
  destruct (rstrip s) as [|d r] eqn:Er.
  - destruct (is_space c) eqn:E; simpl; [done|]. done.
  - change (ends_space (String c (String d r))) with (ends_space (String d r)).
    done.
Qed.

Lemma lstrip_id s : starts_space s = false -> lstrip s = s.
Proof. destruct s as [|c s]; simpl; [done|]. by intros ->. Qed.

Lemma rstrip_cons c s :
  rstrip (String c s)
  = match rstrip s with
    | EmptyString => if is_space c then EmptyString else String c EmptyString
    | r => String c r
    end.
Proof. reflexivity. Qed.

Lemma rstrip_id s : ends_space s = false -> rstrip s = s.
Proof.
  induction s as [|c s IH]; [done|].
  destruct s as [|d s'].
  - simpl. by intros ->.
  - change (ends_space (String c (String d s'))) with (ends_space (String d s')).
    intros H. rewrite rstrip_cons, (IH H). done.
Qed.

Lemma rstrip_starts s : starts_space s = false -> starts_space (rstrip s) = false.
Proof.
  destruct s as [|c s]; [done|]. simpl. intros Hc.
  destruct (rstrip s); [by rewrite Hc|done].
Qed.

Lemma strip_idempotent s : strip (strip s) = strip s.
Proof.
  unfold strip.
  rewrite (lstrip_id (rstrip (lstrip s))) by apply rstrip_starts, lstrip_starts.
  apply rstrip_id, rstrip_ends.
Qed.

(** X1: the constructor caches the area of the rectangle it is given and
    stores the stripped text: the stored text neither starts nor ends with
    white space, stripping it again changes nothing, and the given text is
    the stored one between two runs of white space. *)
Theorem constructor_strips_and_caches (o : nat) (bx1 by1 bx2 by2 : Q)
    (t : string) (c f : Q) :
  let b := BoundingBox_init o bx1 by1 bx2 by2 t c f in
  constructed b /\
  area b = (bx2 - bx1) * (by2 - by1) /\
  starts_space (text b) = false /\ ends_space (text b) = false /\
  strip (text b) = text b /\
  exists pre post : string,
    t = (pre ++ text b ++ post)%string /\
    all_space pre = true /\ all_space post = true.
Proof.
  intros b. split; [unfold constructed; reflexivity|]. split; [done|].
  change (text b) with (strip t).
  split; [apply rstrip_starts, lstrip_starts|]. split; [apply rstrip_ends|].
  split; [apply strip_idempotent|].
  destruct (lstrip_split t) as (pre & Ht & Hpre).
  destruct (rstrip_split (lstrip t)) as (post & Hl & Hpost).
  exists pre, post. split; [|done]. unfold strip. by rewrite <- Hl.
Qed.

(** ** More on the overlap ratio *)

Lemma code_intersection_positive a b :
  0 < code_intersection a b <->
  ~ rect_disjoint a b /\ positive_area a /\ positive_area b.
Proof.
  unfold code_intersection, rect_disjoint, positive_area.
  destruct (max2_spec (x1 a) (x1 b)) as [[? ->]|[? ->]];
  destruct (min2_spec (x2 a) (x2 b)) as [[? ->]|[? ->]];
  destruct (max2_spec (y1 a) (y1 b)) as [[? ->]|[? ->]];
  destruct (min2_spec (y2 a) (y2 b)) as [[? ->]|[? ->]];
  match goal with |- context [max2 0 ?w * max2 0 ?h] =>
    destruct (max2_spec 0 w) as [[? ->]|[? ->]];
    destruct (max2_spec 0 h) as [[? ->]|[? ->]]
  end;
  (split; [intros Hpos; try (exfalso; nra); (split; [lra|]); split; lra
          |intros (Hd & [? ?] & [? ?]); try nra; exfalso; apply Hd; lra]).
Qed.

Lemma iou_value_positive_iff a b :
  constructed a -> constructed b ->
  (0 < iou_value a b <-> ~ rect_disjoint a b /\ positive_area a /\ positive_area b).
Proof.
  intros Ha Hb. rewrite <- code_intersection_positive.
  destruct (code_intersection_bounds a b Ha Hb) as [H0 Hpos].
  rewrite iou_value_unfold.
  destruct (edges_apart a b) eqn:Ee.
  { apply edges_apart_true in Ee. split; [lra|].
    intros Hi. apply code_intersection_positive in Hi as [Hd _]. done. }
  destruct (Qeq_bool (code_intersection a b) 0) eqn:Ez; qprops; [lra|].
  destruct (Hpos Ez) as (Hp & Hia & Hib).
  rewrite Qltb_lt by lra. split; [done|]. intros _.
  apply Qlt_shift_div_l; lra.
Qed.

(** X2: on two constructed boxes the overlap ratio is positive exactly when
    the rectangles properly intersect: neither lies to one side of the
    other and both have positive width and height.  A box without positive
    width and height has ratio 0 with every box, itself included. *)
Theorem overlap_ratio_positive_iff (a b : BoundingBox) :
  constructed a -> constructed b ->
  exists r : Q,
    calculate_iou_fast a b = Ok r /\
    (0 < r <-> ~ rect_disjoint a b /\ positive_area a /\ positive_area b) /\
    (~ positive_area a \/ ~ positive_area b -> r == 0).
Proof.
  intros Ha Hb. exists (iou_value a b). split; [apply calculate_iou_fast_value|].
  pose proof (iou_value_positive_iff a b Ha Hb) as Hiff.
  split; [done|]. intros Hdeg.
  destruct (iou_value_constructed a b Ha Hb) as [[Hr _] _].
  destruct (Qlt_le_dec 0 (iou_value a b)) as [Hlt|Hle]; [|lra].
  apply Hiff in Hlt. tauto.
Qed.

Lemma overlap_ratio_positive_iff_witness :
  exists r : Q,
    calculate_iou_fast box_A box_C = Ok r /\
    (0 < r <-> ~ rect_disjoint box_A box_C /\ positive_area box_A /\ positive_area box_C) /\
    (~ positive_area box_A \/ ~ positive_area box_C -> r == 0).
Proof. apply (overlap_ratio_positive_iff box_A box_C); reflexivity. Defined.

(** The intersection fills a rectangle only if the other one contains it. *)
Lemma code_intersection_full a b :
  constructed a -> positive_area a ->
  code_intersection a b == area a ->
  x1 b <= x1 a /\ x2 a <= x2 b /\ y1 b <= y1 a /\ y2 a <= y2 b.
Proof.
  unfold constructed, code_intersection, positive_area. intros Ha [Hx Hy].
  rewrite Ha. clear Ha.
  destruct (max2_spec (x1 a) (x1 b)) as [[? ->]|[? ->]];
  destruct (min2_spec (x2 a) (x2 b)) as [[? ->]|[? ->]];
  destruct (max2_spec (y1 a) (y1 b)) as [[? ->]|[? ->]];
  destruct (min2_spec (y2 a) (y2 b)) as [[? ->]|[? ->]];
  match goal with |- context [max2 0 ?w * max2 0 ?h] =>
    destruct (max2_spec 0 w) as [[? ->]|[? ->]];
    destruct (max2_spec 0 h) as [[? ->]|[? ->]]
  end;
  intros Heq; try (exfalso; nra); repeat split; try lra; nra.
Qed.

(** X3: on two constructed boxes of positive area the overlap ratio is 1
    exactly when the two rectangles are the same. *)
Theorem overlap_ratio_one_iff (a b : BoundingBox) :
  constructed a -> constructed b -> positive_area a -> positive_area b ->
  exists r : Q,
    calculate_iou_fast a b = Ok r /\ (r == 1 <-> same_rectangle a b).
Proof.
  intros Ha Hb Hpa Hpb. exists (iou_value a b).
  split; [apply calculate_iou_fast_value|].
  destruct (iou_value_constructed a b Ha Hb) as (_ & _ & Hn & _).
  split.
  - intros Hone.
    destruct (code_intersection_bounds a b Ha Hb) as [H0 Hpos].
    rewrite iou_value_unfold in Hone.
    destruct (edges_apart a b); [lra|].
    destruct (Qeq_bool (code_intersection a b) 0) eqn:Ez; qprops; [lra|].
    destruct (Hpos Ez) as (Hp & Hia & Hib).
    rewrite Qltb_lt in Hone by lra.
    assert (code_intersection a b == area a + area b - code_intersection a b) as Hu.
    { apply (Qmult_inj_r _ _ (/ (area a + area b - code_intersection a b))).
      - assert (0 < / (area a + area b - code_intersection a b)) as Hinv
          by (apply Qinv_lt_0_compat; lra).
        lra.
      - unfold Qdiv in Hone. rewrite Hone. field. lra. }
    assert (code_intersection a b == area a) as Hfa by lra.
    assert (code_intersection b a == area b) as Hfb
      by (rewrite <- (code_intersection_sym a b); lra).
    destruct (code_intersection_full a b Ha Hpa Hfa) as (? & ? & ? & ?).
    destruct (code_intersection_full b a Hb Hpb Hfb) as (? & ? & ? & ?).
    unfold same_rectangle. repeat split; lra.
  - intros Hs.
    assert (~ rect_disjoint a b) as Hnd.
    { destruct Hs as (? & ? & ? & ?), Hpa. unfold rect_disjoint. lra. }
    pose proof (intersection_area_same a b Hs Hpa Ha) as Hi.
    assert (area b == area a) as Hab.
    { destruct Hs as (E1 & E2 & E3 & E4). unfold constructed in *.
      rewrite Ha, Hb, E1, E2, E3, E4. reflexivity. }
    assert (0 < area a) as Hpos.
    { destruct Hpa. unfold constructed in Ha. rewrite Ha. nra. }
    rewrite (Hn Hnd). unfold union_area. rewrite Hi, Hab. field. lra.
Qed.

Lemma overlap_ratio_one_iff_witness :
  exists r : Q,
    calculate_iou_fast box_A box_C = Ok r /\ (r == 1 <-> same_rectangle box_A box_C).
Proof.
  apply (overlap_ratio_one_iff box_A box_C); try reflexivity; by split.
Defined.

(** ** The adapters, exactly *)

Lemma for_each_number_boxes {A} (body : list BoundingBox * nat -> A ->
                                        result (list BoundingBox * nat))
    (adm : A -> bool) (mk : nat -> A -> BoundingBox) (l : list A) :
  (forall x boxes next, x ∈ l ->
     body (boxes, next) x
     = Ok (if adm x then (boxes ++ [mk next x], S next) else (boxes, next))) ->
  forall boxes next,
    for_each body (boxes, next) l
    = Ok (boxes ++ number_boxes mk next (List.filter adm l),
          (next + length (List.filter adm l))%nat).
Proof.
  induction l as [|x l IH]; intros Hbody boxes next.
  { simpl. by rewrite app_nil_r, Nat.add_0_r. }
  rewrite for_each_cons, Hbody, bind_Ok, filter_cons_bool by apply list_elem_of_here.
  assert (forall y bs nx, y ∈ l ->
            body (bs, nx) y
            = Ok (if adm y then (bs ++ [mk nx y], S nx) else (bs, nx))) as Hl.
  { intros y bs nx Hy. apply Hbody. by apply elem_of_cons; right. }
  destruct (adm x); rewrite (IH Hl); [|done].
  simpl. rewrite <- app_assoc. do 2 f_equal. lia.
Qed.

Lemma for_each_raises {A S} (body : S -> A -> result S) (l : list A) (x : A) :
  x ∈ l -> (forall s, exists e, body s x = Raise e) ->
  forall s, exists e, for_each body s l = Raise e.
Proof.
  intros Hin Hx. induction l as [|y l IH]; intros s; [by apply elem_of_nil in Hin|].
  rewrite for_each_cons. apply elem_of_cons in Hin as [<-|Hin].
  - destruct (Hx s) as [e ->]. by exists e.
  - destruct (body s y) as [s'|e]; [|by exists e]. rewrite bind_Ok. by apply IH.
Qed.

Lemma number_boxes_oid {A} (mk : nat -> A -> BoundingBox) (l : list A) next :
  (forall n x, oid (mk n x) = n) ->
  oid <$> number_boxes mk next l = seq next (length l).
Proof.
  intros Hmk. revert next. induction l as [|x l IH]; intros next; [done|].
  simpl. by rewrite Hmk, IH.
Qed.

Lemma number_boxes_length {A} (mk : nat -> A -> BoundingBox) (l : list A) next :
  length (number_boxes mk next l) = length l.
Proof. revert next. induction l as [|x l IH]; intros next; simpl; [done|]. by rewrite IH. Qed.

Lemma tesseract_row_ok data boxes next i :
  (i < length (tess_text data))%nat -> tess_row_ok data i ->
  tesseract_row data (boxes, next) i
  = Ok (if tess_admitted data i
        then (boxes ++ [tess_box data next i], S next) else (boxes, next)).
Proof.
  intros Hi [[c Hc] Hgeo]. apply lookup_lt_is_Some in Hi as [t Ht].
  unfold tesseract_row, tess_box, getitem. unfold tess_admitted in *.
  rewrite Ht, Hc in *. rewrite !bind_Ok.
  destruct ((1 <? String.length (strip t))%nat && (30 <? c)%Z); [|done].
  destruct (Hgeo eq_refl) as ([x ->] & [y ->] & [w ->] & [h ->]).
  done.
Qed.

Lemma tesseract_row_raises data st i :
  (i < length (tess_text data))%nat -> ~ tess_row_ok data i ->
  exists e, tesseract_row data st i = Raise e.
Proof.
  intros Hi Hbad. apply lookup_lt_is_Some in Hi as [t Ht]. destruct st as [boxes next].
  unfold tesseract_row, getitem. unfold tess_row_ok, tess_admitted in Hbad.
  rewrite Ht in *. rewrite bind_Ok.
  destruct (tess_conf data !! i) as [c|]; [|by eexists]. rewrite bind_Ok.
  destruct ((1 <? String.length (strip t))%nat && (30 <? c)%Z).
  2:{ exfalso. apply Hbad. split; [by eexists|done]. }
  destruct (tess_left data !! i) as [x|]; [|by eexists]. rewrite bind_Ok.
  destruct (tess_top data !! i) as [y|]; [|by eexists]. rewrite bind_Ok.
  destruct (tess_width data !! i) as [w|]; [|by eexists]. rewrite bind_Ok.
  destruct (tess_height data !! i) as [h|]; [|by eexists].
  exfalso. apply Hbad. split; [by eexists|]. intros _. repeat split; by eexists.
Qed.

(** X4: when every row of the Tesseract table has the cells the loop reads,
    [run_tesseract] returns one detection per admitted row (stripped text
    longer than one character, confidence above 30), in row order, built from
    that row and allocated one after the other. *)
Theorem run_tesseract_complete
    (image_to_data : bytes -> result TessData) (alloc : nat) (image_bytes : bytes)
    (data : TessData) :
  image_to_data image_bytes = Ok data ->
  (forall i, (i < length (tess_text data))%nat -> tess_row_ok data i) ->
  run_tesseract image_to_data alloc image_bytes
  = number_boxes (tess_box data) alloc
      (List.filter (tess_admitted data) (seq 0 (length (tess_text data)))).
Proof.
  intros Hdata Hok. unfold run_tesseract, tesseract_boxes. rewrite Hdata, bind_Ok.
  rewrite (for_each_number_boxes _ (tess_admitted data) (tess_box data)).
  { by rewrite bind_Ok. }
  intros i boxes next Hi. apply elem_of_seq in Hi.
  apply tesseract_row_ok; [lia|]. apply Hok. lia.
Qed.

Lemma run_tesseract_complete_witness :
  run_tesseract (fun _ => Ok tess_word) 0 []
  = number_boxes (tess_box tess_word) 0
      (List.filter (tess_admitted tess_word) (seq 0 (length (tess_text tess_word)))).
Proof.
  apply (run_tesseract_complete (fun _ => Ok tess_word) 0 [] tess_word); [done|].
  intros [|i] Hi; [|simpl in Hi; lia].
  split; [by eexists|]. intros _. repeat split; by eexists.
Defined.

(** X5: [run_tesseract] returns the empty list, dropping the detections it
    had already built, when the engine raises or when some row lacks a cell
    the loop reads: its confidence, or a geometry cell of an admitted row. *)
Theorem run_tesseract_failure
    (image_to_data : bytes -> result TessData) (alloc : nat) (image_bytes : bytes) :
  (exists e, image_to_data image_bytes = Raise e) \/
  (exists data i, image_to_data image_bytes = Ok data /\
                  (i < length (tess_text data))%nat /\ ~ tess_row_ok data i) ->
  run_tesseract image_to_data alloc image_bytes = [].
Proof.
  unfold run_tesseract. intros [[e ->]|(data & i & -> & Hi & Hbad)]; [done|].
  rewrite bind_Ok. unfold tesseract_boxes.
  destruct (for_each_raises (tesseract_row data) (seq 0 (length (tess_text data))) i)
    with (s := ([] : list BoundingBox, alloc)) as [e ->]; [| |done].
  - apply elem_of_seq. lia.
  - intros s. by apply tesseract_row_raises.
Qed.

Lemma run_tesseract_failure_witness :
  run_tesseract (fun _ => Ok tess_ragged) 0 [] = [].
Proof.
  apply (run_tesseract_failure (fun _ => Ok tess_ragged) 0 []).
  right. exists tess_ragged, 1%nat. split; [done|]. split; [simpl; lia|].
  intros [[c Hc] _]. discriminate.
Defined.

Lemma min_list_nonempty l : l ≠ [] -> min_list l = Ok (from_Ok 0 (min_list l)).
Proof. by destruct l. Qed.

Lemma max_list_nonempty l : l ≠ [] -> max_list l = Ok (from_Ok 0 (max_list l)).
Proof. by destruct l. Qed.

Lemma easyocr_item_ok boxes next it :
  (easy_admitted it = true -> easy_coords it ≠ []) ->
  easyocr_item (boxes, next) it
  = Ok (if easy_admitted it then (boxes ++ [easy_box next it], S next)
        else (boxes, next)).
Proof.
  intros Hok. unfold easyocr_item, easy_box. fold (easy_admitted it).
  destruct (easy_admitted it); [|done]. specialize (Hok eq_refl).
  assert ((easy_coords it).*1 ≠ []) as Hx by (by destruct (easy_coords it)).
  assert ((easy_coords it).*2 ≠ []) as Hy by (by destruct (easy_coords it)).
  rewrite (min_list_nonempty _ Hx), (min_list_nonempty _ Hy),
          (max_list_nonempty _ Hx), (max_list_nonempty _ Hy).
  by rewrite !bind_Ok.
Qed.

Lemma easyocr_item_raises st it :
  easy_admitted it = true -> easy_coords it = [] ->
  exists e, easyocr_item st it = Raise e.
Proof.
  intros Hadm Hnil. destruct st as [boxes next].
  unfold easyocr_item. fold (easy_admitted it). rewrite Hadm, Hnil. by eexists.
Qed.

(** X6: with the reader initialised and corner points on every admitted
    result, [run_easyocr] returns one detection per admitted result
    (confidence above 0.4, stripped text longer than one character), in the
    order of the engine, spanning the least and greatest corner
    coordinates. *)
Theorem run_easyocr_complete
    (readtext : bytes -> result (list EasyItem)) (alloc : nat) (image_bytes : bytes)
    (results : list EasyItem) :
  readtext image_bytes = Ok results ->
  (forall it, it ∈ results -> easy_admitted it = true -> easy_coords it ≠ []) ->
  run_easyocr (Some readtext) alloc image_bytes
  = number_boxes easy_box alloc (List.filter easy_admitted results).
Proof.
  intros Hres Hok. unfold run_easyocr, easyocr_boxes. rewrite Hres, bind_Ok.
  rewrite (for_each_number_boxes _ easy_admitted easy_box).
  { by rewrite bind_Ok. }
  intros it boxes next Hit. apply easyocr_item_ok. by apply Hok.
Qed.

Lemma run_easyocr_complete_witness :
  run_easyocr (Some (fun _ => Ok [easy_word])) 0 []
  = number_boxes easy_box 0 (List.filter easy_admitted [easy_word]).
Proof.
  apply (run_easyocr_complete (fun _ => Ok [easy_word]) 0 [] [easy_word]); [done|].
  intros it Hit _. apply list_elem_of_singleton in Hit as ->. done.
Defined.

(** X7: [run_easyocr] returns the empty list when the reader of the worker
    is not initialised, when the engine raises, and when some admitted
    result has no corner point (the detections already built are dropped). *)
Theorem run_easyocr_failure
    (reader : option (bytes -> result (list EasyItem))) (alloc : nat)
    (image_bytes : bytes) :
  reader = None \/
  (exists readtext e, reader = Some readtext /\ readtext image_bytes = Raise e) \/
  (exists readtext results it,
     reader = Some readtext /\ readtext image_bytes = Ok results /\
     it ∈ results /\ easy_admitted it = true /\ easy_coords it = []) ->
  run_easyocr reader alloc image_bytes = [].
Proof.
  unfold run_easyocr.
  intros [->|[(rt & e & -> & ->)|(rt & results & it & -> & -> & Hit & Hadm & Hnil)]];
    [done..|].
  rewrite bind_Ok. unfold easyocr_boxes.
  destruct (for_each_raises easyocr_item results it Hit)
    with (s := ([] : list BoundingBox, alloc)) as [e ->]; [|done].
  intros s. by apply easyocr_item_raises.
Qed.

Lemma run_easyocr_failure_witness :
  run_easyocr (Some (fun _ => Ok [easy_word; easy_no_corners])) 0 [] = [].
Proof.
  apply (run_easyocr_failure (Some (fun _ => Ok [easy_word; easy_no_corners])) 0 []).
  right. right. eexists _, [easy_word; easy_no_corners], easy_no_corners.
  split; [done|]. split; [done|]. split; [|done].
  apply list_elem_of_further, list_elem_of_here.
Defined.

Lemma numbered_from_snoc alloc boxes next b :
  numbered_from alloc (boxes, next) -> oid b = next ->
  numbered_from alloc (boxes ++ [b], S next).
Proof.
  unfold numbered_from. simpl. intros [Hoid ->] Hb.
  rewrite fmap_app, length_app, seq_app, Hoid. simpl. rewrite Hb.
  split; [done|lia].
Qed.

Lemma tesseract_row_numbered alloc data st i st' :
  numbered_from alloc st -> tesseract_row data st i = Ok st' -> numbered_from alloc st'.
Proof.
  destruct st as [boxes next]. intros Hst. unfold tesseract_row.
  destruct (getitem (tess_text data) i) as [t|]; [|done]. rewrite bind_Ok.
  destruct (getitem (tess_conf data) i) as [c|]; [|done]. rewrite bind_Ok.
  destruct (_ && _); [|by intros [= <-]].
  destruct (getitem (tess_left data) i) as [x|]; [|done]. rewrite bind_Ok.
  destruct (getitem (tess_top data) i) as [y|]; [|done]. rewrite bind_Ok.
  destruct (getitem (tess_width data) i) as [w|]; [|done]. rewrite bind_Ok.
  destruct (getitem (tess_height data) i) as [h|]; [|done]. rewrite bind_Ok.
  change (truediv (inject_Z c) 100) with (Ok (inject_Z c / 100)). rewrite bind_Ok.
  intros [= <-]. by apply numbered_from_snoc.
Qed.

Lemma easyocr_item_numbered alloc st it st' :
  numbered_from alloc st -> easyocr_item st it = Ok st' -> numbered_from alloc st'.
Proof.
  destruct st as [boxes next]. intros Hst. unfold easyocr_item.
  destruct (_ && _); [|by intros [= <-]].
  destruct (min_list (easy_coords it).*1) as [bx1|]; [|done]. rewrite bind_Ok.
  destruct (min_list (easy_coords it).*2) as [by1|]; [|done]. rewrite bind_Ok.
  destruct (max_list (easy_coords it).*1) as [bx2|]; [|done]. rewrite bind_Ok.
  destruct (max_list (easy_coords it).*2) as [by2|]; [|done]. rewrite bind_Ok.
  intros [= <-]. by apply numbered_from_snoc.
Qed.

Lemma run_tesseract_oids image_to_data alloc image_bytes :
  let boxes := run_tesseract image_to_data alloc image_bytes in
  oid <$> boxes = seq alloc (length boxes).
Proof.
  unfold run_tesseract. destruct (image_to_data image_bytes) as [data|]; [|done].
  rewrite bind_Ok. unfold tesseract_boxes.
  destruct (for_each _ _ _) as [st|] eqn:E; [|done]. rewrite bind_Ok.
  revert E. apply (for_each_invariant (numbered_from alloc) (tesseract_row data)).
  - intros s i s'. apply tesseract_row_numbered.
  - split; [done|]. simpl. lia.
Qed.

Lemma run_easyocr_oids reader alloc image_bytes :
  let boxes := run_easyocr reader alloc image_bytes in
  oid <$> boxes = seq alloc (length boxes).
Proof.
  unfold run_easyocr. destruct reader as [readtext|]; [|done].
  destruct (readtext image_bytes) as [results|]; [|done].
  rewrite bind_Ok. unfold easyocr_boxes.
  destruct (for_each _ _ _) as [st|] eqn:E; [|done]. rewrite bind_Ok.
  revert E. apply (for_each_invariant (numbered_from alloc) easyocr_item).
  - intros s i s'. apply easyocr_item_numbered.
  - split; [done|]. simpl. lia.
Qed.

(** X8: whatever the engine returns, the detections of one adapter call are
    distinct objects, allocated one after the other from [alloc] on. *)
Theorem adapter_identities
    (image_to_data : bytes -> result TessData)
    (reader : option (bytes -> result (list EasyItem)))
    (alloc : nat) (image_bytes : bytes) :
  let t := run_tesseract image_to_data alloc image_bytes in
  let e := run_easyocr reader alloc image_bytes in
  oid <$> t = seq alloc (length t) /\ NoDup (oid <$> t) /\
  oid <$> e = seq alloc (length e) /\ NoDup (oid <$> e).
Proof.
  intros t e.
  pose proof (run_tesseract_oids image_to_data alloc image_bytes) as Ht.
  pose proof (run_easyocr_oids reader alloc image_bytes) as He.
  fold t in Ht. fold e in He. cbv zeta in Ht, He.
  repeat split; try done.
  - rewrite Ht. apply NoDup_seq.
  - rewrite He. apply NoDup_seq.
Qed.

(** ** More on the ensemble voting *)

Lemma greedy_clusters_members {A} (ov : A -> A -> bool) (l : list A) c x :
  c ∈ greedy_clusters ov l -> x ∈ members c -> x ∈ l.
Proof.
  intros Hc Hx. rewrite <- (greedy_clusters_partition ov l).
  apply elem_of_concat. exists (members c). split; [|done].
  apply list_elem_of_fmap. eauto.
Qed.

Lemma filter_all_false {A} (f : A -> bool) (l : list A) :
  Forall (fun x => f x = false) l -> List.filter f l = [].
Proof.
  induction 1 as [|x l Hx _ IH]; [done|]. by rewrite filter_cons_bool, Hx.
Qed.

Lemma filter_all_true {A} (f : A -> bool) (l : list A) :
  Forall (fun x => f x = true) l -> List.filter f l = l.
Proof.
  induction 1 as [|x l Hx _ IH]; [done|]. by rewrite filter_cons_bool, Hx, IH.
Qed.

(** Members overlap their seed; later clusters hold nothing that overlaps an
    earlier seed. *)
Lemma greedy_clusters_separated {A} (ov : A -> A -> bool) (l : list A) :
  Forall (fun c => Forall (fun y => ov c.1 y = true) c.2) (greedy_clusters ov l) /\
  ForallOrdPairs (fun c c' => Forall (fun x => ov c.1 x = false) (members c'))
                 (greedy_clusters ov l).
Proof.
  remember (length l) as n eqn:Hn. revert l Hn.
  induction n as [n IH] using lt_wf_ind. intros l Hn.
  destruct l as [|x l].
  { rewrite greedy_clusters_nil. split; constructor. }
  rewrite greedy_clusters_cons.
  destruct (IH (length (List.filter (fun y => negb (ov x y)) l))) with
    (l := List.filter (fun y => negb (ov x y)) l) as [Hin Hord]; [|done|].
  { pose proof (filter_length_le (fun y => negb (ov x y)) l). simpl in Hn. lia. }
  split.
  - constructor; [|done]. apply Forall_forall. intros y Hy.
    by apply elem_of_filter_bool in Hy as [_ ?].
  - constructor; [|done]. apply List.Forall_forall. intros c Hc.
    apply Forall_forall. intros y Hy. apply list_elem_of_In in Hc.
    pose proof (greedy_clusters_members _ _ _ _ Hc Hy) as Hyl.
    apply elem_of_filter_bool in Hyl as [_ Hyl]. by apply negb_true_iff in Hyl.
Qed.

(** X9: in the clusters whose representatives [fast_ensemble_voting]
    returns, every member other than the seed has an overlap ratio with the
    seed above the threshold, and no detection of a later cluster has an
    overlap ratio above the threshold with the seed of an earlier one. *)
Theorem consensus_clusters_separated
    (ocr_results : pydict string (list BoundingBox)) (iou_threshold : Q) :
  let clusters :=
    greedy_clusters (overlaps iou_threshold) (concat (values ocr_results)) in
  fast_ensemble_voting ocr_results iou_threshold = Ok (representative <$> clusters) /\
  Forall (fun c => Forall (fun y => iou_threshold < iou_value c.1 y) c.2) clusters /\
  ForallOrdPairs
    (fun c c' => Forall (fun x => iou_value c.1 x <= iou_threshold) (members c'))
    clusters.
Proof.
  intros clusters. split; [apply fast_ensemble_voting_greedy|].
  destruct (greedy_clusters_separated (overlaps iou_threshold)
              (concat (values ocr_results))) as [Hin Hord].
  fold clusters in Hin, Hord. split.
  - eapply Forall_impl; [exact Hin|]. intros c Hc.
    eapply Forall_impl; [exact Hc|]. intros y Hy. by apply Qltb_true.
  - clear Hin. induction Hord as [|c cs Hc Hcs IH]; constructor; [|done].
    eapply List.Forall_impl; [|exact Hc]. intros c' Hc'.
    eapply Forall_impl; [exact Hc'|]. intros y Hy. by apply Qltb_false.
Qed.

Lemma greedy_clusters_singletons {A} (ov : A -> A -> bool) (l : list A) :
  ForallOrdPairs (fun a b => ov a b = false) l ->
  greedy_clusters ov l = (fun x => (x, [])) <$> l.
Proof.
  induction 1 as [|x l Hx Hl IH]; [by rewrite greedy_clusters_nil|].
  rewrite greedy_clusters_cons, fmap_cons, filter_all_false by done.
  rewrite filter_all_true, IH; [done|].
  eapply Forall_impl; [exact Hx|]. intros y Hy. simpl in Hy. by rewrite Hy.
Qed.

(** X10: when no detection of the flattened input has an overlap ratio above
    the threshold with a later one, [fast_ensemble_voting] returns the
    flattened input unchanged. *)
Theorem consensus_keeps_separate_detections
    (ocr_results : pydict string (list BoundingBox)) (iou_threshold : Q) :
  ForallOrdPairs
    (fun a b => exists r, calculate_iou_fast a b = Ok r /\ r <= iou_threshold)
    (concat (values ocr_results)) ->
  fast_ensemble_voting ocr_results iou_threshold = Ok (concat (values ocr_results)).
Proof.
  intros Hsep. rewrite fast_ensemble_voting_greedy, greedy_clusters_singletons.
  - rewrite <- list_fmap_compose. f_equal. apply list_fmap_id.
  - induction Hsep as [|a l Ha Hl IH]; constructor; [|done].
    eapply List.Forall_impl; [|exact Ha]. intros b (r & Hr & Hle).
    unfold overlaps, iou_value. rewrite Hr. by apply Qltb_ge.
Qed.

Lemma consensus_keeps_separate_detections_witness :
  fast_ensemble_voting [("tesseract"%string, [box_A]); ("easyocr"%string, [box_B])]
                       default_iou_threshold
  = Ok [box_A; box_B].
Proof.
  apply (consensus_keeps_separate_detections
           [("tesseract"%string, [box_A]); ("easyocr"%string, [box_B])]
           default_iou_threshold).
  simpl. repeat constructor. exists 0. split; [reflexivity|]. vm_compute. discriminate.
Defined.

Lemma first_max_bound {A} (key : A -> Q) (l : list A) r x :
  first_max key l r -> x ∈ l -> key x <= key r.
Proof.
  intros (k & _ & Hall & _) Hx. apply list_elem_of_lookup in Hx as [j Hj]. eauto.
Qed.

Lemma first_max_member {A} (key : A -> Q) (l : list A) r :
  first_max key l r -> r ∈ l.
Proof. intros (k & Hk & _). by eapply list_elem_of_lookup_2. Qed.

(** X11: every detection of the flattened input belongs to a cluster whose
    representative is returned, and that representative has a confidence at
    least as high. *)
Theorem consensus_covers_input
    (ocr_results : pydict string (list BoundingBox)) (iou_threshold : Q)
    (b : BoundingBox) :
  b ∈ concat (values ocr_results) ->
  exists reps c,
    fast_ensemble_voting ocr_results iou_threshold = Ok reps /\
    c ∈ greedy_clusters (overlaps iou_threshold) (concat (values ocr_results)) /\
    b ∈ members c /\
    representative c ∈ reps /\ representative c ∈ members c /\
    confidence b <= confidence (representative c).
Proof.
  intros Hb. rewrite fast_ensemble_voting_greedy.
  rewrite <- (greedy_clusters_partition (overlaps iou_threshold)) in Hb.
  apply elem_of_concat in Hb as (ms & Hms & Hb).
  apply list_elem_of_fmap in Hms as (c & -> & Hc).
  eexists _, c. split; [done|]. split; [done|]. split; [done|].
  pose proof (max_from_first_max confidence c.2 c.1) as Hmax.
  fold (representative c) in Hmax. fold (members c) in Hmax.
  split; [apply list_elem_of_fmap; eauto|].
  split; [by eapply first_max_member|]. by eapply first_max_bound.
Qed.

Lemma consensus_covers_input_witness :
  exists reps c,
    fast_ensemble_voting page_D default_iou_threshold = Ok reps /\
    c ∈ greedy_clusters (overlaps default_iou_threshold) (concat (values page_D)) /\
    det_D1 ∈ members c /\
    representative c ∈ reps /\ representative c ∈ members c /\
    confidence det_D1 <= confidence (representative c).
Proof.
  apply (consensus_covers_input page_D default_iou_threshold det_D1).
  apply list_elem_of_here.
Defined.

Lemma pick_submseteq {A} (cs : list (list A)) (xs : list A) :
  Forall2 (fun c x => x ∈ c) cs xs -> xs ⊆+ concat cs.
Proof.
  induction 1 as [|c x cs xs Hx _ IH]; [done|].
  apply elem_of_Permutation in Hx as [c' Hc]. simpl. rewrite Hc. simpl.
  apply submseteq_skip. by apply submseteq_inserts_l.
Qed.

(** X12: the returned detections are detections of the flattened input,
    each position used at most once; when the input objects are pairwise
    distinct, so are the returned ones. *)
Theorem consensus_submultiset
    (ocr_results : pydict string (list BoundingBox)) (iou_threshold : Q) :
  exists reps,
    fast_ensemble_voting ocr_results iou_threshold = Ok reps /\
    reps ⊆+ concat (values ocr_results) /\
    (NoDup (oid <$> concat (values ocr_results)) -> NoDup (oid <$> reps)).
Proof.
  rewrite fast_ensemble_voting_greedy. eexists. split; [done|].
  assert (representative <$> greedy_clusters (overlaps iou_threshold)
                                             (concat (values ocr_results))
          ⊆+ concat (values ocr_results)) as Hsub.
  { rewrite <- (greedy_clusters_partition (overlaps iou_threshold)
                  (concat (values ocr_results))) at 2.
    apply pick_submseteq, Forall2_fmap, Forall_Forall2_diag, Forall_forall.
    intros c _. eapply first_max_member, (max_from_first_max confidence c.2 c.1). }
  split; [done|]. intros Hnd.
  apply (fmap_submseteq oid) in Hsub.
  apply submseteq_Permutation in Hsub as [k Hk]. rewrite Hk in Hnd.
  by apply NoDup_app in Hnd as [? _].
Qed.

(** ** More on the outline builder *)

Lemma insert_sorted_StronglySorted {A} (lt : A -> A -> bool) (R : A -> A -> Prop)
    (x : A) (l : list A) :
  Transitive R ->
  (forall a b, lt a b = true -> R a b) ->
  (forall a b, lt a b = false -> R b a) ->
  StronglySorted R l -> StronglySorted R (insert_sorted lt x l).
Proof.
  intros Htrans Hlt Hge. induction 1 as [|y l Hs IH Hy]; simpl.
  { repeat constructor. }
  destruct (lt y x) eqn:E.
  - constructor; [done|]. rewrite insert_sorted_perm. constructor; [by apply Hlt|done].
  - constructor; [by constructor|]. constructor; [by apply Hge|].
    eapply Forall_impl; [exact Hy|]. intros z Hz. simpl in Hz.
    etrans; [by apply Hge|done].
Qed.

Lemma sorted_StronglySorted {A} (lt : A -> A -> bool) (R : A -> A -> Prop) (l : list A) :
  Transitive R ->
  (forall a b, lt a b = true -> R a b) ->
  (forall a b, lt a b = false -> R b a) ->
  StronglySorted R (sorted lt l).
Proof.
  intros ? ? ?. induction l as [|x l IH]; simpl; [constructor|].
  by apply insert_sorted_StronglySorted.
Qed.

Lemma key_le_trans : Transitive key_le.
Proof.
  intros a b c [H1|[H1 H1']] [H2|[H2 H2']]; unfold key_le;
    [left; lia | left; lia | left; lia | right; split; [lia|lra]].
Qed.

Lemma key_lt_true a b : key_lt a b = true -> key_le a b.
Proof.
  unfold key_lt, key_le. destruct (a.1 =? b.1)%nat eqn:E; simpl.
  - apply Nat.eqb_eq in E. intros H. apply Qltb_true in H. right. split; [done|lra].
  - intros H. apply Nat.ltb_lt in H. by left.
Qed.

Lemma key_lt_false a b : key_lt a b = false -> key_le b a.
Proof.
  unfold key_lt, key_le. destruct (a.1 =? b.1)%nat eqn:E; simpl.
  - apply Nat.eqb_eq in E. intros H. apply Qltb_false in H. right. by split.
  - apply Nat.eqb_neq in E. intros H. apply Nat.ltb_ge in H. left. lia.
Qed.

Lemma sorted_boxes_sorted (l : list (nat * BoundingBox)) :
  StronglySorted key_le (sorted_boxes l).
Proof.
  apply sorted_StronglySorted;
    auto using key_le_trans, key_lt_true, key_lt_false.
Qed.

(** X13: the detections are classified in the order of the sort keys: the
    sorted list holds the detections of the input, each as often as the
    input, by ascending page index and, within a page, by ascending top
    edge. *)
Theorem sorted_boxes_page_then_top (l : list (nat * BoundingBox)) :
  sorted_boxes l ≡ₚ l /\ StronglySorted key_le (sorted_boxes l).
Proof. split; [apply sorted_perm | apply sorted_boxes_sorted]. Qed.

Lemma outline_step_classify tb h1 h2 acc pb :
  outline_step tb h1 h2 acc pb
  = match classify tb h1 h2 pb with
    | Some e => acc ++ [e]
    | None => acc
    end.
Proof.
  destruct pb as [p b]. unfold outline_step, classify. simpl.
  destruct (is_title b tb); [done|]. rewrite outline_step_candidate.
  destruct (heading_candidateb b); simpl; [|done].
  destruct (Qle_bool h1 (font_size b)); [done|].
  by destruct (Qle_bool h2 (font_size b)).
Qed.

Lemma outline_loop_classify tb h1 h2 l :
  forall acc,
    foldl (outline_step tb h1 h2) acc l = acc ++ omap (classify tb h1 h2) l.
Proof.
  induction l as [|pb l IH]; intros acc; simpl.
  { by rewrite app_nil_r. }
  rewrite IH, outline_step_classify.
  destruct (classify tb h1 h2 pb); [|done]. by rewrite <- app_assoc.
Qed.

Lemma classify_Some tb h1 h2 pb e :
  classify tb h1 h2 pb = Some e ->
  is_title pb.2 tb = false /\ heading_candidate pb.2 /\
  entry_text e = text pb.2 /\ page e = pb.1 /\
  (level e = H1 /\ h1 <= font_size pb.2
   \/ level e = H2 /\ font_size pb.2 < h1 /\ h2 <= font_size pb.2).
Proof.
  unfold classify. destruct (is_title pb.2 tb); [done|].
  destruct (heading_candidateb pb.2) eqn:Ec; simpl; [|done].
  apply heading_candidateb_spec in Ec.
  destruct (Qle_bool h1 (font_size pb.2)) eqn:E1.
  { intros [= <-]. qprops. simpl. auto 10. }
  destruct (Qle_bool h2 (font_size pb.2)) eqn:E2; [|done].
  intros [= <-]. qprops. simpl. auto 10.
Qed.

Lemma omap_pages_sorted tb h1 h2 (l : list (nat * BoundingBox)) :
  StronglySorted key_le l ->
  StronglySorted le (page <$> omap (classify tb h1 h2) l).
Proof.
  induction 1 as [|pb l Hs IH Hpb]; simpl; [constructor|].
  destruct (classify tb h1 h2 pb) as [e|] eqn:E; [|done].
  rewrite fmap_cons. constructor; [done|].
  apply classify_Some in E as (_ & _ & _ & -> & _).
  apply Forall_fmap, Forall_forall. intros e' He'.
  apply list_elem_of_omap in He' as (pb' & Hin & Hc).
  apply classify_Some in Hc as (_ & _ & _ & Hp & _). simpl. rewrite Hp.
  eapply Forall_forall in Hpb; [|done]. destruct Hpb as [?|[? _]]; lia.
Qed.

Lemma omap_length_le {A B} (f : A -> option B) (l : list A) :
  (length (omap f l) <= length l)%nat.
Proof.
  induction l as [|x l IH]; [simpl; lia|].
  change (omap f (x :: l))
    with (match f x with Some y => y :: omap f l | None => omap f l end).
  destruct (f x); simpl; lia.
Qed.

(** The outline, whatever the thresholds are. *)
Lemma create_document_outline_classify l :
  exists tb, title_box l = Ok tb /\
    create_document_outline l
    = Ok {| title := document_title tb;
            outline := match thresholds l with
                       | None => []
                       | Some (h1, h2) => omap (classify tb h1 h2) (sorted_boxes l)
                       end |}.
Proof.
  destruct (create_document_outline_eq l) as (tb & Htb & ->). exists tb.
  split; [done|]. do 2 f_equal. destruct (thresholds l) as [[h1 h2]|]; [|done].
  apply (outline_loop_classify tb h1 h2 _ []).
Qed.

(** X14: whatever the input, the entries of the outline come by ascending
    page number; each one is the entry of a detection of the input on that
    page, other than the title object, whose text has 3 to 120 characters,
    no final period and at most 10 spaces; and there are no more entries
    than detections. *)
Theorem outline_entries_ordered (l : list (nat * BoundingBox)) :
  exists (res : OutlineResult) (tb : option BoundingBox),
    create_document_outline l = Ok res /\ title_box l = Ok tb /\
    StronglySorted le (page <$> outline res) /\
    (forall e, e ∈ outline res ->
       exists b, (page e, b) ∈ l /\ is_title b tb = false /\
                 entry_text e = text b /\ heading_candidate b) /\
    (length (outline res) <= length l)%nat.
Proof.
  destruct (create_document_outline_classify l) as (tb & Htb & ->).
  eexists _, tb. split; [done|]. split; [done|]. simpl.
  destruct (thresholds l) as [[h1 h2]|].
  2:{ split; [constructor|]. split; [|simpl; lia].
      intros e He. by apply elem_of_nil in He. }
  pose proof (sorted_perm key_lt l) as Hperm. fold (sorted_boxes l) in Hperm.
  pose proof (sorted_boxes_sorted l) as Hsorted.
  split; [by apply omap_pages_sorted|]. split.
  - intros e He. apply list_elem_of_omap in He as ([p b] & Hin & Hc).
    apply classify_Some in Hc as (Ht & Hcand & Htext & Hpage & _). simpl in *.
    exists b. rewrite Hpage, <- Hperm. done.
  - rewrite <- Hperm at 2. apply omap_length_le.
Qed.

(** X15: when every font size is positive, each entry of the outline comes
    from a detection strictly larger than the median font size; so a
    document whose detections all have one font size has an empty outline. *)
Theorem headings_above_median (l : list (nat * BoundingBox)) :
  (forall p b, (p, b) ∈ l -> 0 < font_size b) ->
  exists res : OutlineResult,
    create_document_outline l = Ok res /\
    (forall e, e ∈ outline res ->
       exists b m, (page e, b) ∈ l /\ entry_text e = text b /\
                   median_size (all_font_sizes l) = Ok m /\ m < font_size b) /\
    ((exists f, forall p b, (p, b) ∈ l -> font_size b == f) -> outline res = []).
Proof.
  intros Hpos. destruct (create_document_outline_classify l) as (tb & Htb & ->).
  eexists. split; [done|]. simpl.
  pose proof (thresholds_median l) as Hthr.
  destruct (thresholds l) as [[h1 h2]|].
  2:{ split; [|done]. intros e He. by apply elem_of_nil in He. }
  destruct Hthr as (m & Hm & -> & ->).
  assert (exists p0 b0, (p0, b0) ∈ l /\ m = font_size b0) as (p0 & b0 & Hin0 & Hm0).
  { apply median_size_elem, elem_of_all_font_sizes in Hm as (p & b & ? & _ & ?). eauto. }
  assert (0 < m) as Hmpos by (rewrite Hm0; eauto).
  assert (forall e, e ∈ omap (classify tb (m * h1_factor) (m * h2_factor)) (sorted_boxes l) ->
            exists b, (page e, b) ∈ l /\ entry_text e = text b /\ m < font_size b)
    as Hentries.
  { intros e He. apply list_elem_of_omap in He as ([p b] & Hin & Hc).
    apply classify_Some in Hc as (_ & _ & Htext & Hpage & Hlevel). simpl in *.
    exists b. unfold sorted_boxes in Hin. rewrite sorted_perm in Hin. rewrite Hpage.
    split; [done|]. split; [done|].
    unfold h1_factor, h2_factor in Hlevel. destruct Hlevel as [[_ ?]|(_ & _ & ?)]; nra. }
  split.
  - intros e He. destruct (Hentries e He) as (b & ? & ? & ?). by exists b, m.
  - intros [f Hf].
    destruct (omap _ _) as [|e es] eqn:E; [done|].
    destruct (Hentries e) as (b & Hin & _ & Hlt); [apply list_elem_of_here|].
    pose proof (Hf _ _ Hin) as Hb. pose proof (Hf _ _ Hin0) as Hb0.
    rewrite <- Hm0 in Hb0. lra.
Qed.

Lemma headings_above_median_witness :
  exists res : OutlineResult,
    create_document_outline doc_boxes = Ok res /\
    (forall e, e ∈ outline res ->
       exists b m, (page e, b) ∈ doc_boxes /\ entry_text e = text b /\
                   median_size (all_font_sizes doc_boxes) = Ok m /\ m < font_size b) /\
    ((exists f, forall p b, (p, b) ∈ doc_boxes -> font_size b == f) -> outline res = []).
Proof.
  apply (headings_above_median doc_boxes).
  intros p b Hin. unfold doc_boxes in Hin.
  repeat (apply elem_of_cons in Hin as [Hin|Hin];
          [injection Hin as -> ->; vm_compute; reflexivity|]).
  by apply elem_of_nil in Hin.
Defined.

(** ** More on the dispatcher *)

Section Dict_more.
Context {K V : Type} `{EqDecision K}.

Lemma get_setitem_eq (d : pydict K V) k v : get (setitem d k v) k = Some v.
Proof.
  induction d as [|[k' v'] d IH]; simpl.
  { by destruct (decide (k = k)). }
  destruct (decide (k' = k)) as [->|Hne]; simpl.
  - by destruct (decide (k = k)).
  - by destruct (decide (k' = k)).
Qed.

Lemma get_setitem_ne (d : pydict K V) k k' v :
  k ≠ k' -> get (setitem d k v) k' = get d k'.
Proof.
  intros Hne. induction d as [|[k0 v0] d IH]; simpl.
  { by destruct (decide (k = k')). }
  destruct (decide (k0 = k)) as [->|Hk0]; simpl.
  - by destruct (decide (k = k')).
  - by destruct (decide (k0 = k')).
Qed.

Lemma elem_of_keys_get (d : pydict K V) k : k ∈ keys d <-> is_Some (get d k).
Proof.
  unfold keys. induction d as [|[k0 v0] d IH]; simpl.
  { rewrite elem_of_nil. split; [done|]. by intros [? ?]. }
  rewrite elem_of_cons, IH. destruct (decide (k0 = k)) as [->|Hne].
  - split; [by eexists|by left].
  - split; [intros [?|?]; [congruence|done] | by right].
Qed.

Lemma keys_setitem_in (d : pydict K V) k v :
  k ∈ keys d -> keys (setitem d k v) = keys d.
Proof.
  unfold keys. induction d as [|[k0 v0] d IH]; intros Hin.
  { by apply elem_of_nil in Hin. }
  simpl. destruct (decide (k0 = k)) as [->|Hne]; [done|].
  rewrite fmap_cons. f_equal. apply IH.
  rewrite fmap_cons in Hin. apply elem_of_cons in Hin as [?|?]; [|done]. simpl in *.
  congruence.
Qed.

Lemma keys_setitem_notin (d : pydict K V) k v :
  k ∉ keys d -> keys (setitem d k v) = keys d ++ [k].
Proof.
  unfold keys. induction d as [|[k0 v0] d IH]; intros Hout; [done|].
  rewrite fmap_cons in Hout. apply not_elem_of_cons in Hout as [Hne Hout].
  simpl in *. destruct (decide (k0 = k)) as [->|_]; [done|].
  rewrite fmap_cons. simpl. f_equal. by apply IH.
Qed.

Lemma keys_setitem_NoDup (d : pydict K V) k v :
  NoDup (keys d) -> NoDup (keys (setitem d k v)).
Proof.
  intros Hnd. destruct (decide (k ∈ keys d)) as [Hin|Hout].
  { by rewrite keys_setitem_in. }
  rewrite keys_setitem_notin by done.
  apply NoDup_app. split; [done|]. split; [|apply NoDup_singleton].
  intros x Hx Hk. apply list_elem_of_singleton in Hk as ->. done.
Qed.

Lemma elem_of_keys_setitem (d : pydict K V) k v k' :
  k' ∈ keys (setitem d k v) <-> k' = k \/ k' ∈ keys d.
Proof.
  destruct (decide (k ∈ keys d)) as [Hin|Hout].
  - rewrite keys_setitem_in by done. split; [auto|]. by intros [->|?].
  - rewrite keys_setitem_notin, elem_of_app, list_elem_of_singleton by done. tauto.
Qed.
End Dict_more.

Lemma collect_keys_NoDup {V} (cs : list (nat * string * V)) :
  NoDup (keys (collect cs)).
Proof.
  unfold collect.
  assert (forall d : pydict nat (pydict string V),
            NoDup (keys d) -> NoDup (keys (foldl collect_step d cs))) as Hgen.
  { induction cs as [|[[p e] v] cs IH]; intros d Hd; simpl; [done|].
    apply IH. by apply keys_setitem_NoDup. }
  apply Hgen. constructor.
Qed.

Lemma collect_keys_elem {V} (cs : list (nat * string * V)) p :
  p ∈ keys (collect cs) <-> exists c, c ∈ cs /\ c.1.1 = p.
Proof.
  unfold collect.
  assert (forall d : pydict nat (pydict string V),
            p ∈ keys (foldl collect_step d cs)
            <-> p ∈ keys d \/ exists c, c ∈ cs /\ c.1.1 = p) as Hgen.
  { induction cs as [|[[p' e] v] cs IH]; intros d; simpl.
    { split; [auto|]. intros [?|(c & Hc & _)]; [done|]. by apply elem_of_nil in Hc. }
    rewrite IH, elem_of_keys_setitem. split.
    - intros [[->|Hin]|(c & Hc & Hp)].
      + right. exists (p', e, v). split; [apply list_elem_of_here|done].
      + by left.
      + right. exists c. split; [by apply list_elem_of_further|done].
    - intros [Hin|(c & Hc & Hp)]; [auto|].
      apply elem_of_cons in Hc as [->|Hc]; [left; left; by simpl in Hp|].
      right. eauto. }
  rewrite Hgen. split; [|auto]. intros [Hin|?]; [|done]. by apply elem_of_nil in Hin.
Qed.

Lemma routed_get {V} (d : pydict nat (pydict string V)) p e :
  routed (dict_to_map d) (p, e) = get d p ≫= fun inner => get inner e.
Proof.
  unfold routed, dict_to_map. simpl. rewrite lookup_fmap, list_to_map_get.
  destruct (get d p) as [inner|]; simpl; [|done]. apply list_to_map_get.
Qed.

Lemma elem_of_submitted_from (pages : list bytes) k p e pg :
  (p, e, pg) ∈ flat_map (fun ib : nat * bytes =>
                  [(ib.1, "tesseract"%string, ib.2); (ib.1, "easyocr"%string, ib.2)])
               (enumerate pages k)
  <-> (p, pg) ∈ enumerate pages k /\ (e = "tesseract"%string \/ e = "easyocr"%string).
Proof.
  rewrite list_elem_of_In, in_flat_map. split.
  - intros ([i pg'] & Hin & Hjob). apply list_elem_of_In in Hin. simpl in Hjob.
    destruct Hjob as [[= -> <- ->]|[[= -> <- ->]|[]]]; auto.
  - intros [Hin He]. exists (p, pg). split; [by apply list_elem_of_In|].
    simpl. destruct He as [->| ->]; auto.
Qed.

Lemma elem_of_completed {V} (result : nat * string * bytes -> V) pages p e v :
  (p, e, v) ∈ completed result pages
  <-> exists pg, pages !! p = Some pg
                 /\ (e = "tesseract"%string \/ e = "easyocr"%string)
                 /\ v = result (p, e, pg).
Proof.
  unfold completed, submitted. rewrite list_elem_of_fmap. split.
  - intros ([[p' e'] pg] & [= -> -> ->] & Hin). simpl.
    apply elem_of_submitted_from in Hin as [Hin He].
    apply elem_of_enumerate in Hin as [_ Hin]. rewrite Nat.sub_0_r in Hin. eauto.
  - intros (pg & Hpg & He & ->). exists (p, e, pg). split; [done|].
    apply elem_of_submitted_from. split; [|done].
    apply elem_of_enumerate. split; [lia|by rewrite Nat.sub_0_r].
Qed.

Lemma seq_StronglySorted k n : StronglySorted le (seq k n).
Proof.
  revert k. induction n as [|n IH]; intros k; simpl; constructor; [apply IH|].
  apply Forall_forall. intros x Hx. apply elem_of_seq in Hx. lia.
Qed.

(** X16: whatever the order in which the jobs arrive, [results_by_page] has
    the page indices 0 to n-1 as its keys, so that the pages are then taken
    in that order, and holds under page [p] and engine [e] the result of the
    job submitted for them, and nothing else. *)
Theorem collect_complete {V : Type} (result : nat * string * bytes -> V)
    (page_bytes_list : list bytes) (arrivals : list (nat * string * V)) :
  arrivals ≡ₚ completed result page_bytes_list ->
  sorted Nat.ltb (keys (collect arrivals)) = seq 0 (length page_bytes_list) /\
  forall p e v,
    (get (collect arrivals) p ≫= fun inner => get inner e) = Some v
    <-> exists pg, page_bytes_list !! p = Some pg
                   /\ (e = "tesseract"%string \/ e = "easyocr"%string)
                   /\ v = result (p, e, pg).
Proof.
  intros Hperm. split.
  - apply (StronglySorted_unique le).
    + apply sorted_StronglySorted.
      * intros x y z. lia.
      * intros a b Hab. apply Nat.ltb_lt in Hab. lia.
      * intros a b Hab. apply Nat.ltb_ge in Hab. lia.
    + apply seq_StronglySorted.
    + rewrite sorted_perm. apply NoDup_Permutation.
      * apply collect_keys_NoDup.
      * apply NoDup_seq.
      * intros p. rewrite collect_keys_elem, elem_of_seq. split.
        -- intros ([[p' e] v] & Hc & <-). rewrite Hperm in Hc.
           apply elem_of_completed in Hc as (pg & Hpg & _). simpl.
           apply lookup_lt_Some in Hpg. lia.
        -- intros [_ Hp]. simpl in Hp.
           apply lookup_lt_is_Some in Hp as [pg Hpg].
           exists (p, "tesseract"%string, result (p, "tesseract"%string, pg)).
           split; [|done]. rewrite Hperm. apply elem_of_completed. eauto.
  - intros p e v. rewrite <- routed_get, dict_to_map_collect, routed_collect.
    + rewrite Hperm. apply elem_of_completed.
    + rewrite Hperm. apply completed_tags.
Qed.

Lemma collect_complete_witness :
  sorted Nat.ltb (keys (collect (reverse (completed (fun _ => tt) [[]; []]))))
  = seq 0 (length [[]; [] : bytes]) /\
  forall p e v,
    (get (collect (reverse (completed (fun _ => tt) [[]; []]))) p
       ≫= fun inner => get inner e) = Some v
    <-> exists pg, [[]; [] : bytes] !! p = Some pg
                   /\ (e = "tesseract"%string \/ e = "easyocr"%string)
                   /\ v = (fun _ : nat * string * bytes => tt) (p, e, pg).
Proof.
  apply (collect_complete (fun _ => tt) [[]; []]). apply reverse_Permutation.
Defined.

(** ** More on the driver *)

Lemma process_single_pdf_no_pages env pdf_path output_dir w :
  (forall pg pages, fitz_pages env pdf_path ≠ Ok (pg :: pages)) ->
  exists w', process_single_pdf_fast env pdf_path output_dir w = (Returned, w')
             /\ files w' = files w.
Proof.
  intros Hno. unfold process_single_pdf_fast, extract_pdf_pages_fast.
  destruct (fitz_pages env pdf_path) as [[|pg pages]|e]; [eauto|by destruct (Hno pg pages)|eauto].
Qed.

Lemma process_single_pdf_pages env pdf_path output_dir w pg pages :
  fitz_pages env pdf_path = Ok (pg :: pages) ->
  exists (data : OutlineResult) (w1 : World),
    files w1 = files w /\
    process_single_pdf_fast env pdf_path output_dir w
    = match open_w env (output_path output_dir pdf_path) with
      | Ok _ =>
          (Returned,
           logged (Info_saved (output_path output_dir pdf_path))
             (logged (Info_completed pdf_path (length (outline data)))
                {| files := setitem (files w1) (output_path output_dir pdf_path) data;
                   log := log w1; heap_next := heap_next w1 |}))
      | Raise e => (SystemExit 1, logged (Error_failed pdf_path e) w1)
      end.
Proof.
  intros Hpages. unfold process_single_pdf_fast, extract_pdf_pages_fast.
  rewrite Hpages. cbv zeta.
  match goal with |- context [consensus_pages ?d] =>
    destruct (consensus_pages_total d) as [all ->] end.
  rewrite bind_Ok. destruct (create_document_outline_eq all) as (tb & _ & ->).
  rewrite bind_Ok. eexists _, _. split; [|destruct (open_w env _); reflexivity]. done.
Qed.

(** X17: what [process_single_pdf_fast] does to the output files.  With at
    least one page and an output file that can be opened it returns and the
    file of the document holds an outline, every other file being as
    before; with pages and an output file that cannot be opened it ends the
    process with status 1 and writes nothing; without pages it returns and
    writes nothing. *)
Theorem process_single_pdf_outcomes (env : Env) (pdf_path : Path)
    (output_dir : string) (w : World) :
  let r := process_single_pdf_fast env pdf_path output_dir w in
  let output_file := output_path output_dir pdf_path in
  match fitz_pages env pdf_path with
  | Ok (_ :: _) =>
      match open_w env output_file with
      | Ok _ =>
          r.1 = Returned /\
          exists data : OutlineResult,
            get (files r.2) output_file = Some data /\
            forall q, q ≠ output_file -> get (files r.2) q = get (files w) q
      | Raise _ => r.1 = SystemExit 1 /\ files r.2 = files w
      end
  | _ => r.1 = Returned /\ files r.2 = files w
  end.
Proof.
  intros r output_file. subst r.
  destruct (fitz_pages env pdf_path) as [[|pg pages]|e] eqn:Hp.
  - destruct (process_single_pdf_no_pages env pdf_path output_dir w) as (w' & -> & ?);
      [congruence|done].
  - destruct (process_single_pdf_pages env pdf_path output_dir w pg pages Hp)
      as (data & w1 & Hw1 & ->).
    fold output_file. destruct (open_w env output_file); simpl; [|done].
    split; [done|]. exists data. rewrite Hw1. split.
    + apply get_setitem_eq.
    + intros q Hq. by apply get_setitem_ne.
  - destruct (process_single_pdf_no_pages env pdf_path output_dir w) as (w' & -> & ?);
      [congruence|done].
Qed.

Lemma process_single_pdf_exit env output_dir pdf_path w :
  (exits env output_dir pdf_path ->
   (process_single_pdf_fast env pdf_path output_dir w).1 = SystemExit 1) /\
  (~ exits env output_dir pdf_path ->
   (process_single_pdf_fast env pdf_path output_dir w).1 = Returned).
Proof.
  unfold exits. split.
  - intros [(pg & pages & Hp) [e He]].
    destruct (process_single_pdf_pages env pdf_path output_dir w pg pages Hp)
      as (data & w1 & _ & ->).
    by rewrite He.
  - intros Hno. destruct (fitz_pages env pdf_path) as [[|pg pages]|e] eqn:Hp.
    + destruct (process_single_pdf_no_pages env pdf_path output_dir w) as (w' & -> & ?);
        [congruence|done].
    + destruct (process_single_pdf_pages env pdf_path output_dir w pg pages Hp)
        as (data & w1 & _ & ->).
      destruct (open_w env _) as [|e] eqn:He; [done|]. exfalso. apply Hno. eauto.
    + destruct (process_single_pdf_no_pages env pdf_path output_dir w) as (w' & -> & ?);
        [congruence|done].
Qed.

Lemma exits_dec env output_dir p : exits env output_dir p \/ ~ exits env output_dir p.
Proof.
  unfold exits. destruct (fitz_pages env p) as [[|pg pages]|e].
  - right. intros [(? & ? & ?) _]. done.
  - destruct (open_w env (output_path output_dir p)) as [u|e].
    + right. intros [_ [? ?]]. done.
    + left. eauto.
  - right. intros [(? & ? & ?) _]. done.
Qed.

Lemma process_all_app_returned env output_dir pre rest w w1 :
  process_all env pre output_dir w = (Returned, w1) ->
  process_all env (pre ++ rest) output_dir w = process_all env rest output_dir w1.
Proof.
  revert w. induction pre as [|p pre IH]; intros w; simpl.
  { by intros [= ->]. }
  destruct (process_single_pdf_fast env p output_dir w) as [[|code] w']; [apply IH|done].
Qed.

Lemma process_all_returned env output_dir pre w :
  (forall p, p ∈ pre -> ~ exits env output_dir p) ->
  exists w1, process_all env pre output_dir w = (Returned, w1).
Proof.
  revert w. induction pre as [|p pre IH]; intros w Hno; simpl; [eauto|].
  destruct (process_single_pdf_exit env output_dir p w) as [_ Hret].
  destruct (process_single_pdf_fast env p output_dir w) as [o w'] eqn:E.
  simpl in Hret. rewrite Hret by (apply Hno, list_elem_of_here).
  apply IH. intros q Hq. by apply Hno, list_elem_of_further.
Qed.

Lemma process_all_exit env output_dir l w :
  (process_all env l output_dir w).1 = SystemExit 1
  <-> exists p, p ∈ l /\ exits env output_dir p.
Proof.
  revert w. induction l as [|p l IH]; intros w; simpl.
  { split; [done|]. intros (p & Hp & _). by apply elem_of_nil in Hp. }
  destruct (process_single_pdf_exit env output_dir p w) as [Hexit Hret].
  destruct (process_single_pdf_fast env p output_dir w) as [o w'] eqn:E. simpl in *.
  destruct o as [|code].
  - rewrite IH. split.
    + intros (q & Hq & Hx). exists q. split; [by apply list_elem_of_further|done].
    + intros (q & Hq & Hx). apply elem_of_cons in Hq as [->|Hq]; [|eauto].
      specialize (Hexit Hx). discriminate.
  - simpl. split.
    + intros _. exists p. split; [apply list_elem_of_here|].
      destruct (exits_dec env output_dir p) as [?|Hn]; [done|].
      specialize (Hret Hn). discriminate.
    + intros _. destruct (exits_dec env output_dir p) as [Hx|Hn].
      * apply Hexit in Hx. congruence.
      * specialize (Hret Hn). discriminate.
Qed.

Lemma process_all_code env output_dir l w code :
  (process_all env l output_dir w).1 = SystemExit code -> code = 1%Z.
Proof.
  revert w. induction l as [|p l IH]; intros w; simpl; [done|].
  destruct (process_single_pdf_exit env output_dir p w) as [Hexit Hret].
  destruct (process_single_pdf_fast env p output_dir w) as [[|c] w'] eqn:E; [apply IH|].
  simpl in *. intros [= ->].
  destruct (exits_dec env output_dir p) as [Hx|Hn].
  - specialize (Hexit Hx). congruence.
  - specialize (Hret Hn). discriminate.
Qed.

(** X18: the exit status of [main] is 1 exactly when some document of the
    input directory has pages while its output file cannot be opened, and 0
    otherwise; a document without pages never changes it. *)
Theorem main_exit_status (env : Env) (w : World) :
  ((main env w).1 = 1%Z
   <-> exists p, p ∈ glob_pdf env "/app/input" /\ exits env "/app/output" p) /\
  ((main env w).1 = 0%Z \/ (main env w).1 = 1%Z).
Proof.
  unfold main. destruct (glob_pdf env "/app/input") as [|p0 l] eqn:Hglob.
  { simpl. split; [|auto]. split; [done|]. intros (p & Hp & _). by apply elem_of_nil in Hp. }
  set (w0 := logged _ w).
  pose proof (process_all_exit env "/app/output" (p0 :: l) w0) as Hexit.
  pose proof (process_all_code env "/app/output" (p0 :: l) w0) as Hcode.
  destruct (process_all env (p0 :: l) "/app/output" w0) as [[|code] w'] eqn:E;
    simpl in *.
  - split; [|auto]. rewrite <- Hexit. done.
  - rewrite (Hcode code eq_refl) in *. split; [|auto]. rewrite <- Hexit. done.
Qed.

(** X19: the batch ends at the first document that has pages and whose
    output file cannot be opened: the documents listed after it are not
    processed. *)
Theorem batch_stops_at_first_exit (env : Env) (output_dir : string) (w : World)
    (pre post : list Path) (bad : Path) :
  (forall p, p ∈ pre -> ~ exits env output_dir p) ->
  exits env output_dir bad ->
  process_all env (pre ++ bad :: post) output_dir w
  = process_all env (pre ++ [bad]) output_dir w /\
  (process_all env (pre ++ bad :: post) output_dir w).1 = SystemExit 1.
Proof.
  intros Hpre Hbad.
  destruct (process_all_returned env output_dir pre w Hpre) as [w1 Hw1].
  rewrite !(process_all_app_returned _ _ _ _ _ _ Hw1). simpl.
  destruct (process_single_pdf_exit env output_dir bad w1) as [Hexit _].
  specialize (Hexit Hbad).
  destruct (process_single_pdf_fast env bad output_dir w1) as [o w']. simpl in Hexit.
  by rewrite Hexit.
Qed.

Lemma batch_stops_at_first_exit_witness :
  process_all env_read_only ([] ++ broken_pdf :: [broken_pdf]) "/app/output" empty_world
  = process_all env_read_only ([] ++ [broken_pdf]) "/app/output" empty_world /\
  (process_all env_read_only ([] ++ broken_pdf :: [broken_pdf]) "/app/output"
               empty_world).1 = SystemExit 1.
Proof.
  apply (batch_stops_at_first_exit env_read_only "/app/output" empty_world
           [] [broken_pdf] broken_pdf).
  - intros p Hp. by apply elem_of_nil in Hp.
  - split; [by eexists _, _|by eexists].
Defined.

Lemma setitem_Forall {K V} `{EqDecision K} (P : K * V -> Prop) (d : pydict K V) k v :
  Forall P d -> P (k, v) -> Forall P (setitem d k v).
Proof.
  intros Hd Hkv. induction Hd as [|[k' v'] d Hx Hd IH]; simpl.
  { by constructor. }
  destruct (decide (k' = k)); constructor; done.
Qed.

Lemma get_Some_elem {K V} `{EqDecision K} (d : pydict K V) k v :
  get d k = Some v -> (k, v) ∈ d.
Proof.
  induction d as [|[k' v'] d IH]; simpl; [done|].
  destruct (decide (k' = k)) as [->|].
  - intros [= ->]. apply list_elem_of_here.
  - intros H'. by apply list_elem_of_further, IH.
Qed.

Lemma collect_all_empty (cs : list (nat * string * list BoundingBox)) :
  Forall (fun c => c.2 = []) cs -> all_empty (collect cs).
Proof.
  unfold collect.
  assert (forall d, all_empty d -> Forall (fun c => c.2 = []) cs ->
                    all_empty (foldl collect_step d cs)) as Hgen.
  { induction cs as [|[[p e] v] cs IH]; intros d Hd Hcs; simpl; [done|].
    apply Forall_cons in Hcs as [Hv Hcs]. simpl in Hv. subst v.
    apply IH; [|done]. unfold all_empty. apply setitem_Forall; [done|]. simpl.
    apply setitem_Forall; [|done].
    destruct (get d p) as [inner|] eqn:E; simpl; [|constructor].
    apply get_Some_elem in E. by eapply Forall_forall in Hd; [|done]. }
  intros Hcs. apply Hgen; [constructor|done].
Qed.

Lemma completions_all_empty env next jobs :
  (forall nx job, job_result env nx job = []) ->
  Forall (fun c => c.2 = []) (completions env next jobs).
Proof.
  intros Hempty. revert next. induction jobs as [|job jobs IH]; intros next; simpl.
  { constructor. }
  constructor; [apply Hempty|apply IH].
Qed.

Lemma concat_all_empty {A} (ls : list (list A)) :
  Forall (fun l => l = []) ls -> concat ls = [].
Proof. induction 1 as [|l ls -> _ IH]; [done|]. by simpl. Qed.

Lemma consensus_pages_all_empty d : all_empty d -> consensus_pages d = Ok [].
Proof.
  intros Hd. unfold consensus_pages.
  generalize (sorted Nat.ltb (keys d)). intros ks.
  induction ks as [|p ks IH]; [done|].
  rewrite for_each_cons.
  assert (fast_ensemble_voting (default [] (get d p)) default_iou_threshold = Ok [])
    as ->.
  { unfold fast_ensemble_voting.
    assert (concat (values (default [] (get d p))) = []) as ->; [|done].
    apply concat_all_empty. unfold values. apply Forall_fmap.
    destruct (get d p) as [inner|] eqn:E; simpl; [|constructor].
    apply get_Some_elem in E. by eapply Forall_forall in Hd; [|done]. }
  rewrite !bind_Ok. simpl. apply IH.
Qed.

(** X20: a document that has pages, none of whose jobs returns a detection,
    and whose output file can be opened gets the outline with the empty
    title and no entry, and the function returns. *)
Theorem blank_document_outline (env : Env) (pdf_path : Path) (output_dir : string)
    (w : World) (pg : bytes) (pages : list bytes) :
  fitz_pages env pdf_path = Ok (pg :: pages) ->
  open_w env (output_path output_dir pdf_path) = Ok tt ->
  (forall next job, job_result env next job = []) ->
  exists w',
    process_single_pdf_fast env pdf_path output_dir w = (Returned, w') /\
    get (files w') (output_path output_dir pdf_path)
    = Some {| title := EmptyString; outline := [] |}.
Proof.
  intros Hpages Hopen Hempty. unfold process_single_pdf_fast, extract_pdf_pages_fast.
  rewrite Hpages. cbv zeta.
  rewrite consensus_pages_all_empty
    by (apply collect_all_empty, completions_all_empty, Hempty).
  rewrite bind_Ok. simpl create_document_outline. rewrite bind_Ok, Hopen, bind_Ok.
  eexists. split; [done|]. simpl. apply get_setitem_eq.
Qed.

Lemma blank_document_outline_witness :
  exists w',
    process_single_pdf_fast env_blank broken_pdf "/app/output" empty_world
    = (Returned, w') /\
    get (files w') (output_path "/app/output" broken_pdf)
    = Some {| title := EmptyString; outline := [] |}.
Proof.
  apply (blank_document_outline env_blank broken_pdf "/app/output" empty_world [] [[]]);
    try done.
  intros next [[p e] img]. simpl. by destruct (String.eqb e "tesseract").
Defined.

(** ** From the jobs to the outline builder *)

Lemma consensus_pages_eq d :
  consensus_pages d
  = Ok (flat_map (fun p => (fun box => (p, box)) <$> page_consensus d p)
                 (sorted Nat.ltb (keys d))).
Proof.
  unfold consensus_pages. generalize (sorted Nat.ltb (keys d)). intros ks.
  assert (forall acc,
            for_each (fun acc page_idx =>
                        consensus_boxes ←
                          fast_ensemble_voting (default [] (get d page_idx))
                                               default_iou_threshold;
                        Ok (acc ++ ((fun box => (page_idx, box)) <$> consensus_boxes)))
                     acc ks
            = Ok (acc ++ flat_map (fun p => (fun box => (p, box)) <$> page_consensus d p) ks))
    as Hgen.
  { induction ks as [|p ks IH]; intros acc; simpl.
    { by rewrite app_nil_r. }
    rewrite fast_ensemble_voting_greedy, !bind_Ok, IH. fold (page_consensus d p).
    by rewrite <- app_assoc. }
  apply (Hgen []).
Qed.

Lemma flat_map_fst_sorted (f : nat -> list BoundingBox) (ks : list nat) :
  StronglySorted le ks ->
  StronglySorted le (flat_map (fun p => (fun box => (p, box)) <$> f p) ks).*1.
Proof.
  induction 1 as [|p ks Hs IH Hp]; simpl; [constructor|].
  rewrite fmap_app.
  assert (forall (bs : list BoundingBox) rest,
            StronglySorted le rest -> Forall (le p) rest ->
            StronglySorted le (((fun box => (p, box)) <$> bs).*1 ++ rest)) as Hpre.
  { induction bs as [|b bs IHb]; intros rest Hr Hle; simpl; [done|].
    constructor; [by apply IHb|]. apply Forall_app. split; [|done].
    apply Forall_fmap, Forall_fmap, Forall_forall. intros x _. simpl. lia. }
  apply Hpre; [done|].
  apply Forall_fmap, Forall_forall. intros [q b] Hin. simpl.
  apply list_elem_of_In, in_flat_map in Hin as (k & Hk & Hin).
  apply list_elem_of_In in Hk, Hin. apply list_elem_of_fmap in Hin as (b' & [= -> ->] & _).
  by eapply Forall_forall in Hp.
Qed.

Lemma sorted_nat_StronglySorted (ks : list nat) :
  StronglySorted le (sorted Nat.ltb ks).
Proof.
  apply sorted_StronglySorted.
  - intros x y z. lia.
  - intros a b Hab. apply Nat.ltb_lt in Hab. lia.
  - intros a b Hab. apply Nat.ltb_ge in Hab. lia.
Qed.

(** X21: the list handed to the outline builder takes the pages by
    ascending index and holds, for each page of [results_by_page], exactly
    the detections [fast_ensemble_voting] returns for that page. *)
Theorem consensus_pages_ascending
    (d : pydict nat (pydict string (list BoundingBox))) :
  exists all : list (nat * BoundingBox),
    consensus_pages d = Ok all /\
    StronglySorted le all.*1 /\
    (forall p, fast_ensemble_voting (default [] (get d p)) default_iou_threshold
               = Ok (page_consensus d p)) /\
    (forall p b, (p, b) ∈ all <-> p ∈ keys d /\ b ∈ page_consensus d p).
Proof.
  rewrite consensus_pages_eq. eexists. split; [done|].
  split; [apply flat_map_fst_sorted, sorted_nat_StronglySorted|].
  split; [intros p; apply fast_ensemble_voting_greedy|].
  intros p b. rewrite list_elem_of_In, in_flat_map. split.
  - intros (k & Hk & Hin). apply list_elem_of_In in Hk, Hin.
    apply list_elem_of_fmap in Hin as (b' & [= -> ->] & Hb).
    rewrite sorted_perm in Hk. done.
  - intros [Hp Hb]. exists p. split.
    + apply list_elem_of_In. by rewrite sorted_perm.
    + apply list_elem_of_In, list_elem_of_fmap. eauto.
Qed.





Section Dict_stored.
Context {K V B : Type} `{EqDecision K} (f : K * V -> list B).



End Dict_stored.










(** ** Further properties *)

Lemma overlaps_threshold_one thr a b :
  1 <= thr -> constructed a -> constructed b -> overlaps thr a b = false.
Proof.
  intros Hthr Ha Hb. unfold overlaps. apply Qltb_ge.
  destruct (iou_value_constructed a b Ha Hb) as [[_ Hle] _]. lra.
Qed.

(** X23: with a threshold of 1 or more no two constructed boxes are ever
    merged: [fast_ensemble_voting] returns the flattened input unchanged. *)
Theorem consensus_threshold_one
    (ocr_results : pydict string (list BoundingBox)) (iou_threshold : Q) :
  1 <= iou_threshold ->
  Forall constructed (concat (values ocr_results)) ->
  fast_ensemble_voting ocr_results iou_threshold = Ok (concat (values ocr_results)).
Proof.
  intros Hthr Hall. rewrite fast_ensemble_voting_greedy, greedy_clusters_singletons.
  - rewrite <- list_fmap_compose. f_equal. apply list_fmap_id.
  - induction Hall as [|a l Ha Hl IH]; constructor; [|done].
    apply List.Forall_forall. intros b Hb. apply list_elem_of_In in Hb.
    apply overlaps_threshold_one; [done..|]. by eapply Forall_forall in Hl.
Qed.

Lemma consensus_threshold_one_witness :
  fast_ensemble_voting page_D 1 = Ok (concat (values page_D)).
Proof.
  apply (consensus_threshold_one page_D 1); [done|].
  repeat constructor.
Defined.

Lemma process_single_pdf_other_files env pdf_path output_dir w q :
  q ≠ output_path output_dir pdf_path ->
  get (files (process_single_pdf_fast env pdf_path output_dir w).2) q = get (files w) q.
Proof.
  intros Hq. destruct (fitz_pages env pdf_path) as [[|pg pages]|e] eqn:Hp.
  - destruct (process_single_pdf_no_pages env pdf_path output_dir w) as (w' & -> & Hf);
      [congruence|]. simpl. by rewrite Hf.
  - destruct (process_single_pdf_pages env pdf_path output_dir w pg pages Hp)
      as (data & w1 & Hw1 & ->).
    destruct (open_w env _); simpl; rewrite Hw1; [|done].
    by apply get_setitem_ne.
  - destruct (process_single_pdf_no_pages env pdf_path output_dir w) as (w' & -> & Hf);
      [congruence|]. simpl. by rewrite Hf.
Qed.

Lemma process_all_other_files env l output_dir w q :
  (forall p, p ∈ l -> q ≠ output_path output_dir p) ->
  get (files (process_all env l output_dir w).2) q = get (files w) q.
Proof.
  revert w. induction l as [|p l IH]; intros w Hq; simpl; [done|].
  pose proof (process_single_pdf_other_files env p output_dir w q
                (Hq p (list_elem_of_here _ _))) as Hp.
  destruct (process_single_pdf_fast env p output_dir w) as [[|code] w']; simpl in *.
  - rewrite IH; [done|]. intros p' Hp'. by apply Hq, list_elem_of_further.
  - done.
Qed.

(** X24: [main] leaves every file alone that is not the output file of a
    document of the input directory. *)
Theorem main_other_files (env : Env) (w : World) (q : Path) :
  (forall p, p ∈ glob_pdf env "/app/input" -> q ≠ output_path "/app/output" p) ->
  get (files (main env w).2) q = get (files w) q.
Proof.
  intros Hq. unfold main.
  destruct (glob_pdf env "/app/input") as [|p0 l] eqn:Hglob; [done|].
  set (w0 := logged _ w).
  pose proof (process_all_other_files env (p0 :: l) "/app/output" w0 q Hq) as H.
  destruct (process_all env (p0 :: l) "/app/output" w0) as [[|code] w']; simpl in *;
    by rewrite H.
Qed.

Lemma main_other_files_witness :
  get (files (main env_blank empty_world).2) broken_pdf = get (files empty_world) broken_pdf.
Proof.
  apply (main_other_files env_blank empty_world broken_pdf).
  intros p Hp. simpl in Hp. apply list_elem_of_singleton in Hp as ->. done.
Defined.

Lemma tesseract_row_texts data st i st' :
  Forall stripped_long st.1 -> tesseract_row data st i = Ok st' ->
  Forall stripped_long st'.1.
Proof.
  destruct st as [boxes next]. intros Hst. unfold tesseract_row.
  destruct (getitem (tess_text data) i) as [t|]; [|done]. rewrite bind_Ok.
  destruct (getitem (tess_conf data) i) as [c|]; [|done]. rewrite bind_Ok.
  destruct ((1 <? String.length (strip t))%nat && (30 <? c)%Z) eqn:Eadm;
    [|by intros [= <-]].
  apply andb_true_iff in Eadm as [Hlen _]. apply Nat.ltb_lt in Hlen.
  destruct (getitem (tess_left data) i) as [x|]; [|done]. rewrite bind_Ok.
  destruct (getitem (tess_top data) i) as [y|]; [|done]. rewrite bind_Ok.
  destruct (getitem (tess_width data) i) as [w|]; [|done]. rewrite bind_Ok.
  destruct (getitem (tess_height data) i) as [h|]; [|done]. rewrite bind_Ok.
  change (truediv (inject_Z c) 100) with (Ok (inject_Z c / 100)). rewrite bind_Ok.
  intros [= <-]. simpl. apply Forall_app. split; [done|]. apply Forall_singleton.
  unfold stripped_long. simpl. by rewrite !strip_idempotent.
Qed.

Lemma easyocr_item_texts st it st' :
  Forall stripped_long st.1 -> easyocr_item st it = Ok st' ->
  Forall stripped_long st'.1.
Proof.
  destruct st as [boxes next]. intros Hst. unfold easyocr_item.
  destruct (Qltb (4 # 10) (easy_conf it)
            && (1 <? String.length (strip (easy_text it)))%nat) eqn:Eadm;
    [|by intros [= <-]].
  apply andb_true_iff in Eadm as [_ Hlen]. apply Nat.ltb_lt in Hlen.
  destruct (min_list (easy_coords it).*1) as [bx1|]; [|done]. rewrite bind_Ok.
  destruct (min_list (easy_coords it).*2) as [by1|]; [|done]. rewrite bind_Ok.
  destruct (max_list (easy_coords it).*1) as [bx2|]; [|done]. rewrite bind_Ok.
  destruct (max_list (easy_coords it).*2) as [by2|]; [|done]. rewrite bind_Ok.
  intros [= <-]. simpl. apply Forall_app. split; [done|]. apply Forall_singleton.
  unfold stripped_long. simpl. by rewrite strip_idempotent.
Qed.

(** X25: the text of every detection an adapter returns is stripped and has
    at least two characters. *)
Theorem adapter_texts
    (image_to_data : bytes -> result TessData)
    (reader : option (bytes -> result (list EasyItem)))
    (alloc : nat) (image_bytes : bytes) :
  Forall stripped_long (run_tesseract image_to_data alloc image_bytes) /\
  Forall stripped_long (run_easyocr reader alloc image_bytes).
Proof.
  split.
  - unfold run_tesseract. destruct (image_to_data image_bytes) as [data|]; [|constructor].
    rewrite bind_Ok. unfold tesseract_boxes.
    destruct (for_each _ _ _) as [st|] eqn:E; [|constructor]. rewrite bind_Ok.
    revert E. apply (for_each_invariant (fun st => Forall stripped_long st.1)
                       (tesseract_row data)); [|constructor].
    intros s i s'. apply tesseract_row_texts.
  - unfold run_easyocr. destruct reader as [readtext|]; [|constructor].
    destruct (readtext image_bytes) as [results|]; [|constructor].
    rewrite bind_Ok. unfold easyocr_boxes.
    destruct (for_each _ _ _) as [st|] eqn:E; [|constructor]. rewrite bind_Ok.
    revert E. apply (for_each_invariant (fun st => Forall stripped_long st.1)
                       easyocr_item); [|constructor].
    intros s i s'. apply easyocr_item_texts.
Qed.

Lemma filter_perm_length {A} (f : A -> bool) (l l' : list A) :
  l ≡ₚ l' -> length (List.filter f l) = length (List.filter f l').
Proof.
  induction 1 as [|x l l' _ IH|x y l|l l' l'' _ IH1 _ IH2]; simpl.
  - done.
  - destruct (f x); simpl; by rewrite IH.
  - by destruct (f x), (f y).
  - by rewrite IH1.
Qed.

Lemma sorted_around (s : list Q) (k : nat) (m : Q) :
  StronglySorted Qle s -> s !! k = Some m ->
  Forall (fun x => x <= m) (take (S k) s) /\ Forall (fun x => m <= x) (drop k s).
Proof.
  intros Hs. revert k. induction Hs as [|y s Hs IH Hy]; intros k Hk; [done|].
  destruct k as [|k]; simpl in Hk.
  - injection Hk as ->. split.
    + simpl. rewrite take_0. constructor; [lra|constructor].
    + simpl. constructor; [lra|done].
  - destruct (IH k Hk) as [Hle Hge]. split; [|done].
    change (take (S (S k)) (y :: s)) with (y :: take (S k) s).
    constructor; [|done].
    eapply Forall_forall in Hy; [exact Hy|]. by eapply list_elem_of_lookup_2.
Qed.

(** X26: the median [median_size] returns is one of the sizes; more than
    half of the sizes are at most it and at least half of them, rounded up,
    are at least it. *)
Theorem median_size_positional (sizes : list Q) (m : Q) :
  median_size sizes = Ok m ->
  m ∈ sizes /\
  (length sizes / 2 < length (List.filter (fun x => Qle_bool x m) sizes))%nat /\
  (length sizes - length sizes / 2
   <= length (List.filter (fun x => Qle_bool m x) sizes))%nat.
Proof.
  intros Hm. split; [by apply median_size_elem|].
  unfold median_size, getitem in Hm. rewrite sorted_length in Hm.
  set (s := sorted Qltb sizes) in *. set (k := (length sizes / 2)%nat) in *.
  destruct (s !! k) as [x|] eqn:Hk; [|done]. injection Hm as ->.
  assert (k < length s)%nat as Hlt by (by eapply lookup_lt_Some).
  assert (length s = length sizes) as Hlen by apply sorted_length.
  destruct (sorted_around s k m (sorted_Qle sizes) Hk) as [Hle Hge].
  rewrite <- !(filter_perm_length _ _ _ (sorted_perm Qltb sizes)). fold s. split.
  - rewrite <- (take_drop (S k) s), List.filter_app, length_app.
    rewrite filter_all_true.
    + rewrite length_take. lia.
    + eapply Forall_impl; [exact Hle|]. intros y Hy. by apply Qle_bool_iff.
  - rewrite <- (take_drop k s), List.filter_app, length_app.
    rewrite (filter_all_true _ (drop k s)).
    + rewrite length_drop. lia.
    + eapply Forall_impl; [exact Hge|]. intros y Hy. by apply Qle_bool_iff.
Qed.

Lemma median_size_positional_witness :
  (10 : Q) ∈ sample_sizes /\
  (length sample_sizes / 2
   < length (List.filter (fun x => Qle_bool x 10) sample_sizes))%nat /\
  (length sample_sizes - length sample_sizes / 2
   <= length (List.filter (fun x => Qle_bool 10 x) sample_sizes))%nat.
Proof. apply (median_size_positional sample_sizes 10). reflexivity. Defined.
